(** * sgl_solver: the 1-d time-independent Schroedinger solver of [sgl.py]

    A shallow embedding of [interpolate_potential], [_write_hamiltonian],
    [_norm_eigenvectors], [expectation_values] and [solve_hamiltonian].

    Numbers.  The program computes with numpy's float64.  Rounding and
    overflow are not modelled: a finite value is a real number, and the
    three exceptional values that numpy produces without raising (a division
    by zero, the square root of a negative number) are kept, so that the
    paths on which the program yields [inf] or [nan] can be stated.  The sign
    of a zero is not modelled.

    Effects.  [para] is the one dictionary of a run; [_write_hamiltonian]
    stores ['Delta'] into it and the later stages read it back.  The four
    writers of [iomodul] are sinks.  Both live in the store that the monad
    [M] threads; a Python exception is the [Raise] outcome. *)

From Stdlib Require Import Reals Lra Lia ZArith String List Bool Sorted.
Import ListNotations.

(* ================================================================= *)
(** ** numpy scalars *)

Module Np.

Open Scope R_scope.

Inductive num : Type :=
| Fin (r : R)
| PInf
| NInf
| NaN.

Definition neg (x : num) : num :=
  match x with
  | Fin r => Fin (- r)
  | PInf => NInf
  | NInf => PInf
  | NaN => NaN
  end.

Definition add (x y : num) : num :=
  match x, y with
  | NaN, _ | _, NaN => NaN
  | Fin a, Fin b => Fin (a + b)
  | PInf, NInf | NInf, PInf => NaN
  | PInf, _ | _, PInf => PInf
  | NInf, _ | _, NInf => NInf
  end.

Definition sub (x y : num) : num := add x (neg y).

(** [r * i] for a finite [r] and an infinite [i]: the sign of [r] decides,
    and [0 * inf] is [nan]. *)
Definition scale_inf (r : R) (i : num) : num :=
  if Rlt_dec 0 r then i
  else if Rlt_dec r 0 then neg i
  else NaN.

Definition mul (x y : num) : num :=
  match x, y with
  | NaN, _ | _, NaN => NaN
  | Fin a, Fin b => Fin (a * b)
  | Fin a, i => scale_inf a i
  | i, Fin b => scale_inf b i
  | PInf, PInf | NInf, NInf => PInf
  | PInf, NInf | NInf, PInf => NInf
  end.

(** numpy's true division: [x / 0] is [inf], [-inf] or (for [0 / 0]) [nan],
    with a warning and no exception.  The zero divisor is taken as [+0.0]:
    the quotient by a [-0.0] is the infinity of the other sign. *)
Definition div (x y : num) : num :=
  match x, y with
  | NaN, _ | _, NaN => NaN
  | Fin a, Fin b => if Req_dec_T b 0 then scale_inf a PInf else Fin (a / b)
  | Fin _, _ => Fin 0
  | i, Fin b => if Rlt_dec b 0 then neg i else i
  | _, _ => NaN
  end.

(** [np.sqrt]: [nan] below zero, again without an exception. *)
Definition sqrt (x : num) : num :=
  match x with
  | Fin a => if Rlt_dec a 0 then NaN else Fin (R_sqrt.sqrt a)
  | PInf => PInf
  | NInf | NaN => NaN
  end.

Definition abs (x : num) : num :=
  match x with
  | Fin a => Fin (Rabs a)
  | PInf | NInf => PInf
  | NaN => NaN
  end.

(** [x**2] *)
Definition sq (x : num) : num := mul x x.

Definition ltb (x y : num) : bool :=
  match x, y with
  | NaN, _ | _, NaN => false
  | Fin a, Fin b => if Rlt_dec a b then true else false
  | PInf, _ | _, NInf => false
  | NInf, _ | _, PInf => true
  end.

Definition is_nan (x : num) : bool :=
  match x with NaN => true | _ => false end.

Definition is_fin (x : num) : Prop :=
  match x with Fin _ => True | _ => False end.

(** Python's builtin [sum]: left to right from the integer [0]. *)
Definition py_sum (l : list num) : num := fold_left add l (Fin 0).

(** [np.sum] of a 1-d array; the pairwise order numpy uses only changes the
    rounding. *)
Definition np_sum (l : list num) : num := fold_left add l (Fin 0).

End Np.

Import Np.
Open Scope R_scope.

(* ================================================================= *)
(** ** Outcomes, the store and the monad *)

Inductive exn : Type :=
| ValueError
| IndexError
| KeyError
| UnboundLocalError.

Inductive result (A : Type) : Type :=
| Ok (a : A)
| Raise (e : exn).
Arguments Ok {A} a.
Arguments Raise {A} e.

Definition rbind {A B} (r : result A) (k : A -> result B) : result B :=
  match r with
  | Ok a => k a
  | Raise e => Raise e
  end.

(** A 2-d ndarray, as the list of its rows. *)
Definition matrix := list (list num).

(** The dictionary [para].  Every key but ['Delta'] is written by
    [iomodul.read_schrodinger_inp]; ['Delta'] is absent until
    [_write_hamiltonian] stores it. *)
Record Para : Type := mkPara {
  xMin : R;
  xMax : R;
  nPoints : Z;
  mass : R;
  interpolation_type : string;
  interpolation_points_number : Z;
  interpolation_points_x : list R;
  interpolation_points_y : list R;
  first_eigenvalue : Z;
  last_eigenvalue : Z;
  directory : string;
  Delta : option num
}.

Definition set_Delta (d : num) (p : Para) : Para :=
  mkPara (xMin p) (xMax p) (nPoints p) (mass p) (interpolation_type p)
         (interpolation_points_number p) (interpolation_points_x p)
         (interpolation_points_y p) (first_eigenvalue p) (last_eigenvalue p)
         (directory p) (Some d).

(** Modelled from the spec: the four writers of [iomodul], whose source is
    not part of the files read here.  Each is "a pure sink taking arrays and
    a directory and returning nothing observable to the pipeline"; a call is
    recorded with its arguments. *)
Inductive event : Type :=
| write_potential (xaxis potential : list num) (dir : string)
| write_eigenvalues (eigenvalues : list num) (dir : string)
| write_eigenvectors (eigenvectors : matrix) (xaxis : list num) (dir : string)
| write_expectation_values (expval uncertainty : list num) (dir : string).

Record store : Type := mkStore {
  para : Para;
  sinks : list event
}.

Definition M (A : Type) : Type := store -> result A * store.

Definition ret {A} (a : A) : M A := fun s => (Ok a, s).

Definition bind {A B} (m : M A) (k : A -> M B) : M B :=
  fun s =>
    match m s with
    | (Ok a, s') => k a s'
    | (Raise e, s') => (Raise e, s')
    end.

Definition raise {A} (e : exn) : M A := fun s => (Raise e, s).

Definition lift {A} (r : result A) : M A := fun s => (r, s).

Definition get_para : M Para := fun s => (Ok (para s), s).

Definition put_para (p : Para) : M unit :=
  fun s => (Ok tt, mkStore p (sinks s)).

Definition emit (e : event) : M unit :=
  fun s => (Ok tt, mkStore (para s) (sinks s ++ [e])).

Declare Scope monad_scope.
Delimit Scope monad_scope with monad.
Notation "x <- m ;; k" := (bind m (fun x => k))
  (at level 61, m at next level, right associativity) : monad_scope.
Notation "' pat <- m ;; k" := (bind m (fun x => match x with pat => k end))
  (at level 61, pat pattern, m at next level, right associativity) : monad_scope.
Notation "m ;; k" := (bind m (fun _ => k))
  (at level 61, right associativity) : monad_scope.
Open Scope monad_scope.

(** [for ii in range(n)] over an accumulator. *)
Fixpoint for_range_from {A} (start : nat) (n : nat)
         (body : nat -> A -> M A) (acc : A) : M A :=
  match n with
  | O => ret acc
  | S n' => acc' <- body start acc ;; for_range_from (S start) n' body acc'
  end.

Definition for_range {A} (n : nat) (body : nat -> A -> M A) (acc : A) : M A :=
  for_range_from 0 n body acc.

(* ================================================================= *)
(** ** numpy arrays *)

(** [a[i] = v] on a 1-d array, for [i] in range. *)
Fixpoint list_set {A} (i : nat) (v : A) (l : list A) : list A :=
  match l, i with
  | [], _ => []
  | _ :: l', O => v :: l'
  | x :: l', S i' => x :: list_set i' v l'
  end.

(** [a[-1] = v] *)
Definition set_last {A} (v : A) (l : list A) : list A :=
  match l with
  | [] => []
  | _ :: _ => removelast l ++ [v]
  end.

(** [a[1:-1]] *)
Definition interior {A} (l : list A) : list A := removelast (tl l).

(** [m[:, ii]] of a rectangular array with [ii] among its columns. *)
Definition column (ii : nat) (m : matrix) : list num :=
  map (fun row => nth ii row NaN) m.

(** [m[:, ii] = vals], in place: one entry for each row. *)
Fixpoint set_column (ii : nat) (vals : list num) (m : matrix) : matrix :=
  match m, vals with
  | row :: m', v :: vals' => list_set ii v row :: set_column ii vals' m'
  | _, _ => m
  end.

(** [np.size(m[0])]; indexing an array without rows is an IndexError. *)
Definition size_row0 (m : matrix) : result nat :=
  match m with
  | [] => Raise IndexError
  | row :: _ => Ok (length row)
  end.

(** [np.linspace(start, stop, num)] with the endpoint included: a negative
    [num] is a ValueError, the samples are [arange(num) * step + start] with
    [step = (stop - start) / (num - 1)] (for a single sample numpy multiplies
    by [stop - start] instead), and the last one is overwritten with
    [stop].  numpy's separate path for a step that rounds to zero computes
    the same values here. *)
Definition linspace (start stop : num) (n : Z) : result (list num) :=
  if (n <? 0)%Z then Raise ValueError
  else
    let dv := (n - 1)%Z in
    let delta := sub stop start in
    let y := map (fun i => Fin (INR i)) (seq 0 (Z.to_nat n)) in
    let y := if (0 <? dv)%Z
             then map (fun yi => mul yi (div delta (Fin (IZR dv)))) y
             else map (fun yi => mul yi delta) y in
    let y := map (fun yi => add yi start) y in
    Ok (if (1 <? n)%Z then set_last stop y else y).

(** [np.ones(n)] *)
Definition ones (n : Z) : result (list num) :=
  if (n <? 0)%Z then Raise ValueError
  else Ok (repeat (Fin 1) (Z.to_nat n)).

(** [a * b] on 1-d arrays, with numpy's broadcasting: equal lengths, or one
    operand of length 1; any other pair of shapes is a ValueError. *)
Definition np_mul (a b : list num) : result (list num) :=
  if Nat.eqb (length a) (length b)
  then Ok (map (fun ab => mul (fst ab) (snd ab)) (combine a b))
  else match a, b with
       | [x], _ => Ok (map (mul x) b)
       | _, [y] => Ok (map (fun x => mul x y) a)
       | _, _ => Raise ValueError
       end.

(* ================================================================= *)
(** ** scipy.interpolate.interp1d, linear *)

(** [interp1d(x, y)] with its defaults ([kind='linear'],
    [assume_sorted=False], [bounds_error] on).  The constructor checks the
    lengths and sorts the points by [x] with a stable sort; a call raises
    ValueError when some new point is below the first or above the last
    knot, and otherwise evaluates, through [np.interp], the segment
    [x_j <= x < x_(j+1)] that holds the point. *)

Fixpoint insert_by_x (p : R * R) (l : list (R * R)) : list (R * R) :=
  match l with
  | [] => [p]
  | q :: l' =>
      if Rle_dec (fst p) (fst q) then p :: q :: l'
      else q :: insert_by_x p l'
  end.

Fixpoint sort_by_x (l : list (R * R)) : list (R * R) :=
  match l with
  | [] => []
  | p :: l' => insert_by_x p (sort_by_x l')
  end.

Definition interp1d (x y : list R) : result (list (R * R)) :=
  if negb (Nat.eqb (length x) (length y)) then Raise ValueError
  else if Nat.ltb (length x) 1 then Raise ValueError
  else Ok (sort_by_x (combine x y)).

Fixpoint np_interp (knots : list (R * R)) (x : R) : num :=
  match knots with
  | [] => NaN
  | (x0, y0) :: rest =>
      match rest with
      | [] => Fin y0
      | (x1, y1) :: _ =>
          if Rlt_dec x x1
          then if Req_dec_T x x0 then Fin y0
               else add (mul (div (Fin (y1 - y0)) (Fin (x1 - x0)))
                             (Fin (x - x0)))
                        (Fin y0)
          else np_interp rest x
      end
  end.

Definition below_bounds (knots : list (R * R)) (x : num) : bool :=
  match knots with
  | [] => false
  | (x0, _) :: _ => ltb x (Fin x0)
  end.

Definition above_bounds (knots : list (R * R)) (x : num) : bool :=
  match knots with
  | [] => false
  | _ :: _ => ltb (Fin (fst (last knots (0, 0)))) x
  end.

Definition interp1d_call (knots : list (R * R)) (x_new : list num)
  : result (list num) :=
  if existsb (below_bounds knots) x_new then Raise ValueError
  else if existsb (above_bounds knots) x_new then Raise ValueError
  else Ok (map (fun x => match x with
                         | Fin r => np_interp knots r
                         | _ => NaN
                         end) x_new).

(** [np.poly1d(c)(x)]: Horner's rule, highest coefficient first. *)
Definition poly1d (c : list num) (x : num) : num :=
  fold_left (fun acc ck => add (mul acc x) ck) c (Fin 0).

(** The library routines the program only calls: the natural cubic spline,
    the least-squares fit and the LAPACK-backed tridiagonal eigensolver. *)
Class SciPy : Type := {
  CubicSpline : list R -> list R -> string -> result (num -> num);
  polyfit : list R -> list R -> Z -> result (list num);
  eigh_tridiagonal :
    list num -> list num -> bool -> string -> Z * Z ->
    result (list num * matrix)
}.

(** What [interpolation_fun] can be bound to. *)
Inductive interpolant : Type :=
| Linear (knots : list (R * R))
| Spline (f : num -> num)
| Poly (c : list num).

Definition call_interpolant (f : interpolant) (x : list num)
  : result (list num) :=
  match f with
  | Linear knots => interp1d_call knots x
  | Spline s => Ok (map s x)
  | Poly c => Ok (map (poly1d c) x)
  end.

(* ================================================================= *)
(** ** sgl.py *)

Section Sgl.

Context {scipy : SciPy}.

(** The [if]/[elif] chain has no [else]: with any other method name
    [interpolation_fun] stays unbound and its use raises
    UnboundLocalError. *)
Definition interpolate_potential : M (list num) :=
  p <- get_para ;;
  let x_points := interpolation_points_x p in
  let y_points := interpolation_points_y p in
  xaxis <- lift (linspace (Fin (xMin p)) (Fin (xMax p)) (nPoints p)) ;;
  interpolation_fun <- lift (
    if String.eqb (interpolation_type p) "linear" then
      rbind (interp1d x_points y_points) (fun k => Ok (Some (Linear k)))
    else if String.eqb (interpolation_type p) "cspline" then
      rbind (CubicSpline x_points y_points "natural")
            (fun s => Ok (Some (Spline s)))
    else if String.eqb (interpolation_type p) "polynomial" then
      rbind (polyfit x_points y_points (interpolation_points_number p - 1))
            (fun fun_args => Ok (Some (Poly fun_args)))
    else Ok None) ;;
  potential <- match interpolation_fun with
               | Some f => lift (call_interpolant f xaxis)
               | None => raise UnboundLocalError
               end ;;
  emit (write_potential xaxis potential (directory p)) ;;
  ret potential.

Definition _write_hamiltonian : M (list num * list num) :=
  potential <- interpolate_potential ;;
  p <- get_para ;;
  let delta := div (Fin (Rabs (xMax p - xMin p))) (Fin (IZR (nPoints p))) in
  put_para (set_Delta delta p) ;;
  let aa := div (Fin 1) (mul (Fin (mass p)) (sq delta)) in
  let hamiltonian_diag := map (add aa) potential in
  o <- lift (ones (nPoints p - 1)) ;;
  let hamiltonian_offdiag := map (mul (div (neg aa) (Fin 2))) o in
  ret (hamiltonian_diag, hamiltonian_offdiag).

(** [para['Delta']] *)
Definition get_Delta : M num :=
  p <- get_para ;;
  match Delta p with
  | Some d => ret d
  | None => raise KeyError
  end.

Definition _norm_eigenvectors (eigenvectors : matrix) : M matrix :=
  n <- lift (size_row0 eigenvectors) ;;
  for_range n (fun ii eigenvectors =>
    d <- get_Delta ;;
    let eigenvector_norm :=
      mul d (py_sum (map (fun v => sq (abs v))
                         (interior (column ii eigenvectors)))) in
    ret (set_column ii
           (map (fun v => div v (sqrt eigenvector_norm))
                (column ii eigenvectors))
           eigenvectors))
    eigenvectors.

(** One pass of the loop of [expectation_values], for column [ii]. *)
Definition observables_of_column (delta : num) (x_i : list num)
           (eigenvectors : matrix) (ii : nat) : result (num * num * num) :=
  let psi2 := map sq (interior (column ii eigenvectors)) in
  rbind (np_mul psi2 x_i) (fun t1 =>
  let expval := mul delta (np_sum t1) in
  rbind (np_mul psi2 (map sq x_i)) (fun t2 =>
  let expval_squared := mul delta (np_sum t2) in
  let uncertainty := sqrt (sub expval_squared (sq expval)) in
  Ok (expval, expval_squared, uncertainty))).

Definition zeros (n : nat) : list num := repeat (Fin 0) n.

Definition expectation_values (eigenvectors : matrix) : M unit :=
  n <- lift (size_row0 eigenvectors) ;;
  let expval := zeros n in
  let expval_squared := zeros n in
  let uncertainty := zeros n in
  delta <- get_Delta ;;
  p <- get_para ;;
  x_i <- lift (linspace (add (Fin (xMin p)) delta) (sub (Fin (xMax p)) delta)
                        (nPoints p - 2)) ;;
  '(expval, expval_squared, uncertainty) <-
    for_range n (fun ii '(expval, expval_squared, uncertainty) =>
      '(e, e2, u) <- lift (observables_of_column delta x_i eigenvectors ii) ;;
      ret (list_set ii e expval, list_set ii e2 expval_squared,
           list_set ii u uncertainty))
      (expval, expval_squared, uncertainty) ;;
  emit (write_expectation_values expval uncertainty (directory p)).

Definition solve_hamiltonian : M (list num * matrix) :=
  '(hamiltonian_diag, hamiltonian_offdiag) <- _write_hamiltonian ;;
  p <- get_para ;;
  '(eigenvalues, eigenvectors) <-
    lift (eigh_tridiagonal hamiltonian_diag hamiltonian_offdiag false "i"
            ((first_eigenvalue p - 1)%Z, (last_eigenvalue p - 1)%Z)) ;;
  eigenvectors <- _norm_eigenvectors eigenvectors ;;
  emit (write_eigenvalues eigenvalues (directory p)) ;;
  xaxis <- lift (linspace (Fin (xMin p)) (Fin (xMax p)) (nPoints p)) ;;
  emit (write_eigenvectors eigenvectors xaxis (directory p)) ;;
  ret (eigenvalues, eigenvectors).

End Sgl.

(* ================================================================= *)
(** ** Vocabulary of the statements *)

Definition Rsum (l : list R) : R := fold_right Rplus 0 l.

(** The samples of [np.linspace(a, b, n)] over the reals. *)
Definition grid (a b : R) (n : Z) : list R :=
  map (fun i => a + INR i * ((b - a) / (IZR n - 1))) (seq 0 (Z.to_nat n)).

(** The canonical spacing that [_write_hamiltonian] stores as ['Delta']. *)
Definition spacing (p : Para) : R :=
  Rabs (xMax p - xMin p) / IZR (nPoints p).

(** An array of [r] rows and [k] columns. *)
Definition rect (r k : nat) (m : matrix) : Prop :=
  length m = r /\ Forall (fun row => length row = k) m.

(** The quantity [eigenvector_norm] of the normalizer, for one column:
    [Delta * sum(|psi_i|^2)] over the interior samples. *)
Definition quadrature (d : num) (col : list num) : num :=
  mul d (py_sum (map (fun v => sq (abs v)) (interior col))).

(** The same over the reals. *)
Definition quadratureR (dl : R) (psi : list R) : R :=
  dl * Rsum (map (fun x => Rabs x * Rabs x) (interior psi)).

(** What one pass of the normalizer loop makes of a column. *)
Definition normalize_column (d : num) (col : list num) : list num :=
  map (fun v => div v (Np.sqrt (quadrature d col))) col.

(** [Delta * sum(psi_i^2 * x_i)] and [Delta * sum(psi_i^2 * x_i^2)] over the
    interior samples, for coordinates [xs]. *)
Definition expectationR (dl : R) (psi xs : list R) : R :=
  dl * Rsum (map (fun a => fst a * snd a)
                 (combine (map (fun x => x * x) (interior psi)) xs)).

Definition expectation2R (dl : R) (psi xs : list R) : R :=
  dl * Rsum (map (fun a => fst a * snd a)
                 (combine (map (fun x => x * x) (interior psi))
                          (map (fun x => x * x) xs))).

(** Product of the symmetric tridiagonal matrix with diagonal [dg] and
    off-diagonal [off] and a vector. *)
Definition tridiag_apply (dg off psi : list R) : list R :=
  map (fun i =>
         nth i dg 0 * nth i psi 0
         + (match i with
            | O => 0
            | S j => nth j off 0 * nth j psi 0
            end)
         + nth i off 0 * nth (S i) psi 0)
      (seq 0 (length dg)).

Definition is_eigenvector (dg off : list R) (lam : R) (psi : list R) : Prop :=
  length psi = length dg
  /\ tridiag_apply dg off psi = map (Rmult lam) psi
  /\ Exists (fun x => x <> 0) psi.

Definition dot (u v : list R) : R :=
  Rsum (map (fun uv => fst uv * snd uv) (combine u v)).

(** The whole spectrum of the matrix: as many eigenpairs as rows, in
    ascending order of eigenvalue, the eigenvectors mutually orthogonal (so
    that an eigenvalue is listed as often as its multiplicity). *)
Record full_spectrum (dg off : list R) (sp : list (R * list R)) : Prop := {
  sp_length : length sp = length dg;
  sp_eigen : Forall (fun ev => is_eigenvector dg off (fst ev) (snd ev)) sp;
  sp_ascending :
    forall i j, (i <= j < length sp)%nat ->
                fst (nth i sp (0, [])) <= fst (nth j sp (0, []));
  sp_orthogonal :
    forall i j, (i < j < length sp)%nat ->
                dot (snd (nth i sp (0, []))) (snd (nth j sp (0, []))) = 0
}.

(** The [k]-th smallest eigenvalue, [k] counted from 1. *)
Definition kth_smallest (sp : list (R * list R)) (k : nat) : R :=
  fst (nth (k - 1) sp (0, [])).

(** The eigenpairs with 0-based indices [lo..hi] of the spectrum, as
    [eigh_tridiagonal] hands them back for [select='i']: the eigenvalues,
    and the array whose column [c] is the [c]-th selected eigenvector. *)
Definition band (lo hi : nat) (sp : list (R * list R)) : list (R * list R) :=
  firstn (hi - lo + 1) (skipn lo sp).

Definition band_values (b : list (R * list R)) : list num :=
  map (fun ev => Fin (fst ev)) b.

Definition band_vectors (n : nat) (b : list (R * list R)) : matrix :=
  map (fun r => map (fun ev => Fin (nth r (snd ev) 0)) b) (seq 0 n).

(** A grid point outside the support [[min x_i, max x_i]] of the control
    points. *)
Definition outside_support (xs : list R) (g : R) : Prop :=
  Forall (fun x => g < x) xs \/ Forall (fun x => x < g) xs.

(** Control points with strictly increasing abscissae; knots ordered by
    abscissa. *)
Definition strictly_increasing (xs : list R) : Prop := StronglySorted Rlt xs.

Definition knots_increasing (knots : list (R * R)) : Prop :=
  StronglySorted (fun a b => fst a < fst b) knots.

(** The reading of the grid under which consecutive points are [Delta]
    apart, [Delta] being the spacing that [_write_hamiltonian] computes. *)
Definition grid_step_is_Delta (p : Para) : Prop :=
  forall xaxis,
    linspace (Fin (xMin p)) (Fin (xMax p)) (nPoints p) = Ok xaxis ->
    forall i, (S i < length xaxis)%nat ->
              sub (nth (S i) xaxis NaN) (nth i xaxis NaN)
              = div (Fin (Rabs (xMax p - xMin p))) (Fin (IZR (nPoints p))).

(** The reading of the interior coordinates of [expectation_values] under
    which they advance in steps of the stored [Delta]. *)
Definition interior_step_is_Delta (p : Para) : Prop :=
  forall d x_i,
    Delta p = Some d ->
    linspace (add (Fin (xMin p)) d) (sub (Fin (xMax p)) d) (nPoints p - 2)
    = Ok x_i ->
    forall i, (S i < length x_i)%nat ->
              sub (nth (S i) x_i NaN) (nth i x_i NaN) = d.

(** An event that hands a [nan] to a sink. *)
Definition has_nan (l : list num) : bool := existsb is_nan l.

Definition event_has_nan (e : event) : bool :=
  match e with
  | write_potential x v _ => has_nan x || has_nan v
  | write_eigenvalues w _ => has_nan w
  | write_eigenvectors m x _ => existsb has_nan m || has_nan x
  | write_expectation_values e u _ => has_nan e || has_nan u
  end.

(** What scipy documents for [eigh_tridiagonal] with [select='i']: for
    every 0-based index range [lo <= hi] within the matrix it returns the
    eigenvalues of those indices, in ascending order, and the array whose
    columns are their eigenvectors. *)
Definition eigh_selects_by_index (scipy : SciPy) (dg off : list R)
           (sp : list (R * list R)) : Prop :=
  forall lo hi : Z,
    (0 <= lo <= hi)%Z -> (hi < Z.of_nat (length dg))%Z ->
    @eigh_tridiagonal scipy (map Fin dg) (map Fin off) false "i" (lo, hi)
    = Ok (band_values (band (Z.to_nat lo) (Z.to_nat hi) sp),
          band_vectors (length dg) (band (Z.to_nat lo) (Z.to_nat hi) sp)).

(** The reading of the result of [solve_hamiltonian] under which every
    returned eigenvalue comes with a returned column that is an eigenvector
    of the Hamiltonian for it. *)
Definition returns_eigenpairs {scipy : SciPy} (s : store) (dg off : list R)
  : Prop :=
  match solve_hamiltonian s with
  | (Ok (w, v), _) =>
      forall i, (i < length w)%nat ->
                exists lam psi,
                  nth i w NaN = Fin lam
                  /\ column i v = map Fin psi
                  /\ is_eigenvector dg off lam psi
  | (Raise _, _) => False
  end.

(** The policy of never letting a [nan] through, for one run from one
    store: the run raises, or no value handed to a sink is [nan]. *)
Definition nan_never_reaches_sinks {A} (run : M A) (s : store) : Prop :=
  match run s with
  | (Raise _, _) => True
  | (Ok _, s') => existsb event_has_nan (sinks s') = false
  end.

(* ================================================================= *)
(** ** A three-point run, used to evaluate the program *)

(** Grid [0, 3/2, 3], control points on the grid, mass 1/2: the canonical
    spacing is 1, the kinetic constant is 2 and the Hamiltonian has
    diagonal [1, 2, 1] and off-diagonal [-1, -1]. *)
Definition para_3pt : Para :=
  mkPara 0 3 3 (1 / 2) "linear" 3 [0; 3 / 2; 3] [-1; 0; -1] 1 3 "." None.

Definition store_3pt : store := mkStore para_3pt [].

(** The same run once [_write_hamiltonian] has stored ['Delta']. *)
Definition store_3pt_Delta : store :=
  mkStore (set_Delta (Fin 1) para_3pt) [].

(** The spectrum of that Hamiltonian, with eigenvectors of Euclidean
    norm 1 as the eigensolver returns them. *)
Definition spectrum_3pt : list (R * list R) :=
  [(0, [/ R_sqrt.sqrt 3; / R_sqrt.sqrt 3; / R_sqrt.sqrt 3]);
   (1, [/ R_sqrt.sqrt 2; 0; - / R_sqrt.sqrt 2]);
   (3, [/ R_sqrt.sqrt 6; -2 / R_sqrt.sqrt 6; / R_sqrt.sqrt 6])].

(** The eigensolver on that run: the band of [spectrum_3pt] asked for. *)
Definition scipy_3pt : SciPy := {|
  CubicSpline := fun _ _ _ => Raise ValueError;
  polyfit := fun _ _ _ => Raise ValueError;
  eigh_tridiagonal := fun _ _ _ _ '(lo, hi) =>
    let b := band (Z.to_nat lo) (Z.to_nat hi) spectrum_3pt in
    Ok (band_values b, band_vectors 3 b)
|}.

(** The three-point run with a method name that [interpolate_potential]
    does not know. *)
Definition para_unknown : Para :=
  mkPara 0 3 3 (1 / 2) "quadratic" 3 [0; 3 / 2; 3] [-1; 0; -1] 1 3 "." None.

Definition store_unknown : store := mkStore para_unknown [].

(** Two eigenvector columns whose interior sample is not zero. *)
Definition vectors_3pt : matrix :=
  [[Fin 1; Fin 1]; [Fin 1; Fin (-2)]; [Fin 1; Fin 1]].

(** An eigenvector column whose only interior sample is zero. *)
Definition node_3pt : matrix := [[Fin 1]; [Fin 0]; [Fin (-1)]].

(** A five-point run with ['Delta'] stored: grid bounds 0 and 5, so that
    the canonical spacing is 1. *)
Definition para_5pt : Para :=
  mkPara 0 5 5 1 "linear" 2 [0; 5] [0; 0] 1 1 "." (Some (Fin 1)).

Definition store_5pt : store := mkStore para_5pt [].

(** A normalized column concentrated on the middle sample. *)
Definition spike_5pt : matrix := [[Fin 0]; [Fin 0]; [Fin 1]; [Fin 0]; [Fin 0]].

(** A column that is not normalized: its quadrature is 4. *)
Definition unnormalized_3pt : matrix := [[Fin 0]; [Fin 2]; [Fin 0]].

(** What [interpolate_potential] returns and writes on the three-point
    run. *)
Definition potential_3pt : list num := [Fin (-1); Fin 0; Fin (-1)].

Definition sinks_potential_3pt : list event :=
  [write_potential (map Fin (grid 0 3 3)) potential_3pt "."].

(* ================================================================= *)
(** ** test_solver.py *)

(** [a - b] on 1-d arrays, with the broadcasting of [np_mul]. *)
Definition np_sub (a b : list num) : result (list num) :=
  if Nat.eqb (length a) (length b)
  then Ok (map (fun ab => sub (fst ab) (snd ab)) (combine a b))
  else match a, b with
       | [x], _ => Ok (map (sub x) b)
       | _, [y] => Ok (map (fun x => sub x y) a)
       | _, _ => Raise ValueError
       end.

(** [np.all(a < tol)] *)
Definition all_below (a : list num) (tol : num) : bool :=
  forallb (fun x => ltb x tol) a.

(** How pytest reports a test function: it returns, its [assert] fails, or
    the code under test raises. *)
Inductive outcome : Type :=
| Passed
| AssertionError
| Errored (e : exn).

Section TestSolver.

Context {scipy : SciPy}.

(** The two test functions take the reference column that [np.loadtxt]
    reads from the example directory as an argument; [para] is the
    dictionary that [iomodul.read_schrodinger_inp] has read, the one of the
    store. *)
Definition test_potential (ref_pot : list num) (s : store)
  : outcome * store :=
  match interpolate_potential s with
  | (Raise e, s') => (Errored e, s')
  | (Ok test_pot, s') =>
      match np_sub ref_pot test_pot with
      | Raise e => (Errored e, s')
      | Ok d => (if all_below d (Fin 1e-10) then Passed else AssertionError, s')
      end
  end.

(** [_check_result] only prints its two arguments. *)
Definition test_eigenvalues (ref_energies : list num) (s : store)
  : outcome * store :=
  match solve_hamiltonian s with
  | (Raise e, s') => (Errored e, s')
  | (Ok (test_energies, _), s') =>
      match np_sub ref_energies test_energies with
      | Raise e => (Errored e, s')
      | Ok d => (if all_below d (Fin 1e-2) then Passed else AssertionError, s')
      end
  end.

End TestSolver.

(** The value at [x] of the polynomial with coefficients [c], highest
    first. *)
Definition horner (c : list R) (x : R) : R :=
  fold_left (fun acc ck => acc * x + ck) c 0.

(** Every entry of an array multiplied by [c]. *)
Definition scale_matrix (c : R) (m : matrix) : matrix :=
  map (map (mul (Fin c))) m.

(** ** Further runs *)

(** The three-point run with another mass and another index range. *)
Definition para_3pt_with (m : R) (first last : Z) : Para :=
  mkPara 0 3 3 m "linear" 3 [0; 3 / 2; 3] [-1; 0; -1] first last "." None.

(** The same control points on a grid without points. *)
Definition para_0pt : Para :=
  mkPara 0 3 0 (1 / 2) "linear" 3 [0; 3 / 2; 3] [-1; 0; -1] 1 1 "." None.

(** The eigensolver of the three-point run, refusing an index range that
    is not within the three eigenvalues, as scipy does with a
    ValueError. *)
Definition scipy_strict_3pt : SciPy := {|
  CubicSpline := fun _ _ _ => Raise ValueError;
  polyfit := fun _ _ _ => Raise ValueError;
  eigh_tridiagonal := fun _ _ _ _ '(lo, hi) =>
    if ((0 <=? lo) && (lo <=? hi) && (hi <? 3))%Z
    then let b := band (Z.to_nat lo) (Z.to_nat hi) spectrum_3pt in
         Ok (band_values b, band_vectors 3 b)
    else Raise ValueError
|}.

(** An array of seven rows and one column. *)
Definition seven_rows : matrix := repeat [Fin 0] 7.

(** Three control points on the parabola [x^2], fitted by a polynomial of
    degree 2 and sampled on a grid that is wider than their support; the
    least-squares fit of that degree through them is [x^2] itself. *)
Definition para_parabola : Para :=
  mkPara (-1) 3 5 1 "polynomial" 3 [0; 1; 2] [0; 1; 4] 1 1 "." None.

Definition scipy_parabola : SciPy := {|
  CubicSpline := fun _ _ _ => Raise ValueError;
  polyfit := fun _ _ _ => Ok [Fin 1; Fin 0; Fin 0];
  eigh_tridiagonal := fun _ _ _ _ _ => Raise ValueError
|}.

(** The dictionary with both grid bounds moved by [t]. *)
Definition shift_bounds (t : R) (p : Para) : Para :=
  mkPara (xMin p + t) (xMax p + t) (nPoints p) (mass p)
         (interpolation_type p) (interpolation_points_number p)
         (interpolation_points_x p) (interpolation_points_y p)
         (first_eigenvalue p) (last_eigenvalue p) (directory p) (Delta p).

(** Decides the comparisons of concrete reals met while evaluating. *)
Ltac decide_real c :=
  let H := fresh in
  first [ destruct c as [H|H]; [clear H | exfalso; lra]
        | destruct c as [H|H]; [exfalso; lra | clear H] ].

Ltac decide_reals :=
  repeat (cbn;
          match goal with
          | |- context [Rle_dec ?a ?b] => decide_real (Rle_dec a b)
          | |- context [Req_dec_T ?a ?b] => decide_real (Req_dec_T a b)
          | |- context [Rlt_dec ?a ?b] => decide_real (Rlt_dec a b)
          end).

(* ================================================================= *)
(** * Properties *)

(** ** Arithmetic on finite values *)

Lemma div_Fin (a b : R) : b <> 0 -> div (Fin a) (Fin b) = Fin (a / b).
Proof.
  intros Hb. unfold div. destruct (Req_dec_T b 0); [contradiction | reflexivity].
Qed.

Lemma sqrt_Fin (a : R) : 0 <= a -> Np.sqrt (Fin a) = Fin (R_sqrt.sqrt a).
Proof.
  intros Ha. unfold Np.sqrt. destruct (Rlt_dec a 0); [lra | reflexivity].
Qed.

Lemma sq_abs_Fin (a : R) : sq (abs (Fin a)) = Fin (Rabs a * Rabs a).
Proof. reflexivity. Qed.

Lemma add_not_fin_l (x y : num) : ~ is_fin x -> ~ is_fin (add x y).
Proof. destruct x, y; simpl; tauto. Qed.

Lemma add_fin_inv (x y : num) (r : R) :
  add x y = Fin r -> exists a b, x = Fin a /\ y = Fin b /\ r = a + b.
Proof.
  destruct x, y; simpl; try discriminate.
  intros [= <-]. eauto.
Qed.

Lemma scale_inf_not_fin (r : R) (i : num) :
  ~ is_fin i -> ~ is_fin (scale_inf r i).
Proof.
  unfold scale_inf. intros Hi.
  destruct (Rlt_dec 0 r); [assumption|].
  destruct (Rlt_dec r 0); [destruct i; simpl in *; tauto | simpl; tauto].
Qed.

Lemma mul_fin_inv (x y : num) (r : R) :
  mul x y = Fin r -> exists a b, x = Fin a /\ y = Fin b /\ r = a * b.
Proof.
  intros H.
  destruct x as [a| | |], y as [b| | |]; simpl in H; try discriminate;
    try (exfalso;
         match type of H with
         | scale_inf ?c ?i = _ =>
             apply (scale_inf_not_fin c i); [simpl; tauto | rewrite H; exact I]
         end).
  injection H as <-. eauto.
Qed.

Lemma sq_abs_fin_inv (v : num) (r : R) :
  sq (abs v) = Fin r -> exists a, v = Fin a /\ r = Rabs a * Rabs a.
Proof.
  destruct v as [a| | |]; simpl; try discriminate.
  intros [= <-]. eauto.
Qed.

(** ** Sums *)

Lemma fold_add_Fin (xs : list R) (a : R) :
  fold_left add (map Fin xs) (Fin a) = Fin (a + Rsum xs).
Proof.
  revert a. induction xs as [|x xs IH]; intros a; simpl.
  - f_equal. lra.
  - rewrite IH. f_equal. lra.
Qed.

Lemma py_sum_Fin (xs : list R) : py_sum (map Fin xs) = Fin (Rsum xs).
Proof. unfold py_sum. rewrite fold_add_Fin. f_equal. lra. Qed.

Lemma np_sum_Fin (xs : list R) : np_sum (map Fin xs) = Fin (Rsum xs).
Proof. exact (py_sum_Fin xs). Qed.

Lemma fold_add_not_fin (l : list num) (acc : num) :
  ~ is_fin acc -> ~ is_fin (fold_left add l acc).
Proof.
  revert acc. induction l as [|x l IH]; intros acc H; simpl; [assumption|].
  apply IH. now apply add_not_fin_l.
Qed.

Lemma fold_add_fin_inv (l : list num) (acc : num) (r : R) :
  fold_left add l acc = Fin r ->
  exists a xs, acc = Fin a /\ l = map Fin xs /\ r = a + Rsum xs.
Proof.
  revert acc r. induction l as [|x l IH]; intros acc r H; simpl in H.
  - exists r, []. simpl. repeat split; [assumption | lra].
  - destruct (IH _ _ H) as (a & xs & Ha & Hl & Hr).
    destruct (add_fin_inv _ _ _ Ha) as (a0 & b & -> & -> & ->).
    exists a0, (b :: xs). simpl. subst l. repeat split. lra.
Qed.

Lemma py_sum_fin_inv (l : list num) (r : R) :
  py_sum l = Fin r -> exists xs, l = map Fin xs /\ r = Rsum xs.
Proof.
  intros H. destruct (fold_add_fin_inv _ _ _ H) as (a & xs & Ha & Hl & Hr).
  injection Ha as <-. exists xs. split; [assumption | lra].
Qed.

Lemma Rsum_map_scale (c : R) (xs : list R) :
  Rsum (map (Rmult c) xs) = c * Rsum xs.
Proof. induction xs as [|x xs IH]; simpl; [lra | rewrite IH; lra]. Qed.

Lemma Rsum_ext_map {A} (f g : A -> R) (l : list A) :
  (forall x, In x l -> f x = g x) -> Rsum (map f l) = Rsum (map g l).
Proof.
  intros H. f_equal. apply map_ext_in. exact H.
Qed.

Lemma Rsum_sq_nonneg (xs : list R) :
  0 <= Rsum (map (fun x => Rabs x * Rabs x) xs).
Proof.
  induction xs as [|x xs IH]; simpl; [lra|].
  pose proof (Rabs_pos x). nra.
Qed.

(** ** The monad *)

Lemma bind_Ok {A B} (m : M A) (k : A -> M B) s a s' :
  m s = (Ok a, s') -> bind m k s = k a s'.
Proof. intros H. unfold bind. now rewrite H. Qed.

Lemma bind_Raise {A B} (m : M A) (k : A -> M B) s e s' :
  m s = (Raise e, s') -> bind m k s = (Raise e, s').
Proof. intros H. unfold bind. now rewrite H. Qed.

Lemma bind_Ok_inv {A B} (m : M A) (k : A -> M B) s b s2 :
  bind m k s = (Ok b, s2) ->
  exists a s1, m s = (Ok a, s1) /\ k a s1 = (Ok b, s2).
Proof.
  unfold bind. destruct (m s) as [[a|e] s1]; intros H.
  - eauto.
  - discriminate.
Qed.

Lemma get_Delta_Some s d :
  Delta (para s) = Some d -> get_Delta s = (Ok d, s).
Proof.
  intros H. unfold get_Delta, bind, get_para. now rewrite H.
Qed.

(** ** Arrays *)

Lemma interior_map {A B} (f : A -> B) (l : list A) :
  interior (map f l) = map f (interior l).
Proof.
  unfold interior. destruct l as [|x l]; [reflexivity|]. simpl.
  induction l as [|y l IH]; [reflexivity|].
  simpl. destruct l; [reflexivity|].
  simpl in *. now rewrite IH.
Qed.

Lemma length_interior {A} (l : list A) :
  length (interior l) = (length l - 2)%nat.
Proof.
  unfold interior. destruct l as [|x l]; [reflexivity|]. simpl.
  induction l as [|y l IH]; [reflexivity|].
  simpl. destruct l; [reflexivity|]. simpl in *. rewrite IH. lia.
Qed.

Lemma length_list_set {A} (i : nat) (v : A) (l : list A) :
  length (list_set i v l) = length l.
Proof.
  revert i. induction l as [|x l IH]; intros [|i]; simpl; auto.
Qed.

Lemma nth_list_set_same {A} (i : nat) (v d : A) (l : list A) :
  (i < length l)%nat -> nth i (list_set i v l) d = v.
Proof.
  revert i. induction l as [|x l IH]; intros [|i] H; simpl in *; try lia; auto.
  apply IH. lia.
Qed.

Lemma nth_list_set_other {A} (i c : nat) (v d : A) (l : list A) :
  c <> i -> nth c (list_set i v l) d = nth c l d.
Proof.
  revert i c. induction l as [|x l IH]; intros [|i] [|c] H; simpl; auto; try lia.
Qed.

Lemma length_column (c : nat) (m : matrix) : length (column c m) = length m.
Proof. apply length_map. Qed.

Lemma rect_set_column r k ii vals m :
  rect r k m -> rect r k (set_column ii vals m).
Proof.
  intros [Hr Hk]. revert r vals Hr.
  induction Hk as [|row m Hrow Hm IH]; intros r vals Hr.
  - destruct vals; split; auto.
  - destruct vals as [|v vs];
      [split; [assumption | constructor; assumption]|].
    simpl. destruct r as [|r]; [discriminate|].
    destruct (IH r vs) as [Hr' Hk']; [simpl in Hr; lia|].
    split; [simpl; lia|].
    constructor; [now rewrite length_list_set | assumption].
Qed.

Lemma column_set_column_same ii vals m k :
  Forall (fun row => length row = k) m -> (ii < k)%nat ->
  length vals = length m ->
  column ii (set_column ii vals m) = vals.
Proof.
  intros Hk Hii. revert vals.
  induction Hk as [|row m Hrow Hm IH]; intros [|v vals] Hl; simpl in *;
    try discriminate; [reflexivity|].
  rewrite nth_list_set_same by lia. f_equal. apply IH. lia.
Qed.

Lemma column_set_column_other c ii vals m :
  c <> ii -> column c (set_column ii vals m) = column c m.
Proof.
  intros Hc. revert vals.
  induction m as [|row m IH]; intros [|v vals]; simpl; try reflexivity.
  rewrite nth_list_set_other by assumption. f_equal. apply IH.
Qed.

(** ** The normalizer loop *)

Lemma norm_loop r k d s :
  Delta (para s) = Some d ->
  forall n start acc,
    rect r k acc -> (start + n <= k)%nat ->
    exists acc',
      for_range_from start n
        (fun ii eigenvectors =>
           d <- get_Delta ;;
           let eigenvector_norm :=
             mul d (py_sum (map (fun v => sq (abs v))
                                (interior (column ii eigenvectors)))) in
           ret (set_column ii
                  (map (fun v => div v (Np.sqrt eigenvector_norm))
                       (column ii eigenvectors))
                  eigenvectors)) acc s = (Ok acc', s)
      /\ rect r k acc'
      /\ forall c,
          column c acc' =
          if (start <=? c)%nat && (c <? start + n)%nat
          then normalize_column d (column c acc)
          else column c acc.
Proof.
  intros HD. induction n as [|n IH]; intros start acc Hrect Hle.
  - exists acc. simpl. split; [reflexivity|]. split; [assumption|].
    intros c. destruct (start <=? c)%nat eqn:E1; simpl; [|reflexivity].
    destruct (c <? start + 0)%nat eqn:E2; [|reflexivity].
    apply Nat.leb_le in E1. apply Nat.ltb_lt in E2. lia.
  - simpl for_range_from.
    set (acc1 := set_column start
                   (normalize_column d (column start acc)) acc).
    assert (Hrect1 : rect r k acc1) by now apply rect_set_column.
    destruct (IH (S start) acc1 Hrect1) as (acc' & Hrun & Hrect' & Hcol);
      [lia|].
    exists acc'. split; [|split; [assumption|]].
    + erewrite bind_Ok.
      2:{ erewrite bind_Ok by (apply get_Delta_Some; eassumption).
          reflexivity. }
      exact Hrun.
    + intros c. rewrite Hcol. destruct Hrect as [Hr Hk].
      destruct (Nat.eq_dec c start) as [->|Hne].
      * replace (S start <=? start)%nat with false
          by (symmetry; apply Nat.leb_gt; lia).
        replace (start <=? start)%nat with true
          by (symmetry; apply Nat.leb_le; lia).
        replace (start <? start + S n)%nat with true
          by (symmetry; apply Nat.ltb_lt; lia).
        simpl. unfold acc1.
        apply column_set_column_same with (k := k); try assumption; try lia.
        unfold normalize_column. now rewrite length_map, length_column.
      * unfold acc1. rewrite column_set_column_other by assumption.
        destruct (S start <=? c)%nat eqn:E1, (start <=? c)%nat eqn:E2,
                 (c <? S start + n)%nat eqn:E3, (c <? start + S n)%nat eqn:E4;
          simpl; try reflexivity; exfalso;
          repeat match goal with
                 | H : (_ <=? _)%nat = true |- _ => apply Nat.leb_le in H
                 | H : (_ <=? _)%nat = false |- _ => apply Nat.leb_gt in H
                 | H : (_ <? _)%nat = true |- _ => apply Nat.ltb_lt in H
                 | H : (_ <? _)%nat = false |- _ => apply Nat.ltb_ge in H
                 end; lia.
Qed.

Section Normalizer.
Context {scipy : SciPy}.

Lemma norm_eigenvectors_columns r k d s m :
  Delta (para s) = Some d -> rect (S r) k m ->
  exists m',
    _norm_eigenvectors m s = (Ok m', s)
    /\ rect (S r) k m'
    /\ forall c, (c < k)%nat ->
                 column c m' = normalize_column d (column c m).
Proof.
  intros HD Hrect.
  destruct (norm_loop (S r) k d s HD k 0%nat m Hrect) as (m' & Hrun & Hr' & Hc);
    [lia|].
  exists m'. split; [|split; [assumption|]].
  - unfold _norm_eigenvectors.
    destruct Hrect as [Hlen Hk]. destruct m as [|row m]; [discriminate|].
    inversion Hk; subst.
    erewrite bind_Ok by reflexivity. exact Hrun.
  - intros c Hlt. rewrite Hc.
    replace (0 <=? c)%nat with true by reflexivity.
    replace (c <? 0 + k)%nat with true by (symmetry; apply Nat.ltb_lt; lia).
    reflexivity.
Qed.

Lemma norm_eigenvectors_empty s :
  _norm_eigenvectors [] s = (Raise IndexError, s).
Proof. reflexivity. Qed.

End Normalizer.

(** ** Columns with a finite quadrature *)

Lemma Rabs_square (a : R) : Rabs a * Rabs a = a * a.
Proof.
  unfold Rabs. destruct (Rcase_abs a); lra.
Qed.

Lemma map_sq_abs_fin_inv (l : list num) (ss : list R) :
  map (fun v => sq (abs v)) l = map Fin ss ->
  exists xs, l = map Fin xs /\ ss = map (fun x => Rabs x * Rabs x) xs.
Proof.
  revert ss. induction l as [|v l IH]; intros [|t ss] H; simpl in H;
    try discriminate.
  - exists []. split; reflexivity.
  - injection H as Hv Hl.
    destruct (sq_abs_fin_inv _ _ Hv) as (a & -> & ->).
    destruct (IH _ Hl) as (xs & -> & ->).
    exists (a :: xs). split; reflexivity.
Qed.

Lemma quadrature_fin_inv (d : num) (col : list num) (N : R) :
  quadrature d col = Fin N ->
  exists dl xs,
    d = Fin dl /\ interior col = map Fin xs
    /\ N = dl * Rsum (map (fun x => Rabs x * Rabs x) xs).
Proof.
  unfold quadrature. intros H.
  destruct (mul_fin_inv _ _ _ H) as (dl & S & -> & HS & ->).
  destruct (py_sum_fin_inv _ _ HS) as (ss & Hss & ->).
  destruct (map_sq_abs_fin_inv _ _ Hss) as (xs & Hxs & ->).
  exists dl, xs. repeat split. assumption.
Qed.

Lemma quadrature_Fin (dl : R) (col : list num) (xs : list R) :
  interior col = map Fin xs ->
  quadrature (Fin dl) col
  = Fin (dl * Rsum (map (fun x => Rabs x * Rabs x) xs)).
Proof.
  intros H. unfold quadrature. rewrite H, map_map.
  change (map (fun x => sq (abs (Fin x))) xs)
    with (map (fun x => Fin (Rabs x * Rabs x)) xs).
  rewrite <- (map_map (fun x => Rabs x * Rabs x) Fin), py_sum_Fin.
  reflexivity.
Qed.

(** With a positive quadrature the loop divides the column by the positive
    real [sqrt N]. *)
Lemma normalize_column_pos (d : num) (col : list num) (N : R) :
  quadrature d col = Fin N -> 0 < N ->
  normalize_column d col = map (fun v => div v (Fin (R_sqrt.sqrt N))) col.
Proof.
  intros H HN. unfold normalize_column. rewrite H, sqrt_Fin by lra.
  reflexivity.
Qed.

Lemma Rsum_scaled_squares (s : R) (xs : list R) :
  s <> 0 ->
  Rsum (map (fun x => Rabs x * Rabs x) (map (fun x => x / s) xs))
  = Rsum (map (fun x => Rabs x * Rabs x) xs) / (s * s).
Proof.
  intros Hs. induction xs as [|x xs IH]; simpl.
  - unfold Rdiv. lra.
  - rewrite IH, !Rabs_square. field. assumption.
Qed.

Lemma quadrature_normalized (d : num) (col : list num) (N : R) :
  quadrature d col = Fin N -> 0 < N ->
  quadrature d (normalize_column d col) = Fin 1.
Proof.
  intros H HN.
  rewrite (normalize_column_pos _ _ _ H HN).
  destruct (quadrature_fin_inv _ _ _ H) as (dl & xs & -> & Hint & HNeq).
  pose proof (sqrt_lt_R0 N HN) as Hs.
  rewrite (quadrature_Fin dl _ (map (fun x => x / R_sqrt.sqrt N) xs)).
  - f_equal. rewrite Rsum_scaled_squares by lra.
    rewrite sqrt_sqrt by lra.
    set (S := Rsum (map (fun x => Rabs x * Rabs x) xs)) in *.
    assert (Hdl : dl <> 0) by (intros E; rewrite E in HNeq; lra).
    assert (HS : S <> 0) by (intros E; rewrite E in HNeq; lra).
    rewrite HNeq. field. split; assumption.
  - rewrite interior_map, Hint, !map_map.
    apply map_ext. intros x. apply div_Fin. lra.
Qed.

Lemma div_by_one (v : num) : div v (Fin 1) = v.
Proof.
  destruct v as [a| | |]; simpl; try reflexivity.
  - destruct (Req_dec_T 1 0); [lra|]. f_equal. field.
  - destruct (Rlt_dec 1 0); [lra | reflexivity].
  - destruct (Rlt_dec 1 0); [lra | reflexivity].
Qed.

Lemma normalize_column_fixed (d : num) (col : list num) :
  quadrature d col = Fin 1 -> normalize_column d col = col.
Proof.
  intros H. unfold normalize_column. rewrite H, sqrt_Fin, sqrt_1 by lra.
  rewrite <- (map_id col) at 2. apply map_ext. exact div_by_one.
Qed.

Lemma matrix_ext (r k : nat) (m1 m2 : matrix) :
  rect r k m1 -> rect r k m2 ->
  (forall c, (c < k)%nat -> column c m1 = column c m2) ->
  m1 = m2.
Proof.
  intros [H1 F1] [H2 F2]. revert r m2 H1 H2 F2.
  induction m1 as [|row1 m1 IH]; intros r m2 H1 H2 F2 Hc.
  - destruct m2; [reflexivity | simpl in *; lia].
  - destruct m2 as [|row2 m2]; [simpl in *; lia|].
    inversion F1 as [|? ? Hrow1 F1']; subst.
    inversion F2 as [|? ? Hrow2 F2']; subst.
    f_equal.
    + apply (nth_ext _ _ NaN NaN); [lia|].
      intros c Hlt.
      specialize (Hc c Hlt). simpl in Hc. now injection Hc.
    + apply (IH F1' (length m1) m2);
        [reflexivity | simpl in H2; lia | assumption |].
      intros c Hlt. specialize (Hc c Hlt). simpl in Hc. now injection Hc.
Qed.

(** ** Eigenvectors and scaling *)

Lemma nth_map_scale (c : R) (l : list R) (i : nat) :
  nth i (map (Rmult c) l) 0 = c * nth i l 0.
Proof.
  rewrite <- (Rmult_0_r c) at 1. apply map_nth.
Qed.

Lemma tridiag_apply_scale (dg off psi : list R) (c : R) :
  tridiag_apply dg off (map (Rmult c) psi)
  = map (Rmult c) (tridiag_apply dg off psi).
Proof.
  unfold tridiag_apply. rewrite map_map. apply map_ext. intros i.
  rewrite !nth_map_scale. destruct i; [|rewrite nth_map_scale]; ring.
Qed.

Lemma is_eigenvector_scale (dg off : list R) (lam c : R) (psi : list R) :
  c <> 0 -> is_eigenvector dg off lam psi ->
  is_eigenvector dg off lam (map (Rmult c) psi).
Proof.
  intros Hc (Hlen & Heq & Hnz). repeat split.
  - now rewrite length_map.
  - rewrite tridiag_apply_scale, Heq, !map_map.
    apply map_ext. intros x. ring.
  - clear Hlen Heq. induction Hnz as [x l Hx | x l _ IH]; simpl.
    + apply Exists_cons_hd. now apply Rmult_integral_contrapositive_currified.
    + now apply Exists_cons_tl.
Qed.

(** ** The grid *)

Lemma set_last_snoc {A} (v x : A) (l : list A) :
  set_last v (l ++ [x]) = l ++ [v].
Proof.
  unfold set_last. destruct (l ++ [x]) eqn:E.
  - now destruct l.
  - rewrite <- E, removelast_last. reflexivity.
Qed.

Lemma map_snoc {A B} (f : A -> B) (l : list A) (x : A) :
  map f (l ++ [x]) = map f l ++ [f x].
Proof. now rewrite map_app. Qed.

Lemma INR_to_nat (z : Z) : (0 <= z)%Z -> INR (Z.to_nat z) = IZR z.
Proof.
  intros H. rewrite INR_IZR_INZ, Z2Nat.id by assumption. reflexivity.
Qed.

Lemma linspace_Fin (a b : R) (n : Z) :
  (0 <= n)%Z -> linspace (Fin a) (Fin b) n = Ok (map Fin (grid a b n)).
Proof.
  intros Hn. unfold linspace, grid.
  destruct (n <? 0)%Z eqn:E0; [apply Z.ltb_lt in E0; lia|]. f_equal.
  destruct (0 <? n - 1)%Z eqn:E1.
  - apply Z.ltb_lt in E1.
    replace (1 <? n)%Z with true by (symmetry; apply Z.ltb_lt; lia).
    assert (Hnz : IZR (n - 1) <> 0) by (apply not_0_IZR; lia).
    replace (Z.to_nat n) with (S (Z.to_nat (n - 1))) by lia.
    rewrite seq_S, !map_snoc, set_last_snoc. simpl Nat.add. f_equal.
    + rewrite !map_map. apply map_ext. intros i.
      change (sub (Fin b) (Fin a)) with (Fin (b + - a)).
      rewrite div_Fin by assumption. cbn [mul add]. f_equal.
      rewrite minus_IZR. unfold Rminus, Rdiv. ring.
    + simpl. do 2 f_equal. rewrite INR_to_nat by lia.
      rewrite minus_IZR in *. field. assumption.
  - apply Z.ltb_ge in E1.
    replace (1 <? n)%Z with false by (symmetry; apply Z.ltb_ge; lia).
    rewrite !map_map. apply map_ext_in. intros i Hi.
    apply in_seq in Hi. assert (i = 0%nat) by lia. subst i.
    simpl. f_equal. ring.
Qed.

Lemma length_grid (a b : R) (n : Z) : length (grid a b n) = Z.to_nat n.
Proof. unfold grid. now rewrite length_map, length_seq. Qed.

Lemma nth_grid (a b : R) (n : Z) (i : nat) :
  (i < Z.to_nat n)%nat ->
  nth i (grid a b n) 0 = a + INR i * ((b - a) / (IZR n - 1)).
Proof.
  intros Hi. unfold grid.
  set (f := fun i : nat => a + INR i * ((b - a) / (IZR n - 1))).
  rewrite (nth_indep _ 0 (f 0%nat)) by (now rewrite length_map, length_seq).
  rewrite map_nth, seq_nth by assumption. reflexivity.
Qed.

Lemma linspace_negative (x y : num) (n : Z) :
  (n < 0)%Z -> linspace x y n = Raise ValueError.
Proof.
  intros H. unfold linspace.
  now replace (n <? 0)%Z with true by (symmetry; apply Z.ltb_lt; lia).
Qed.

Section Pipeline.
Context {scipy : SciPy}.

(** ** The interpolation stage *)

Lemma length_call_interpolant f x V :
  call_interpolant f x = Ok V -> length V = length x.
Proof.
  destruct f as [knots|sp|c]; simpl.
  - unfold interp1d_call.
    destruct (existsb _ x); [discriminate|].
    destruct (existsb _ x); [discriminate|].
    intros [= <-]. apply length_map.
  - intros [= <-]. apply length_map.
  - intros [= <-]. apply length_map.
Qed.

(** A successful interpolation read a non-negative [nPoints], returns one
    sample for each grid point and leaves [para] alone; its only effect is
    the call of [write_potential]. *)
Lemma interpolate_potential_Ok s V s1 :
  interpolate_potential s = (Ok V, s1) ->
  (0 <= nPoints (para s))%Z
  /\ length V = Z.to_nat (nPoints (para s))
  /\ s1 = mkStore (para s)
            (sinks s ++
             [write_potential
                (map Fin (grid (xMin (para s)) (xMax (para s))
                               (nPoints (para s))))
                V (directory (para s))]).
Proof.
  unfold interpolate_potential. intros H.
  apply bind_Ok_inv in H. destruct H as (p & s0 & Hp & H).
  injection Hp as <- <-.
  apply bind_Ok_inv in H. destruct H as (xaxis & s0 & Hx & H).
  unfold lift in Hx. injection Hx as Hx <-.
  assert (Hn : (0 <= nPoints (para s))%Z).
  { destruct (Z_lt_le_dec (nPoints (para s)) 0) as [Hneg|]; [|assumption].
    rewrite linspace_negative in Hx by assumption. discriminate. }
  rewrite linspace_Fin in Hx by assumption. injection Hx as <-.
  apply bind_Ok_inv in H. destruct H as (fn & s0 & Hf & H).
  unfold lift in Hf. injection Hf as _ <-.
  apply bind_Ok_inv in H. destruct H as (pot & s2 & Hcall & H).
  destruct fn as [f|]; [|discriminate].
  unfold lift in Hcall. injection Hcall as Hcall <-.
  apply length_call_interpolant in Hcall.
  rewrite length_map, length_grid in Hcall.
  unfold bind, emit, ret in H. simpl in H. injection H as <- <-.
  repeat split; assumption || reflexivity.
Qed.

(** ** The Hamiltonian builder *)

Lemma spacing_positive_nPoints p :
  0 < spacing p -> (1 <= nPoints p)%Z.
Proof.
  unfold spacing. intros H.
  destruct (Z_lt_le_dec 0 (nPoints p)) as [|Hle]; [lia|]. exfalso.
  pose proof (Rabs_pos (xMax p - xMin p)) as Habs.
  apply IZR_le in Hle. unfold Rdiv in H.
  destruct (Req_dec_T (IZR (nPoints p)) 0) as [E|E].
  - rewrite E, Rinv_0 in H. lra.
  - assert (/ IZR (nPoints p) < 0) by (apply Rinv_lt_0_compat; lra). nra.
Qed.

Lemma write_hamiltonian_run s V s1 :
  interpolate_potential s = (Ok V, s1) ->
  (1 <= nPoints (para s))%Z ->
  let p := para s in
  let delta := div (Fin (Rabs (xMax p - xMin p))) (Fin (IZR (nPoints p))) in
  let aa := div (Fin 1) (mul (Fin (mass p)) (sq delta)) in
  _write_hamiltonian s
  = (Ok (map (add aa) V,
         map (mul (div (neg aa) (Fin 2)))
             (repeat (Fin 1) (Z.to_nat (nPoints p - 1)))),
     mkStore (set_Delta delta p) (sinks s1)).
Proof.
  intros HV Hn p delta aa.
  destruct (interpolate_potential_Ok s V s1 HV) as (_ & _ & Hs1).
  unfold _write_hamiltonian.
  rewrite (bind_Ok _ _ s V s1 HV).
  rewrite Hs1. unfold bind, get_para, put_para, lift, ret, ones. simpl.
  fold p.
  replace (nPoints p - 1 <? 0)%Z with false
    by (symmetry; apply Z.ltb_ge; unfold p; lia).
  reflexivity.
Qed.

End Pipeline.

(** C2.  With a positive mass and a positive spacing the builder returns
    [diagonal[i] = a + V[i]] for each of the [nPoints] samples, with
    [a = 1/(m * Delta^2)], and an off-diagonal of [nPoints - 1] entries that
    all equal [-a/2]. *)
Theorem write_hamiltonian_entries :
  forall (scipy : SciPy) (s : store) (V : list num) (s1 : store),
    interpolate_potential s = (Ok V, s1) ->
    0 < mass (para s) ->
    0 < spacing (para s) ->
    let p := para s in
    let a := 1 / (mass p * (spacing p * spacing p)) in
    exists diag offdiag s2,
      _write_hamiltonian s = (Ok (diag, offdiag), s2)
      /\ length V = Z.to_nat (nPoints p)
      /\ length diag = Z.to_nat (nPoints p)
      /\ (forall i v, nth i V NaN = Fin v -> nth i diag NaN = Fin (a + v))
      /\ offdiag = repeat (Fin (- a / 2)) (Z.to_nat (nPoints p - 1)).
Proof.
  intros scipy s V s1 HV Hm Hd p a.
  pose proof (spacing_positive_nPoints _ Hd) as Hn.
  destruct (interpolate_potential_Ok s V s1 HV) as (_ & Hlen & _).
  assert (Hnz : IZR (nPoints p) <> 0) by (apply not_0_IZR; unfold p; lia).
  assert (Haa : div (Fin 1)
                    (mul (Fin (mass p))
                         (sq (div (Fin (Rabs (xMax p - xMin p)))
                                  (Fin (IZR (nPoints p))))))
                = Fin a).
  { rewrite div_Fin by assumption. cbn [sq mul].
    fold (spacing p). rewrite div_Fin; [reflexivity|].
    apply Rgt_not_eq.
    apply Rmult_lt_0_compat; [|apply Rmult_lt_0_compat]; assumption. }
  eexists _, _, _. split; [|split; [exact Hlen|split; [|split]]].
  - rewrite (write_hamiltonian_run s V s1 HV Hn). fold p. rewrite Haa.
    reflexivity.
  - now rewrite length_map.
  - intros i v Hv.
    change NaN with (add (Fin a) NaN) at 1. rewrite map_nth, Hv. reflexivity.
  - rewrite map_repeat. f_equal. cbn [neg].
    rewrite div_Fin by lra. cbn [mul]. f_equal. field.
Qed.

Lemma grid_3pt : grid 0 3 3 = [0; 3 / 2; 3].
Proof.
  unfold grid. simpl. repeat (f_equal; try lra).
Qed.

Lemma interpolate_potential_3pt :
  @interpolate_potential scipy_3pt store_3pt
  = (Ok potential_3pt, mkStore para_3pt sinks_potential_3pt).
Proof.
  unfold interpolate_potential, bind, get_para, lift, emit, ret.
  cbn [para sinks store_3pt para_3pt xMin xMax nPoints interpolation_type
       interpolation_points_x interpolation_points_y directory].
  rewrite linspace_Fin by lia.
  unfold sinks_potential_3pt. rewrite grid_3pt.
  decide_reals. unfold interp1d_call, below_bounds, above_bounds, ltb.
  decide_reals. reflexivity.
Qed.

(** ** The observables loop *)

Lemma np_mul_Fin (a b : list R) :
  length a = length b ->
  np_mul (map Fin a) (map Fin b)
  = Ok (map Fin (map (fun ab => fst ab * snd ab) (combine a b))).
Proof.
  intros H. unfold np_mul. rewrite !length_map, H, Nat.eqb_refl. f_equal.
  revert b H. induction a as [|x a IH]; intros [|y b] H; simpl in *;
    try discriminate; [reflexivity|].
  f_equal. apply IH. lia.
Qed.

Lemma observables_of_column_Fin (dl : R) (X psi : list R) (m : matrix) c :
  column c m = map Fin psi ->
  length (interior psi) = length X ->
  observables_of_column (Fin dl) (map Fin X) m c
  = Ok (Fin (expectationR dl psi X), Fin (expectation2R dl psi X),
        Np.sqrt (Fin (expectation2R dl psi X
                      + - (expectationR dl psi X * expectationR dl psi X)))).
Proof.
  intros Hcol Hlen. unfold observables_of_column.
  rewrite Hcol, interior_map, map_map.
  change (map (fun x => sq (Fin x)) (interior psi))
    with (map (fun x => Fin (x * x)) (interior psi)).
  rewrite <- (map_map (fun x => x * x) Fin).
  rewrite np_mul_Fin by (now rewrite length_map).
  cbn [rbind]. rewrite np_sum_Fin.
  rewrite (map_map Fin sq).
  change (map (fun x => sq (Fin x)) X) with (map (fun x => Fin (x * x)) X).
  rewrite <- (map_map (fun x => x * x) Fin X).
  rewrite np_mul_Fin by (now rewrite !length_map).
  cbn [rbind]. rewrite np_sum_Fin. reflexivity.
Qed.

Lemma expectation_loop (d : num) (x_i : list num) (m : matrix)
      (obs : nat -> num * num * num) (n : nat) (s : store) :
  forall cnt start e e2 u,
    length e = n -> length e2 = n -> length u = n ->
    (start + cnt <= n)%nat ->
    (forall ii, (start <= ii < start + cnt)%nat ->
                observables_of_column d x_i m ii = Ok (obs ii)) ->
    exists e' e2' u',
      for_range_from start cnt
        (fun ii '(expval, expval_squared, uncertainty) =>
           '(e, e2, u) <- lift (observables_of_column d x_i m ii) ;;
           ret (list_set ii e expval, list_set ii e2 expval_squared,
                list_set ii u uncertainty))
        (e, e2, u) s = (Ok (e', e2', u'), s)
      /\ length e' = n /\ length u' = n
      /\ forall c,
          nth c e' NaN = (if (start <=? c)%nat && (c <? start + cnt)%nat
                          then fst (fst (obs c)) else nth c e NaN)
          /\ nth c u' NaN = (if (start <=? c)%nat && (c <? start + cnt)%nat
                             then snd (obs c) else nth c u NaN).
Proof.
  induction cnt as [|cnt IH]; intros start e e2 u He He2 Hu Hle Hobs.
  - exists e, e2, u. simpl. repeat split; try assumption;
      destruct (start <=? c)%nat eqn:E1; simpl; try reflexivity;
      destruct (c <? start + 0)%nat eqn:E2; try reflexivity;
      apply Nat.leb_le in E1; apply Nat.ltb_lt in E2; lia.
  - simpl for_range_from.
    assert (Hstart : observables_of_column d x_i m start = Ok (obs start))
      by (apply Hobs; lia).
    destruct (obs start) as [[a b] c0] eqn:Eobs.
    destruct (IH (S start) (list_set start a e) (list_set start b e2)
                 (list_set start c0 u)) as (e' & e2' & u' & Hrun & Le & Lu & Hn);
      try (rewrite length_list_set; assumption); [lia | |].
    { intros ii Hii. apply Hobs. lia. }
    exists e', e2', u'. split; [|split; [assumption|split; [assumption|]]].
    + unfold bind at 1. unfold bind at 1. unfold lift at 1.
      rewrite Hstart. cbn [ret]. exact Hrun.
    + intros c. destruct (Hn c) as [H1 H2]. rewrite H1, H2.
      destruct (Nat.eq_dec c start) as [->|Hne].
      * replace (S start <=? start)%nat with false
          by (symmetry; apply Nat.leb_gt; lia).
        replace (start <=? start)%nat with true
          by (symmetry; apply Nat.leb_le; lia).
        replace (start <? start + S cnt)%nat with true
          by (symmetry; apply Nat.ltb_lt; lia).
        cbn [andb]. rewrite !nth_list_set_same by lia. rewrite Eobs.
        split; reflexivity.
      * rewrite !nth_list_set_other by assumption.
        destruct (S start <=? c)%nat eqn:E1, (start <=? c)%nat eqn:E2,
                 (c <? S start + cnt)%nat eqn:E3, (c <? start + S cnt)%nat eqn:E4;
          cbn [andb]; try (split; reflexivity); exfalso;
          repeat match goal with
                 | H : (_ <=? _)%nat = true |- _ => apply Nat.leb_le in H
                 | H : (_ <=? _)%nat = false |- _ => apply Nat.leb_gt in H
                 | H : (_ <? _)%nat = true |- _ => apply Nat.ltb_lt in H
                 | H : (_ <? _)%nat = false |- _ => apply Nat.ltb_ge in H
                 end; lia.
Qed.

(** The stage on an array with at least one row: when every pass succeeds,
    the sink receives the expectation values and the uncertainties of the
    columns, in order, and nothing else happens. *)
Lemma expectation_values_run (s : store) (d : num) (r k : nat) (m : matrix)
      (x_i : list num) (obs : nat -> num * num * num) :
  Delta (para s) = Some d ->
  rect (S r) k m ->
  linspace (add (Fin (xMin (para s))) d) (sub (Fin (xMax (para s))) d)
           (nPoints (para s) - 2) = Ok x_i ->
  (forall ii, (ii < k)%nat -> observables_of_column d x_i m ii = Ok (obs ii)) ->
  exists expval uncertainty,
    expectation_values m s
    = (Ok tt,
       mkStore (para s)
               (sinks s ++ [write_expectation_values expval uncertainty
                              (directory (para s))]))
    /\ length expval = k /\ length uncertainty = k
    /\ forall c, (c < k)%nat ->
                 nth c expval NaN = fst (fst (obs c))
                 /\ nth c uncertainty NaN = snd (obs c).
Proof.
  intros HD [Hrows Hk] Hx Hobs.
  destruct m as [|row m]; [discriminate|].
  assert (Hrow : length row = k) by (now inversion Hk).
  destruct (expectation_loop d x_i (row :: m) obs k s k 0%nat
              (zeros k) (zeros k) (zeros k)) as (e & e2 & u & Hrun & Le & Lu & Hn);
    try apply repeat_length; [lia | intros ii Hii; apply Hobs; lia |].
  exists e, u. split; [|split; [assumption|split; [assumption|]]].
  - unfold expectation_values. cbn [size_row0].
    unfold bind at 1. unfold lift at 1. rewrite Hrow.
    rewrite (bind_Ok _ _ s d s (get_Delta_Some s d HD)).
    unfold bind at 1. unfold get_para at 1.
    unfold bind at 1. unfold lift at 1. rewrite Hx.
    unfold for_range. unfold bind at 1. rewrite Hrun. reflexivity.
  - intros c Hc. destruct (Hn c) as [H1 H2]. rewrite H1, H2.
    replace (0 <=? c)%nat with true by reflexivity.
    replace (c <? 0 + k)%nat with true by (symmetry; apply Nat.ltb_lt; lia).
    split; reflexivity.
Qed.

(** ** The radicand of a normalized column *)

Lemma variance_identity (l : list (R * R)) (t : R) :
  Rsum (map (fun a => fst a * ((snd a - t) * (snd a - t))) l)
  = Rsum (map (fun a => fst a * (snd a * snd a)) l)
    - 2 * t * Rsum (map (fun a => fst a * snd a) l)
    + t * t * Rsum (map fst l).
Proof.
  induction l as [|[w x] l IH]; simpl; [lra|]. rewrite IH. ring.
Qed.

Lemma weighted_squares_nonneg (l : list (R * R)) (t : R) :
  Forall (fun a => 0 <= fst a) l ->
  0 <= Rsum (map (fun a => fst a * ((snd a - t) * (snd a - t))) l).
Proof.
  induction 1 as [|[w x] l Hw _ IH]; simpl in *; [lra|].
  pose proof (Rle_0_sqr (x - t)) as Hsq. unfold Rsqr in Hsq. nra.
Qed.

Lemma combine_map_r {A B C} (f : B -> C) (l : list A) (l' : list B) :
  combine l (map f l') = map (fun a => (fst a, f (snd a))) (combine l l').
Proof.
  revert l'. induction l as [|x l IH]; intros [|y l']; simpl; try reflexivity.
  now rewrite IH.
Qed.

Lemma map_fst_combine {A B} (l : list A) (l' : list B) :
  length l = length l' -> map fst (combine l l') = l.
Proof.
  revert l'. induction l as [|x l IH]; intros [|y l'] H; simpl in *;
    try discriminate; [reflexivity|].
  f_equal. apply IH. lia.
Qed.

Lemma radicand_nonneg (dl : R) (psi X : list R) :
  length (interior psi) = length X ->
  quadratureR dl psi = 1 ->
  0 <= expectation2R dl psi X - expectationR dl psi X * expectationR dl psi X.
Proof.
  intros Hlen Hq. unfold expectation2R, expectationR, quadratureR in *.
  set (ws := map (fun x => x * x) (interior psi)).
  assert (Hws : Rsum (map (fun x => Rabs x * Rabs x) (interior psi)) = Rsum ws).
  { unfold ws. apply Rsum_ext_map. intros x _. apply Rabs_square. }
  rewrite Hws in Hq.
  assert (Hnn : Forall (fun x => 0 <= x) ws).
  { unfold ws. apply Forall_forall. intros y Hy.
    apply in_map_iff in Hy. destruct Hy as (x & <- & _). nra. }
  assert (Hsum : 0 <= Rsum ws).
  { clear - Hnn. induction Hnn; simpl; lra. }
  assert (Hdl : 0 < dl) by nra.
  rewrite combine_map_r, map_map. cbn [fst snd].
  set (l := combine ws X).
  set (B := Rsum (map (fun a => fst a * snd a) l)).
  assert (HA : Rsum (map fst l) = Rsum ws).
  { unfold l. rewrite map_fst_combine; [reflexivity|].
    unfold ws. now rewrite length_map. }
  assert (Hl : Forall (fun a => 0 <= fst a) l).
  { unfold l. apply Forall_forall. intros [w x] Hin. simpl.
    apply in_combine_l in Hin.
    rewrite Forall_forall in Hnn. now apply Hnn. }
  pose proof (weighted_squares_nonneg l (dl * B) Hl) as Hvar.
  rewrite variance_identity in Hvar. fold B in Hvar. rewrite HA in Hvar.
  set (C := Rsum (map (fun a => fst a * (snd a * snd a)) l)) in *.
  assert (dl * (C - 2 * (dl * B) * B + dl * B * (dl * B) * Rsum ws) >= 0)
    by nra.
  replace (dl * (C - 2 * (dl * B) * B + dl * B * (dl * B) * Rsum ws))
    with (dl * C - 2 * (dl * B) * (dl * B) + (dl * B) * (dl * B) * (dl * Rsum ws))
    in H by ring.
  rewrite Hq in H. lra.
Qed.

(** The observables of finite columns of [nPoints] rows, for a finite
    ['Delta']. *)
Lemma expectation_values_finite (s : store) (dl : R) (k : nat) (m : matrix)
      (psi : nat -> list R) :
  let p := para s in
  let X := grid (xMin p + dl) (xMax p - dl) (nPoints p - 2) in
  Delta p = Some (Fin dl) ->
  (3 <= nPoints p)%Z ->
  rect (Z.to_nat (nPoints p)) k m ->
  (forall c, (c < k)%nat -> column c m = map Fin (psi c)) ->
  exists expval uncertainty,
    expectation_values m s
    = (Ok tt,
       mkStore p (sinks s ++ [write_expectation_values expval uncertainty
                                (directory p)]))
    /\ length expval = k /\ length uncertainty = k
    /\ forall c,
        (c < k)%nat ->
        nth c expval NaN = Fin (expectationR dl (psi c) X)
        /\ nth c uncertainty NaN
           = Np.sqrt (Fin (expectation2R dl (psi c) X
                           - expectationR dl (psi c) X
                             * expectationR dl (psi c) X))
        /\ length (interior (psi c)) = length X.
Proof.
  intros p X HD Hn Hrect Hcol.
  assert (Hrows : exists r, Z.to_nat (nPoints p) = S r)
    by (exists (Z.to_nat (nPoints p) - 1)%nat; lia).
  destruct Hrows as [r Hr]. rewrite Hr in Hrect.
  assert (Hlen : forall c, (c < k)%nat ->
                           length (interior (psi c)) = length X).
  { intros c Hc. unfold X. rewrite length_interior, length_grid.
    pose proof (f_equal (@length num) (Hcol c Hc)) as HL.
    rewrite length_column, length_map in HL. destruct Hrect as [Hrows _].
    rewrite <- HL, Hrows, <- Hr. lia. }
  set (obs := fun c =>
         (Fin (expectationR dl (psi c) X), Fin (expectation2R dl (psi c) X),
          Np.sqrt (Fin (expectation2R dl (psi c) X
                        + - (expectationR dl (psi c) X
                             * expectationR dl (psi c) X))))).
  destruct (expectation_values_run s (Fin dl) r k m (map Fin X) obs HD Hrect)
    as (e & u & Hrun & Le & Lu & Hn').
  - change (add (Fin (xMin (para s))) (Fin dl)) with (Fin (xMin p + dl)).
    change (sub (Fin (xMax (para s))) (Fin dl)) with (Fin (xMax p - dl)).
    apply linspace_Fin. fold p. lia.
  - intros c Hc. apply observables_of_column_Fin; auto.
  - exists e, u. repeat split; try assumption;
      destruct (Hn' c H) as [H1 H2]; auto.
Qed.

Lemma grid_step (a b : R) (n : Z) (i : nat) :
  (S i < Z.to_nat n)%nat ->
  nth (S i) (grid a b n) 0 - nth i (grid a b n) 0 = (b - a) / (IZR n - 1).
Proof.
  intros Hi. rewrite !nth_grid by lia. rewrite S_INR. field.
  assert (2 <= n)%Z by lia. apply IZR_le in H. lra.
Qed.

Lemma grid_first (a b : R) (n : Z) :
  (1 <= n)%Z -> nth 0 (grid a b n) 0 = a.
Proof.
  intros Hn. rewrite nth_grid by lia. simpl. ring.
Qed.

Lemma grid_last (a b : R) (n : Z) :
  (2 <= n)%Z -> nth (Z.to_nat n - 1) (grid a b n) 0 = b.
Proof.
  intros Hn. rewrite nth_grid by lia.
  replace (Z.to_nat n - 1)%nat with (Z.to_nat (n - 1)) by lia.
  rewrite INR_to_nat by lia. rewrite minus_IZR. field.
  apply IZR_le in Hn. lra.
Qed.

(** C5, as amended.  For finite eigenvector columns the stage hands to its
    sink, per eigenstate, [<x> = Delta * sum(psi_i^2 * x_i)] and
    [sqrt(<x^2> - <x>^2)] with [<x^2> = Delta * sum(psi_i^2 * x_i^2)], the
    sums taken over the [nPoints - 2] interior samples; the square root is
    [np.sqrt], a real root for every normalized column.  The interior
    coordinates are [linspace(xMin + Delta, xMax - Delta, nPoints - 2)]:
    they start at [xMin + Delta], end at [xMax - Delta] and are
    [(xMax - xMin - 2 Delta) / (nPoints - 3)] apart. *)
Theorem expectation_values_pairs :
  forall (s : store) (dl : R) (k : nat) (m : matrix) (psi : nat -> list R),
    let p := para s in
    let X := grid (xMin p + dl) (xMax p - dl) (nPoints p - 2) in
    Delta p = Some (Fin dl) ->
    (3 <= nPoints p)%Z ->
    rect (Z.to_nat (nPoints p)) k m ->
    (forall c, (c < k)%nat -> column c m = map Fin (psi c)) ->
    (exists expval uncertainty,
        expectation_values m s
        = (Ok tt,
           mkStore p (sinks s ++ [write_expectation_values expval uncertainty
                                    (directory p)]))
        /\ length expval = k /\ length uncertainty = k
        /\ forall c,
            (c < k)%nat ->
            let ex := expectationR dl (psi c) X in
            let ex2 := expectation2R dl (psi c) X in
            nth c expval NaN = Fin ex
            /\ nth c uncertainty NaN = Np.sqrt (Fin (ex2 - ex * ex))
            /\ (quadratureR dl (psi c) = 1 ->
                0 <= ex2 - ex * ex
                /\ nth c uncertainty NaN = Fin (R_sqrt.sqrt (ex2 - ex * ex))))
    /\ length X = Z.to_nat (nPoints p - 2)
    /\ nth 0 X 0 = xMin p + dl
    /\ ((4 <= nPoints p)%Z ->
        nth (Z.to_nat (nPoints p - 2) - 1) X 0 = xMax p - dl)
    /\ forall i, (S i < length X)%nat ->
                 nth (S i) X 0 - nth i X 0
                 = (xMax p - xMin p - 2 * dl) / (IZR (nPoints p) - 3).
Proof.
  intros s dl k m psi p X HD Hn Hrect Hcol.
  split; [|split; [|split; [|split]]].
  - destruct (expectation_values_finite s dl k m psi HD Hn Hrect Hcol)
      as (e & u & Hrun & Le & Lu & Hc).
    exists e, u. split; [exact Hrun|]. split; [exact Le|].
    split; [exact Lu|]. intros c Hlt ex ex2.
    destruct (Hc c Hlt) as (H1 & H2 & H3).
    split; [exact H1|]. split; [exact H2|]. intros Hq.
    assert (Hrad : 0 <= ex2 - ex * ex) by (now apply radicand_nonneg).
    split; [exact Hrad|]. rewrite H2. now apply sqrt_Fin.
  - apply length_grid.
  - apply grid_first. lia.
  - intros H4. apply grid_last. lia.
  - intros i Hi. unfold X in *. rewrite length_grid in Hi.
    rewrite grid_step by assumption. rewrite minus_IZR.
    assert (IZR (nPoints p) - 3 <> 0).
    { assert (4 <= nPoints p)%Z by lia. apply IZR_le in H. lra. }
    field; repeat split; lra.
Qed.

Lemma rect_spike_5pt : rect 5 1 spike_5pt.
Proof. split; [reflexivity | repeat constructor]. Qed.

Lemma expectation_values_pairs_witness :
  exists expval uncertainty,
    expectation_values spike_5pt store_5pt
    = (Ok tt,
       mkStore para_5pt [write_expectation_values expval uncertainty "."])
    /\ nth 0 expval NaN
       = Fin (expectationR 1 [0; 0; 1; 0; 0] (grid (0 + 1) (5 - 1) 3)).
Proof.
  destruct (expectation_values_pairs store_5pt 1 1 spike_5pt
              (fun _ => [0; 0; 1; 0; 0]) eq_refl)
    as ((e & u & Hrun & _ & _ & Hc) & _).
  - simpl. lia.
  - exact rect_spike_5pt.
  - intros [|c] Hc; [reflexivity | lia].
  - exists e, u. split; [exact Hrun|]. exact (proj1 (Hc 0%nat (le_n 1))).
Defined.

(** C5, the claim as stated fails: on five points between 0 and 5 the
    interior coordinates are 1, 5/2 and 4, not one [Delta = 1] apart. *)
Lemma interior_step_is_not_Delta : ~ interior_step_is_Delta para_5pt.
Proof.
  intros H.
  specialize (H (Fin 1) (map Fin (grid (0 + 1) (5 - 1) 3)) eq_refl).
  assert (Hl : linspace (add (Fin (xMin para_5pt)) (Fin 1))
                        (sub (Fin (xMax para_5pt)) (Fin 1))
                        (nPoints para_5pt - 2)
               = Ok (map Fin (grid (0 + 1) (5 - 1) 3))).
  { apply (linspace_Fin (0 + 1) (5 - 1) 3). lia. }
  specialize (H Hl 0%nat). simpl in H.
  assert (Hlt : (1 < 3)%nat) by lia. specialize (H Hlt).
  injection H as H. lra.
Qed.

Section Runs.
Context {scipy : SciPy}.

Lemma write_hamiltonian_Ok_inv s h s1 :
  _write_hamiltonian s = (Ok h, s1) ->
  exists V s0,
    interpolate_potential s = (Ok V, s0) /\ (1 <= nPoints (para s))%Z.
Proof.
  unfold _write_hamiltonian. intros H.
  apply bind_Ok_inv in H. destruct H as (V & s0 & HV & H).
  exists V, s0. split; [assumption|].
  destruct (interpolate_potential_Ok s V s0 HV) as (_ & _ & ->).
  destruct (Z_lt_le_dec (nPoints (para s) - 1) 0) as [Hneg|]; [|lia].
  exfalso. revert H.
  unfold bind, get_para, put_para, lift, ones, ret. simpl.
  replace (nPoints (para s) - 1 <? 0)%Z with true
    by (symmetry; apply Z.ltb_lt; lia).
  discriminate.
Qed.

(** The run of [solve_hamiltonian] once its three stages have succeeded. *)
Lemma solve_hamiltonian_run s dg off s1 w v v' :
  _write_hamiltonian s = (Ok (dg, off), s1) ->
  eigh_tridiagonal dg off false "i"
    ((first_eigenvalue (para s) - 1)%Z, (last_eigenvalue (para s) - 1)%Z)
  = Ok (w, v) ->
  _norm_eigenvectors v s1 = (Ok v', s1) ->
  solve_hamiltonian s
  = (Ok (w, v'),
     mkStore (para s1)
       (sinks s1 ++
        [write_eigenvalues w (directory (para s));
         write_eigenvectors v'
           (map Fin (grid (xMin (para s)) (xMax (para s)) (nPoints (para s))))
           (directory (para s))])).
Proof.
  intros HW HE HN.
  destruct (write_hamiltonian_Ok_inv s _ s1 HW) as (V & s0 & HV & Hn).
  pose proof (write_hamiltonian_run s V s0 HV Hn) as Hrun.
  cbv zeta in Hrun. rewrite HW in Hrun. injection Hrun as _ _ Hs1.
  unfold solve_hamiltonian.
  rewrite (bind_Ok _ _ s (dg, off) s1 HW).
  unfold bind at 1. unfold get_para at 1.
  assert (Hp : para s1 = set_Delta
                 (div (Fin (Rabs (xMax (para s) - xMin (para s))))
                      (Fin (IZR (nPoints (para s))))) (para s))
    by (rewrite Hs1; reflexivity).
  rewrite Hp. cbn [first_eigenvalue last_eigenvalue set_Delta].
  unfold bind at 1. unfold lift at 1. rewrite HE.
  rewrite (bind_Ok _ _ s1 v' s1 HN).
  unfold bind, emit, lift, ret.
  cbn [para sinks directory xMin xMax nPoints set_Delta].
  rewrite linspace_Fin by lia. rewrite <- Hp.
  rewrite <- app_assoc. reflexivity.
Qed.

End Runs.

(** C3, as amended.  The grid is [np.linspace(xMin, xMax, nPoints)]:
    [nPoints] increasing coordinates from [xMin] to [xMax], consecutive ones
    [(xMax - xMin)/(nPoints - 1)] apart.  The canonical spacing
    [Delta = (xMax - xMin)/nPoints] is a different number; it is computed
    once by the Hamiltonian builder, which uses it for the kinetic constant
    and stores it, and it is the value that the normalizer and the
    observables stage read back. *)
Theorem grid_and_canonical_spacing :
  forall (scipy : SciPy) (s : store),
    let p := para s in
    let n := Z.to_nat (nPoints p) in
    let X := grid (xMin p) (xMax p) (nPoints p) in
    let dl := (xMax p - xMin p) / IZR (nPoints p) in
    let aa := div (Fin 1) (mul (Fin (mass p)) (sq (Fin dl))) in
    xMin p < xMax p ->
    (3 <= nPoints p)%Z ->
    (linspace (Fin (xMin p)) (Fin (xMax p)) (nPoints p) = Ok (map Fin X)
     /\ length X = n
     /\ nth 0 X 0 = xMin p
     /\ nth (n - 1) X 0 = xMax p
     /\ forall i, (S i < n)%nat ->
                  nth (S i) X 0 - nth i X 0
                  = (xMax p - xMin p) / (IZR (nPoints p) - 1)
                  /\ nth i X 0 < nth (S i) X 0)
    /\ forall h s1,
        _write_hamiltonian s = (Ok h, s1) ->
        Delta (para s1) = Some (Fin dl)
        /\ (exists V,
               h = (map (add aa) V,
                    map (mul (div (neg aa) (Fin 2)))
                        (repeat (Fin 1) (Z.to_nat (nPoints p - 1)))))
        /\ (forall r k m,
               rect (S r) k m ->
               exists m',
                 _norm_eigenvectors m s1 = (Ok m', s1)
                 /\ forall c, (c < k)%nat ->
                              column c m'
                              = normalize_column (Fin dl) (column c m))
        /\ (forall k m psi,
               rect n k m ->
               (forall c, (c < k)%nat -> column c m = map Fin (psi c)) ->
               exists expval uncertainty,
                 expectation_values m s1
                 = (Ok tt,
                    mkStore (para s1)
                      (sinks s1 ++
                       [write_expectation_values expval uncertainty
                          (directory p)]))
                 /\ forall c,
                     (c < k)%nat ->
                     nth c expval NaN
                     = Fin (expectationR dl (psi c)
                              (grid (xMin p + dl) (xMax p - dl)
                                    (nPoints p - 2)))).
Proof.
  intros scipy s p n X dl aa Hlt Hn.
  assert (HnR : 3 <= IZR (nPoints p)) by (now apply IZR_le in Hn).
  split.
  - split; [apply linspace_Fin; lia|].
    split; [apply length_grid|].
    split; [apply grid_first; lia|].
    split; [apply grid_last; lia|].
    intros i Hi.
    assert (Hstep : nth (S i) X 0 - nth i X 0
                    = (xMax p - xMin p) / (IZR (nPoints p) - 1))
      by (now apply grid_step).
    split; [exact Hstep|].
    assert (0 < (xMax p - xMin p) / (IZR (nPoints p) - 1))
      by (apply Rdiv_lt_0_compat; lra).
    lra.
  - intros h s1 HW.
    destruct (write_hamiltonian_Ok_inv s h s1 HW) as (V & s0 & HV & Hn1).
    pose proof (write_hamiltonian_run s V s0 HV Hn1) as Hrun.
    cbv zeta in Hrun. fold p in Hrun.
    assert (Hdelta : div (Fin (Rabs (xMax p - xMin p))) (Fin (IZR (nPoints p)))
                     = Fin dl).
    { rewrite div_Fin by lra. rewrite Rabs_pos_eq by lra. reflexivity. }
    rewrite Hdelta in Hrun. rewrite HW in Hrun.
    injection Hrun as Hh Hs1.
    assert (HD : Delta (para s1) = Some (Fin dl)) by (now rewrite Hs1).
    split; [exact HD|]. split; [exists V; exact Hh|]. split.
    + intros r k m Hrect.
      destruct (norm_eigenvectors_columns r k (Fin dl) s1 m HD Hrect)
        as (m' & Hm' & _ & Hcol).
      exists m'. split; assumption.
    + intros k m psi Hrect Hcol.
      assert (Hp1 : para s1 = set_Delta (Fin dl) p) by (now rewrite Hs1).
      destruct (expectation_values_finite s1 dl k m psi) as
        (e & u & Hrun & _ & _ & Hc); try assumption.
      * rewrite Hp1. exact Hn.
      * rewrite Hp1. exact Hrect.
      * exists e, u. rewrite Hp1 in Hrun, Hc. cbn [set_Delta] in Hrun, Hc.
        rewrite Hp1. split; [exact Hrun|].
        intros c Hlt'. exact (proj1 (Hc c Hlt')).
Qed.

Lemma grid_and_canonical_spacing_witness :
  xMin para_3pt < xMax para_3pt
  /\ (3 <= nPoints para_3pt)%Z
  /\ linspace (Fin 0) (Fin 3) 3 = Ok (map Fin (grid 0 3 3))
  /\ forall i, (S i < 3)%nat ->
               nth (S i) (grid 0 3 3) 0 - nth i (grid 0 3 3) 0
               = (3 - 0) / (3 - 1)
               /\ nth i (grid 0 3 3) 0 < nth (S i) (grid 0 3 3) 0.
Proof.
  assert (H1 : xMin para_3pt < xMax para_3pt) by (simpl; lra).
  assert (H2 : (3 <= nPoints para_3pt)%Z) by (simpl; lia).
  split; [exact H1|]. split; [exact H2|].
  destruct (grid_and_canonical_spacing scipy_3pt store_3pt H1 H2)
    as ((Hl & _ & _ & _ & Hstep) & _).
  split; [exact Hl | exact Hstep].
Defined.

(** C3, the claim as stated fails: on three points between 0 and 3 the
    grid is 0, 3/2, 3, its step is 3/2, and [Delta] is 1. *)
Lemma grid_step_is_not_Delta : ~ grid_step_is_Delta para_3pt.
Proof.
  intros H.
  specialize (H (map Fin (grid 0 3 3)) (linspace_Fin 0 3 3 ltac:(lia)) 0%nat).
  rewrite grid_3pt in H. simpl in H.
  assert (Hlt : (1 < 3)%nat) by lia. specialize (H Hlt).
  rewrite Rabs_pos_eq in H by lra.
  destruct (Req_dec_T 3 0); [lra|].
  injection H as H. lra.
Qed.

(** ** Degenerate values *)

Lemma quadrature_of_finite (dl : R) (psi : list R) :
  quadrature (Fin dl) (map Fin psi) = Fin (quadratureR dl psi).
Proof.
  apply quadrature_Fin. apply interior_map.
Qed.

Lemma quadratureR_nonneg (dl : R) (psi : list R) :
  0 <= dl -> 0 <= quadratureR dl psi.
Proof.
  intros H. unfold quadratureR.
  pose proof (Rsum_sq_nonneg (interior psi)). nra.
Qed.

Lemma scale_inf_PInf_not_fin (x : R) : ~ is_fin (scale_inf x PInf).
Proof. apply scale_inf_not_fin. simpl. tauto. Qed.

Lemma scale_inf_zero (i : num) : scale_inf 0 i = NaN.
Proof.
  unfold scale_inf.
  destruct (Rlt_dec 0 0); [lra|]. destruct (Rlt_dec 0 0); [lra|]. reflexivity.
Qed.

(** A zero quadrature makes the loop divide the column by [sqrt 0 = 0]. *)
Lemma normalize_column_zero (dl : R) (psi : list R) :
  quadratureR dl psi = 0 ->
  normalize_column (Fin dl) (map Fin psi)
  = map (fun x => scale_inf x PInf) psi.
Proof.
  intros H. unfold normalize_column.
  rewrite quadrature_of_finite, H, sqrt_Fin, sqrt_0, map_map by lra.
  apply map_ext. intros x. unfold div.
  destruct (Req_dec_T 0 0); [reflexivity | lra].
Qed.

Lemma observables_of_column_total d x_i m c :
  length (interior (column c m)) = length x_i ->
  exists t, observables_of_column d x_i m c = Ok t.
Proof.
  intros H. unfold observables_of_column, np_mul.
  rewrite !length_map, H, Nat.eqb_refl. cbn [rbind]. eauto.
Qed.

Lemma In_nan_column r k c m :
  rect r k m -> (c < k)%nat -> In NaN (column c m) ->
  existsb has_nan m = true.
Proof.
  intros [_ Hk] Hc Hin. unfold column in Hin.
  apply in_map_iff in Hin. destruct Hin as (row & Hnan & Hrow).
  apply existsb_exists. exists row. split; [assumption|].
  apply existsb_exists. exists NaN. split; [|reflexivity].
  rewrite <- Hnan. apply nth_In.
  rewrite Forall_forall in Hk. rewrite (Hk row Hrow). exact Hc.
Qed.

Lemma norm_zero_quadrature (s : store) (dl : R) (r k : nat) (m : matrix)
      (c : nat) (psi : list R) :
  Delta (para s) = Some (Fin dl) ->
  rect (S r) k m -> (c < k)%nat ->
  column c m = map Fin psi ->
  quadratureR dl psi = 0 ->
  exists m',
    _norm_eigenvectors m s = (Ok m', s)
    /\ rect (S r) k m'
    /\ column c m' = map (fun x => scale_inf x PInf) psi.
Proof.
  intros HD Hrect Hc Hcol Hq.
  destruct (norm_eigenvectors_columns r k (Fin dl) s m HD Hrect)
    as (m' & Hrun & Hrect' & Hcols).
  exists m'. split; [assumption|]. split; [assumption|].
  rewrite (Hcols c Hc), Hcol. now apply normalize_column_zero.
Qed.

Lemma negative_radicand_nan (s : store) (dl : R) (r k : nat) (m : matrix)
      (c : nat) (psi : list R) :
  let p := para s in
  let X := grid (xMin p + dl) (xMax p - dl) (nPoints p - 2) in
  Delta p = Some (Fin dl) ->
  rect (S r) k m -> (c < k)%nat ->
  column c m = map Fin psi ->
  S r = Z.to_nat (nPoints p) -> (2 <= nPoints p)%Z ->
  expectation2R dl psi X - expectationR dl psi X * expectationR dl psi X < 0 ->
  exists expval uncertainty,
    expectation_values m s
    = (Ok tt,
       mkStore p (sinks s ++ [write_expectation_values expval uncertainty
                                (directory p)]))
    /\ length uncertainty = k
    /\ nth c uncertainty (Fin 0) = NaN.
Proof.
  intros p X HD Hrect Hc Hcol Hrows Hn Hneg.
  assert (Hx : linspace (add (Fin (xMin p)) (Fin dl))
                        (sub (Fin (xMax p)) (Fin dl)) (nPoints p - 2)
               = Ok (map Fin X)).
  { apply (linspace_Fin (xMin p + dl) (xMax p - dl)). lia. }
  assert (Hlen : forall ii,
             length (interior (column ii m)) = length (map Fin X)).
  { intros ii. rewrite length_interior, length_column, length_map.
    unfold X. rewrite length_grid. destruct Hrect as [-> _]. lia. }
  set (obs := fun ii =>
         match observables_of_column (Fin dl) (map Fin X) m ii with
         | Ok t => t
         | Raise _ => (NaN, NaN, NaN)
         end).
  destruct (expectation_values_run s (Fin dl) r k m (map Fin X) obs HD Hrect Hx)
    as (e & u & Hrun & _ & Lu & Hnth).
  - intros ii _. unfold obs.
    destruct (observables_of_column_total (Fin dl) (map Fin X) m ii (Hlen ii))
      as [t ->]. reflexivity.
  - exists e, u. split; [exact Hrun|]. split; [exact Lu|].
    rewrite (nth_indep u (Fin 0) NaN) by lia.
    rewrite (proj2 (Hnth c Hc)). unfold obs.
    rewrite (observables_of_column_Fin dl X psi m c Hcol).
    + cbn [snd]. unfold Np.sqrt.
      destruct (Rlt_dec _ 0) as [_|Hge]; [reflexivity|].
      exfalso. apply Hge. unfold Rminus in Hneg. exact Hneg.
    + specialize (Hlen c). rewrite Hcol, interior_map, !length_map in Hlen.
      exact Hlen.
Qed.

(** C6, as amended.  Nothing in the pipeline detects, clamps or reports a
    degenerate value.  For a finite eigenvector column whose interior
    quadrature sum is zero the normalizer returns normally, every component
    of the column turned into [nan] (a zero component), [inf] or [-inf],
    and a run of [solve_hamiltonian] whose eigensolver returned that array
    returns normally and hands the column to [write_eigenvectors]; with the
    non-negative [Delta] of the builder the sum is never negative; and for
    a finite column whose radicand [<x^2> - <x>^2] is negative the
    observables stage returns normally and hands [nan] to its sink as that
    state's uncertainty. *)
Theorem degenerate_values_pass_through :
  forall (scipy : SciPy) (s : store) (dl : R) (r k : nat) (m : matrix)
         (c : nat) (psi : list R),
    let p := para s in
    let X := grid (xMin p + dl) (xMax p - dl) (nPoints p - 2) in
    Delta p = Some (Fin dl) ->
    rect (S r) k m -> (c < k)%nat ->
    column c m = map Fin psi ->
    (quadratureR dl psi = 0 ->
     (exists m',
         _norm_eigenvectors m s = (Ok m', s)
         /\ column c m' = map (fun x => scale_inf x PInf) psi
         /\ Forall (fun v => ~ is_fin v) (column c m')
         /\ (In 0 (psi) -> existsb has_nan m' = true))
     /\ (forall (s0 : store) (dg off w : list num),
            _write_hamiltonian s0 = (Ok (dg, off), s) ->
            eigh_tridiagonal dg off false "i"
              ((first_eigenvalue (para s0) - 1)%Z,
               (last_eigenvalue (para s0) - 1)%Z) = Ok (w, m) ->
            exists v s2,
              solve_hamiltonian s0 = (Ok (w, v), s2)
              /\ column c v = map (fun x => scale_inf x PInf) psi
              /\ In (write_eigenvectors v
                       (map Fin (grid (xMin (para s0)) (xMax (para s0))
                                      (nPoints (para s0))))
                       (directory (para s0)))
                    (sinks s2)
              /\ (In 0 psi -> existsb event_has_nan (sinks s2) = true)))
    /\ (0 <= dl -> 0 <= quadratureR dl psi)
    /\ (S r = Z.to_nat (nPoints p) -> (2 <= nPoints p)%Z ->
        expectation2R dl psi X - expectationR dl psi X * expectationR dl psi X
        < 0 ->
        exists expval uncertainty,
          expectation_values m s
          = (Ok tt,
             mkStore p (sinks s ++ [write_expectation_values expval uncertainty
                                      (directory p)]))
          /\ length uncertainty = k
          /\ nth c uncertainty (Fin 0) = NaN).
Proof.
  intros scipy s dl r k m c psi p X HD Hrect Hc Hcol.
  split; [|split].
  - intros Hq.
    destruct (norm_zero_quadrature s dl r k m c psi HD Hrect Hc Hcol Hq)
      as (m' & Hrun & Hrect' & Hcol').
    assert (Hnan : In 0 psi -> existsb has_nan m' = true).
    { intros H0. apply (In_nan_column (S r) k c m' Hrect' Hc).
      rewrite Hcol'. apply in_map_iff. exists 0. split; [|exact H0].
      apply scale_inf_zero. }
    split.
    + exists m'. split; [exact Hrun|]. split; [exact Hcol'|].
      split; [|exact Hnan].
      rewrite Hcol'. apply Forall_forall. intros v Hv.
      apply in_map_iff in Hv. destruct Hv as (x & <- & _).
      apply scale_inf_PInf_not_fin.
    + intros s0 dg off w HW HE.
      exists m'. eexists. split; [|split; [exact Hcol'|split]].
      * exact (solve_hamiltonian_run s0 dg off s w m m' HW HE Hrun).
      * cbn [sinks]. apply in_or_app. right. right. left. reflexivity.
      * intros H0. cbn [sinks]. rewrite existsb_app.
        apply orb_true_iff. right. cbn [existsb event_has_nan].
        rewrite (Hnan H0). cbn [orb].
        now destruct (has_nan w).
  - apply quadratureR_nonneg.
  - intros Hrows Hn Hneg.
    exact (negative_radicand_nan s dl r k m c psi HD Hrect Hc Hcol Hrows Hn
             Hneg).
Qed.

Lemma rect_node_3pt : rect 3 1 node_3pt.
Proof. split; [reflexivity | repeat constructor]. Qed.

Lemma quadratureR_node_3pt : quadratureR 1 [1; 0; -1] = 0.
Proof.
  unfold quadratureR, interior. simpl. rewrite Rabs_R0. lra.
Qed.

(** ** The three-point run *)

Lemma write_hamiltonian_3pt :
  @_write_hamiltonian scipy_3pt store_3pt
  = (Ok (map Fin [1; 2; 1], map Fin [-1; -1]),
     mkStore (set_Delta (Fin 1) para_3pt) sinks_potential_3pt).
Proof.
  rewrite (write_hamiltonian_run store_3pt _ _ interpolate_potential_3pt)
    by (simpl; lia).
  cbn [para sinks store_3pt para_3pt xMin xMax nPoints mass].
  rewrite Rabs_pos_eq by lra.
  unfold potential_3pt, sq. decide_reals.
  change (Pos.to_nat 2) with 2%nat. cbn [repeat map mul].
  repeat (f_equal; try lra).
Qed.

Lemma inv_sqrt_pos (x : R) : 0 < x -> 0 < / R_sqrt.sqrt x.
Proof. intros H. apply Rinv_0_lt_compat. now apply sqrt_lt_R0. Qed.

Lemma full_spectrum_3pt : full_spectrum [1; 2; 1] [-1; -1] spectrum_3pt.
Proof.
  pose proof (inv_sqrt_pos 3 ltac:(lra)) as H3.
  pose proof (inv_sqrt_pos 2 ltac:(lra)) as H2.
  pose proof (inv_sqrt_pos 6 ltac:(lra)) as H6.
  constructor.
  - reflexivity.
  - unfold spectrum_3pt.
    repeat apply Forall_cons; [| | |apply Forall_nil];
      (split; [reflexivity|];
       split; [unfold tridiag_apply; simpl; repeat (f_equal; try lra)
              | apply Exists_cons_hd; simpl; lra]).
  - intros i j Hij. simpl in Hij.
    destruct i as [|[|[|i]]], j as [|[|[|j]]]; simpl; lra || lia.
  - intros i j Hij. simpl in Hij.
    destruct i as [|[|[|i]]], j as [|[|[|j]]]; try lia;
      unfold dot; simpl; unfold Rdiv; ring.
Qed.

Lemma quadratureR_node_unit_3pt :
  quadratureR 1 [/ R_sqrt.sqrt 2; 0; - / R_sqrt.sqrt 2] = 0.
Proof.
  unfold quadratureR, interior. simpl. rewrite Rabs_R0. lra.
Qed.

Lemma expectation_values_unnormalized_3pt :
  exists expval uncertainty,
    expectation_values unnormalized_3pt store_3pt_Delta
    = (Ok tt,
       mkStore (para store_3pt_Delta)
         [write_expectation_values expval uncertainty "."])
    /\ length uncertainty = 1%nat
    /\ nth 0 uncertainty (Fin 0) = NaN.
Proof.
  apply (negative_radicand_nan store_3pt_Delta 1 2 1 unnormalized_3pt 0
           [0; 2; 0]); try reflexivity.
  - split; [reflexivity | repeat constructor].
  - lia.
  - simpl. lia.
  - unfold expectation2R, expectationR, grid, interior. simpl. lra.
Qed.

Lemma solve_hamiltonian_3pt :
  exists w v s',
    @solve_hamiltonian scipy_3pt store_3pt = (Ok (w, v), s')
    /\ existsb event_has_nan (sinks s') = true.
Proof.
  set (raw := band_vectors 3 spectrum_3pt).
  assert (Hrect : rect 3 3 raw) by (split; [reflexivity | repeat constructor]).
  destruct (norm_zero_quadrature
              (mkStore (set_Delta (Fin 1) para_3pt) sinks_potential_3pt)
              1 2 3 raw 1 [/ R_sqrt.sqrt 2; 0; - / R_sqrt.sqrt 2] eq_refl
              Hrect ltac:(lia) eq_refl quadratureR_node_unit_3pt)
    as (v & Hrun & Hrect' & Hcol).
  eexists _, v, _. split.
  - apply (solve_hamiltonian_run store_3pt _ _ _ _ raw v write_hamiltonian_3pt);
      [reflexivity | exact Hrun].
  - cbn [sinks]. rewrite existsb_app. apply orb_true_iff. right.
    cbn [existsb event_has_nan]. apply orb_true_iff. right.
    apply orb_true_iff. left. apply orb_true_iff. left.
    apply (In_nan_column 3 3 1 v Hrect'); [lia|].
    rewrite Hcol. simpl. right. left. apply scale_inf_zero.
Qed.

Lemma degenerate_values_pass_through_witness :
  exists v s2,
    @solve_hamiltonian scipy_3pt store_3pt
    = (Ok (band_values spectrum_3pt, v), s2)
    /\ column 1 v
       = map (fun x => scale_inf x PInf)
             [/ R_sqrt.sqrt 2; 0; - / R_sqrt.sqrt 2]
    /\ existsb event_has_nan (sinks s2) = true.
Proof.
  destruct (degenerate_values_pass_through scipy_3pt
              (mkStore (set_Delta (Fin 1) para_3pt) sinks_potential_3pt)
              1 2 3 (band_vectors 3 spectrum_3pt) 1
              [/ R_sqrt.sqrt 2; 0; - / R_sqrt.sqrt 2] eq_refl)
    as (HA & _ & _).
  - split; [reflexivity | repeat constructor].
  - lia.
  - reflexivity.
  - destruct (HA quadratureR_node_unit_3pt) as (_ & Hpipe).
    destruct (Hpipe store_3pt _ _ _ write_hamiltonian_3pt eq_refl)
      as (v & s2 & Hrun & Hcol & _ & Hnan).
    exists v, s2. split; [exact Hrun|]. split; [exact Hcol|].
    apply Hnan. simpl. tauto.
Defined.

(** C6, the claim as stated fails.  On the three-point run the second
    eigenvector is (1, 0, -1) / sqrt 2: its interior sum is zero, the
    normalizer turns it into (inf, nan, -inf), and [solve_hamiltonian] returns
    normally after handing that column to [write_eigenvectors].  For a
    column that is not normalized the radicand is negative, and
    [expectation_values] returns normally after handing a [nan] uncertainty
    to [write_expectation_values]. *)
Lemma nan_reaches_sinks :
  ~ nan_never_reaches_sinks (@solve_hamiltonian scipy_3pt) store_3pt
  /\ ~ nan_never_reaches_sinks (expectation_values unnormalized_3pt)
       store_3pt_Delta.
Proof.
  split; unfold nan_never_reaches_sinks.
  - destruct solve_hamiltonian_3pt as (w & v & s' & -> & Hnan).
    rewrite Hnan. discriminate.
  - destruct expectation_values_unnormalized_3pt as (e & u & -> & Lu & Hnan).
    cbn [sinks existsb event_has_nan].
    destruct u as [|u0 [|u1 u]]; try discriminate.
    simpl in Hnan. subst u0.
    destruct (has_nan e); discriminate.
Qed.

(** ** The selected band *)

Lemma length_band (lo hi : nat) (sp : list (R * list R)) :
  (lo <= hi < length sp)%nat -> length (band lo hi sp) = (hi - lo + 1)%nat.
Proof.
  intros H. unfold band. rewrite length_firstn, length_skipn. lia.
Qed.

Lemma nth_band (lo hi : nat) (sp : list (R * list R)) (i : nat) d :
  (i < hi - lo + 1)%nat ->
  nth i (band lo hi sp) d = nth (lo + i) sp d.
Proof.
  intros H. unfold band. rewrite nth_firstn, nth_skipn.
  now replace (i <? hi - lo + 1)%nat with true
    by (symmetry; apply Nat.ltb_lt; lia).
Qed.

Lemma nth_map_in {A B} (f : A -> B) (l : list A) (i : nat) (d : A) (d' : B) :
  (i < length l)%nat -> nth i (map f l) d' = f (nth i l d).
Proof.
  intros Hi. rewrite (nth_indep _ d' (f d)) by (now rewrite length_map).
  apply map_nth.
Qed.

Lemma map_nth_seq (l : list R) :
  map (fun r => nth r l 0) (seq 0 (length l)) = l.
Proof.
  apply (nth_ext _ _ 0 0).
  - now rewrite length_map, length_seq.
  - intros i Hi. rewrite length_map, length_seq in Hi.
    rewrite (nth_map_in _ _ _ 0%nat) by (now rewrite length_seq).
    now rewrite seq_nth.
Qed.

Lemma rect_band_vectors (n : nat) (b : list (R * list R)) :
  rect n (length b) (band_vectors n b).
Proof.
  unfold band_vectors. split.
  - now rewrite length_map, length_seq.
  - apply Forall_forall. intros row Hrow.
    apply in_map_iff in Hrow. destruct Hrow as (r & <- & _).
    apply length_map.
Qed.

Lemma column_band_vectors (n : nat) (b : list (R * list R)) (c : nat) :
  (c < length b)%nat ->
  length (snd (nth c b (0, []))) = n ->
  column c (band_vectors n b) = map Fin (snd (nth c b (0, []))).
Proof.
  intros Hc Hlen. unfold column, band_vectors.
  rewrite map_map.
  transitivity (map Fin (map (fun r => nth r (snd (nth c b (0, []))) 0)
                             (seq 0 (length (snd (nth c b (0, [])))))));
    [|now rewrite map_nth_seq].
  rewrite Hlen, map_map. apply map_ext. intros r.
  now rewrite (nth_map_in _ _ _ (0, [])) by assumption.
Qed.

Section Band.
Context {scipy : SciPy}.

Lemma write_hamiltonian_shape s dg off s1 :
  _write_hamiltonian s = (Ok (dg, off), s1) ->
  length dg = Z.to_nat (nPoints (para s))
  /\ exists d, Delta (para s1) = Some d.
Proof.
  intros HW.
  destruct (write_hamiltonian_Ok_inv s _ s1 HW) as (V & s0 & HV & Hn).
  pose proof (write_hamiltonian_run s V s0 HV Hn) as Hrun.
  cbv zeta in Hrun. rewrite HW in Hrun. injection Hrun as -> _ ->.
  destruct (interpolate_potential_Ok s V s0 HV) as (_ & Hlen & _).
  split; [now rewrite length_map | eexists; reflexivity].
Qed.

Lemma write_hamiltonian_Delta s dg off s1 :
  _write_hamiltonian s = (Ok (dg, off), s1) ->
  Delta (para s1) = Some (Fin (spacing (para s))).
Proof.
  intros HW.
  destruct (write_hamiltonian_Ok_inv s _ s1 HW) as (V & s0 & HV & Hn).
  pose proof (write_hamiltonian_run s V s0 HV Hn) as Hrun.
  cbv zeta in Hrun. rewrite HW in Hrun. injection Hrun as _ _ ->.
  cbn [para set_Delta Delta]. unfold spacing.
  destruct (Req_dec_T (IZR (nPoints (para s))) 0) as [H0|_]; [|reflexivity].
  exfalso. revert H0. apply not_0_IZR. lia.
Qed.

End Band.

(** A finite column of positive interior quadrature sum leaves the
    normalizer divided by a positive finite number. *)
Lemma normalize_column_finite (dl : R) (psi : list R) :
  0 < quadratureR dl psi ->
  exists sc, 0 < sc
             /\ normalize_column (Fin dl) (map Fin psi)
                = map Fin (map (Rmult (/ sc)) psi).
Proof.
  intros Hq. exists (R_sqrt.sqrt (quadratureR dl psi)).
  assert (Hs : 0 < R_sqrt.sqrt (quadratureR dl psi)) by now apply sqrt_lt_R0.
  split; [assumption|].
  rewrite (normalize_column_pos _ _ _ (quadrature_of_finite dl psi) Hq).
  rewrite !map_map. apply map_ext. intros x.
  rewrite div_Fin by lra. f_equal. unfold Rdiv. ring.
Qed.

(** C1, as amended.  With [1 <= first <= last <= nPoints], on a Hamiltonian
    with finite entries and an eigensolver that selects by index,
    [solve_hamiltonian] returns [last - first + 1] eigenvalues in
    non-decreasing order, the entry of index [i] being the [(first + i)]-th
    smallest eigenvalue of the whole spectrum, and an array of [nPoints]
    rows with one column per eigenvalue.  The column of index [i] is the
    eigensolver's eigenvector for that eigenvalue after the normalizer; it
    is itself an eigenvector for that eigenvalue whenever the interior
    quadrature sum of the eigensolver's eigenvector is positive. *)
Theorem solve_hamiltonian_band :
  forall (scipy : SciPy) (s s1 : store) (dg off : list R)
         (sp : list (R * list R)),
    let p := para s in
    let first := first_eigenvalue p in
    let last := last_eigenvalue p in
    let b := band (Z.to_nat (first - 1)) (Z.to_nat (last - 1)) sp in
    (1 <= first <= last)%Z ->
    (last <= nPoints p)%Z ->
    _write_hamiltonian s = (Ok (map Fin dg, map Fin off), s1) ->
    full_spectrum dg off sp ->
    eigh_selects_by_index scipy dg off sp ->
    exists w v s2,
      solve_hamiltonian s = (Ok (w, v), s2)
      /\ length w = Z.to_nat (last - first + 1)
      /\ (forall i, (i < length w)%nat ->
                    nth i w NaN
                    = Fin (kth_smallest sp (Z.to_nat first + i)))
      /\ (forall i j, (i <= j < length w)%nat ->
                      kth_smallest sp (Z.to_nat first + i)
                      <= kth_smallest sp (Z.to_nat first + j))
      /\ rect (Z.to_nat (nPoints p)) (length w) v
      /\ Delta (para s1) = Some (Fin (spacing p))
      /\ forall i, (i < length w)%nat ->
                   exists psi,
                     is_eigenvector dg off
                       (kth_smallest sp (Z.to_nat first + i)) psi
                     /\ column i (band_vectors (length dg) b) = map Fin psi
                     /\ column i v
                        = normalize_column (Fin (spacing p)) (map Fin psi)
                     /\ length (column i v) = Z.to_nat (nPoints p)
                     /\ (0 < quadratureR (spacing p) psi ->
                         exists sc,
                           0 < sc
                           /\ column i v = map Fin (map (Rmult (/ sc)) psi)
                           /\ is_eigenvector dg off
                                (kth_smallest sp (Z.to_nat first + i))
                                (map (Rmult (/ sc)) psi)).
Proof.
  intros scipy s s1 dg off sp p first last b Hfl Hln HW Hsp Hsel.
  destruct (write_hamiltonian_shape s _ _ s1 HW) as (Hlen & _).
  pose proof (write_hamiltonian_Delta s _ _ s1 HW) as HD. fold p in HD.
  rewrite length_map in Hlen.
  assert (Heig : eigh_tridiagonal (map Fin dg) (map Fin off) false "i"
                   ((first - 1)%Z, (last - 1)%Z)
                 = Ok (band_values b, band_vectors (length dg) b)).
  { apply Hsel; [lia|]. rewrite Hlen. fold p. lia. }
  destruct Hsp as [Hsplen Hspeig Hasc _].
  set (lo := Z.to_nat (first - 1)) in *.
  set (hi := Z.to_nat (last - 1)) in *.
  assert (Hrange : (lo <= hi < length sp)%nat)
    by (rewrite Hsplen, Hlen; unfold lo, hi; fold p; lia).
  assert (Hb : length b = Z.to_nat (last - first + 1))
    by (unfold b; rewrite length_band by assumption; unfold lo, hi; lia).
  assert (Hkth : forall i, (i < length b)%nat ->
                           nth i b (0, []) = nth (Z.to_nat first + i - 1) sp (0, [])
                           /\ (Z.to_nat first + i - 1 < length sp)%nat).
  { intros i Hi. unfold b in *. rewrite length_band in Hi by assumption.
    rewrite nth_band by assumption. split; [f_equal|]; unfold lo, hi in *; lia. }
  assert (Hrows : exists r, length dg = S r)
    by (exists (length dg - 1)%nat; rewrite Hlen; fold p; lia).
  destruct Hrows as [r Hr].
  pose proof (rect_band_vectors (length dg) b) as Hrect.
  rewrite Hr in Hrect at 1.
  destruct (norm_eigenvectors_columns r (length b) _ s1 _ HD Hrect)
    as (v & Hnorm & Hrect' & Hcol).
  exists (band_values b), v. eexists.
  assert (Hw : length (band_values b) = length b)
    by (unfold band_values; apply length_map).
  split; [|split; [|split; [|split; [|split; [|split]]]]].
  - exact (solve_hamiltonian_run s _ _ s1 _ _ v HW Heig Hnorm).
  - now rewrite Hw.
  - intros i Hi. rewrite Hw in Hi. unfold band_values, kth_smallest.
    rewrite (nth_map_in _ _ _ (0, [])) by assumption.
    now rewrite (proj1 (Hkth i Hi)).
  - intros i j Hij. rewrite Hw in Hij. unfold kth_smallest.
    apply Hasc. destruct (Hkth j) as [_ Hj]; lia.
  - unfold p. rewrite Hw, <- Hlen, Hr. exact Hrect'.
  - exact HD.
  - intros i Hi. rewrite Hw in Hi.
    destruct (Hkth i Hi) as [Hnth Hin].
    exists (snd (nth i b (0, []))).
    assert (Heg : is_eigenvector dg off (kth_smallest sp (Z.to_nat first + i))
                    (snd (nth i b (0, [])))).
    { unfold kth_smallest. rewrite Hnth.
      rewrite Forall_forall in Hspeig. apply Hspeig. now apply nth_In. }
    assert (Hcb : column i (band_vectors (length dg) b)
                  = map Fin (snd (nth i b (0, []))))
      by (apply column_band_vectors; [assumption | apply Heg]).
    assert (Hcv : column i v
                  = normalize_column (Fin (spacing p))
                      (map Fin (snd (nth i b (0, [])))))
      by now rewrite (Hcol i Hi), Hcb.
    split; [exact Heg|]. split; [exact Hcb|]. split; [exact Hcv|].
    split.
    + rewrite length_column. destruct Hrect' as [-> _].
      unfold p. now rewrite <- Hlen, Hr.
    + intros Hq.
      destruct (normalize_column_finite _ _ Hq) as (sc & Hsc & Hn).
      exists sc. split; [exact Hsc|]. split; [now rewrite Hcv|].
      apply is_eigenvector_scale; [|exact Heg].
      apply Rinv_neq_0_compat. lra.
Qed.

Lemma eigh_selects_by_index_3pt :
  eigh_selects_by_index scipy_3pt [1; 2; 1] [-1; -1] spectrum_3pt.
Proof. intros lo hi _ _. reflexivity. Qed.

Lemma solve_hamiltonian_band_witness :
  exists w v s2,
    @solve_hamiltonian scipy_3pt store_3pt = (Ok (w, v), s2)
    /\ length w = 3%nat
    /\ nth 0 w NaN = Fin (kth_smallest spectrum_3pt 1)
    /\ nth 1 w NaN = Fin (kth_smallest spectrum_3pt 2)
    /\ nth 2 w NaN = Fin (kth_smallest spectrum_3pt 3)
    /\ rect 3 3 v.
Proof.
  destruct (solve_hamiltonian_band scipy_3pt store_3pt
              (mkStore (set_Delta (Fin 1) para_3pt) sinks_potential_3pt)
              [1; 2; 1] [-1; -1] spectrum_3pt)
    as (w & v & s2 & Hrun & Hlen & Hnth & _ & Hrect & _).
  - simpl. lia.
  - simpl. lia.
  - exact write_hamiltonian_3pt.
  - exact full_spectrum_3pt.
  - exact eigh_selects_by_index_3pt.
  - exists w, v, s2. simpl in Hlen. change (Pos.to_nat 3) with 3%nat in Hlen.
    rewrite Hlen in Hnth, Hrect.
    split; [exact Hrun|]. split; [exact Hlen|].
    split; [exact (Hnth 0%nat ltac:(lia))|].
    split; [exact (Hnth 1%nat ltac:(lia))|].
    split; [exact (Hnth 2%nat ltac:(lia))|].
    exact Hrect.
Defined.

(** On the three-point run the column returned for the second eigenvalue
    is the eigensolver's vector [(1, 0, -1) / sqrt 2] divided by the
    square root of its interior quadrature sum, which is zero. *)
Lemma solve_hamiltonian_3pt_node_column :
  exists v s',
    @solve_hamiltonian scipy_3pt store_3pt
    = (Ok (band_values spectrum_3pt, v), s')
    /\ column 1 v
       = map (fun x => scale_inf x PInf)
             [/ R_sqrt.sqrt 2; 0; - / R_sqrt.sqrt 2].
Proof.
  set (raw := band_vectors 3 spectrum_3pt).
  assert (Hrect : rect 3 3 raw) by (split; [reflexivity | repeat constructor]).
  destruct (norm_zero_quadrature
              (mkStore (set_Delta (Fin 1) para_3pt) sinks_potential_3pt)
              1 2 3 raw 1 [/ R_sqrt.sqrt 2; 0; - / R_sqrt.sqrt 2] eq_refl
              Hrect ltac:(lia) eq_refl quadratureR_node_unit_3pt)
    as (v & Hrun & _ & Hcol).
  exists v. eexists. split; [|exact Hcol].
  apply (solve_hamiltonian_run store_3pt _ _ _ _ raw v write_hamiltonian_3pt);
    [reflexivity | exact Hrun].
Qed.

(** C1, the claim as stated fails.  The three-point configuration is valid
    ([1 <= 1 <= 3 <= 3]), its Hamiltonian has the finite diagonal
    [(1, 2, 1)] and off-diagonal [(-1, -1)] with the whole spectrum
    [0, 1, 3], and the eigensolver selects by index; the run returns the
    three eigenvalues, but the column returned with the eigenvalue [1] is
    [(inf, nan, -inf)]: no vector of numbers, hence no eigenvector. *)
Lemma returned_column_not_eigenvector :
  (1 <= first_eigenvalue para_3pt <= last_eigenvalue para_3pt)%Z
  /\ (last_eigenvalue para_3pt <= nPoints para_3pt)%Z
  /\ (exists s1, @_write_hamiltonian scipy_3pt store_3pt
                 = (Ok (map Fin [1; 2; 1], map Fin [-1; -1]), s1))
  /\ full_spectrum [1; 2; 1] [-1; -1] spectrum_3pt
  /\ eigh_selects_by_index scipy_3pt [1; 2; 1] [-1; -1] spectrum_3pt
  /\ ~ @returns_eigenpairs scipy_3pt store_3pt [1; 2; 1] [-1; -1].
Proof.
  split; [simpl; lia|]. split; [simpl; lia|].
  split; [eexists; exact write_hamiltonian_3pt|].
  split; [exact full_spectrum_3pt|].
  split; [exact eigh_selects_by_index_3pt|].
  unfold returns_eigenpairs.
  destruct solve_hamiltonian_3pt_node_column as (v & s' & Hrun & Hcol).
  rewrite Hrun. intros H.
  destruct (H 1%nat) as (lam & psi & _ & Hpsi & _).
  - simpl. lia.
  - rewrite Hcol in Hpsi.
    destruct psi as [|a [|b psi]]; simpl in Hpsi; try discriminate.
    injection Hpsi as _ Hb _.
    rewrite scale_inf_zero in Hb. discriminate.
Qed.

(** ** Linear interpolation *)

Lemma knots_of_control_points (xs ys : list R) :
  strictly_increasing xs -> length xs = length ys ->
  knots_increasing (combine xs ys).
Proof.
  unfold strictly_increasing, knots_increasing.
  intros H. revert ys. induction H as [|x xs Hs IH Hx]; intros [|y ys] Hl;
    simpl in *; try discriminate; constructor.
  - apply IH. lia.
  - apply Forall_forall. intros [a b] Hin. simpl.
    apply in_combine_l in Hin. rewrite Forall_forall in Hx. now apply Hx.
Qed.

Lemma sort_by_x_increasing (knots : list (R * R)) :
  knots_increasing knots -> sort_by_x knots = knots.
Proof.
  induction 1 as [|k knots Hs IH Hk]; [reflexivity|].
  simpl. rewrite IH. destruct knots as [|q knots]; [reflexivity|].
  simpl. inversion Hk as [|? ? Hq _]; subst.
  destruct (Rle_dec (fst k) (fst q)); [reflexivity | lra].
Qed.

(** At a knot the interpolant returns the ordinate of the knot. *)
Lemma np_interp_knot (knots : list (R * R)) (a b : R) :
  knots_increasing knots -> In (a, b) knots -> np_interp knots a = Fin b.
Proof.
  induction 1 as [|[x0 y0] knots Hs IH Hk]; intros Hin; [contradiction|].
  cbn [np_interp]. destruct knots as [|[x1 y1] rest].
  - destruct Hin as [[= -> ->]|[]]. reflexivity.
  - inversion Hk as [|? ? H01 Hrest]; subst. simpl in H01.
    destruct (Rlt_dec a x1) as [Hlt|Hge].
    + destruct Hin as [[= -> ->]|Hin].
      * destruct (Req_dec_T a a); [reflexivity | contradiction].
      * exfalso. destruct Hin as [[= -> ->]|Hin]; [lra|].
        inversion Hs as [|? ? _ Hx1]; subst.
        rewrite Forall_forall in Hx1. specialize (Hx1 _ Hin). simpl in Hx1.
        lra.
    + destruct Hin as [[= -> ->]|Hin]; [lra|]. now apply IH.
Qed.

Lemma fst_last_combine (xs ys : list R) :
  length xs = length ys ->
  fst (last (combine xs ys) (0, 0)) = last xs 0.
Proof.
  revert ys. induction xs as [|x xs IH]; intros [|y ys] Hl; simpl in *;
    try discriminate; [reflexivity|].
  destruct xs as [|x' xs], ys as [|y' ys]; simpl in *; try discriminate;
    [reflexivity|].
  apply (IH (y' :: ys)). simpl. lia.
Qed.

Lemma increasing_head_least (x : R) (xs : list R) (g : R) :
  strictly_increasing (x :: xs) ->
  (Forall (fun y => g < y) (x :: xs) <-> g < x).
Proof.
  intros H. inversion H as [|? ? _ Hx]; subst. split.
  - intros HF. now inversion HF.
  - intros Hg. constructor; [assumption|].
    rewrite Forall_forall in *. intros y Hy. specialize (Hx y Hy). lra.
Qed.

Lemma increasing_last_greatest (xs : list R) (g : R) :
  strictly_increasing xs -> xs <> [] ->
  (Forall (fun y => y < g) xs <-> last xs 0 < g).
Proof.
  induction 1 as [|x xs Hs IH Hx]; intros Hne; [contradiction|].
  destruct xs as [|x' xs].
  - simpl. split; [intros HF; now inversion HF | intros; now repeat constructor].
  - change (last (x :: x' :: xs) 0) with (last (x' :: xs) 0).
    rewrite <- IH by discriminate. split.
    + intros HF. now inversion HF.
    + intros HF. constructor; [|assumption].
      inversion Hx; subst. inversion HF; subst. lra.
Qed.

Lemma ltb_Fin (a b : R) : ltb (Fin a) (Fin b) = true <-> a < b.
Proof.
  unfold ltb. destruct (Rlt_dec a b); split; intros; try assumption;
    try reflexivity; try discriminate; contradiction.
Qed.

Lemma existsb_map_Fin (f : num -> bool) (P : R -> Prop) (X : list R) :
  (forall g, f (Fin g) = true <-> P g) ->
  (existsb f (map Fin X) = true <-> Exists P X).
Proof.
  intros Hf. rewrite existsb_exists, Exists_exists. split.
  - intros (v & Hin & Hv). apply in_map_iff in Hin.
    destruct Hin as (g & <- & Hg). exists g. split; [assumption|].
    now apply Hf.
  - intros (g & Hg & HP). exists (Fin g). split; [now apply in_map | now apply Hf].
Qed.

(** The bounds test of a call, for control points in increasing order. *)
Lemma out_of_bounds_spec (xs ys X : list R) :
  strictly_increasing xs -> length xs = length ys -> xs <> [] ->
  (existsb (below_bounds (combine xs ys)) (map Fin X)
   || existsb (above_bounds (combine xs ys)) (map Fin X) = true
   <-> Exists (outside_support xs) X).
Proof.
  intros Hs Hl Hne. rewrite orb_true_iff.
  destruct xs as [|x xs]; [contradiction|].
  destruct ys as [|y ys]; [discriminate|].
  rewrite (existsb_map_Fin _ (fun g => Forall (fun z => g < z) (x :: xs))).
  2:{ intros g. cbn [combine below_bounds]. rewrite ltb_Fin.
      symmetry. now apply increasing_head_least. }
  rewrite (existsb_map_Fin _ (fun g => Forall (fun z => z < g) (x :: xs))).
  2:{ intros g. unfold above_bounds.
      change (combine (x :: xs) (y :: ys)) with ((x, y) :: combine xs ys).
      cbv iota. change ((x, y) :: combine xs ys)
        with (combine (x :: xs) (y :: ys)).
      rewrite fst_last_combine by assumption. rewrite ltb_Fin.
      symmetry. now apply increasing_last_greatest. }
  unfold outside_support. rewrite !Exists_exists. split.
  - intros [(g & Hg & H)|(g & Hg & H)]; exists g; tauto.
  - intros (g & Hg & [H|H]); [left | right]; exists g; tauto.
Qed.

Section Linear.
Context {scipy : SciPy}.

(** The run of the stage for the linear method. *)
Lemma interpolate_potential_linear s :
  let p := para s in
  let xs := interpolation_points_x p in
  let ys := interpolation_points_y p in
  let X := grid (xMin p) (xMax p) (nPoints p) in
  interpolation_type p = "linear"%string ->
  strictly_increasing xs -> length xs = length ys -> xs <> [] ->
  (0 <= nPoints p)%Z ->
  interpolate_potential s
  = if existsb (below_bounds (combine xs ys)) (map Fin X)
       || existsb (above_bounds (combine xs ys)) (map Fin X)
    then (Raise ValueError, s)
    else (Ok (map (np_interp (combine xs ys)) X),
          mkStore p (sinks s ++
                     [write_potential (map Fin X)
                        (map (np_interp (combine xs ys)) X) (directory p)])).
Proof.
  intros p xs ys X Ht Hs Hl Hne Hn.
  unfold interpolate_potential, bind, get_para, lift, emit, ret, raise.
  fold p. rewrite linspace_Fin by assumption. fold X.
  rewrite Ht. cbn [String.eqb Ascii.eqb Bool.eqb].
  unfold interp1d. fold xs ys. rewrite Hl, Nat.eqb_refl. cbn [negb].
  assert (Hlen : (length ys <? 1)%nat = false).
  { apply Nat.ltb_ge. rewrite <- Hl. destruct xs; [contradiction | simpl; lia]. }
  rewrite Hlen. cbn [rbind].
  rewrite sort_by_x_increasing by (now apply knots_of_control_points).
  cbn [call_interpolant]. unfold interp1d_call.
  destruct (existsb (below_bounds (combine xs ys)) (map Fin X)); [reflexivity|].
  destruct (existsb (above_bounds (combine xs ys)) (map Fin X)); [reflexivity|].
  cbn [orb]. rewrite map_map. reflexivity.
Qed.

End Linear.

(** C7.  For the linear method, on control points with strictly increasing
    abscissae: the interpolant returns [y_i] at every control point [x_i];
    the stage raises (ValueError, scipy's bounds error, with nothing
    written) exactly when some grid point lies outside
    [[min x_i, max x_i]]; and when it returns, every sample is the
    interpolant's value at its grid point: no grid point is
    extrapolated. *)
Theorem linear_interpolation_support :
  forall (scipy : SciPy) (s : store),
    let p := para s in
    let xs := interpolation_points_x p in
    let ys := interpolation_points_y p in
    let X := grid (xMin p) (xMax p) (nPoints p) in
    interpolation_type p = "linear"%string ->
    strictly_increasing xs -> length xs = length ys -> (2 <= length xs)%nat ->
    (0 <= nPoints p)%Z ->
    interp1d xs ys = Ok (combine xs ys)
    /\ (forall i, (i < length xs)%nat ->
                  np_interp (combine xs ys) (nth i xs 0) = Fin (nth i ys 0))
    /\ ((exists e, fst (interpolate_potential s) = Raise e)
        <-> Exists (outside_support xs) X)
    /\ (Exists (outside_support xs) X ->
        interpolate_potential s = (Raise ValueError, s))
    /\ (~ Exists (outside_support xs) X ->
        Forall (fun g => ~ outside_support xs g) X
        /\ interpolate_potential s
           = (Ok (map (np_interp (combine xs ys)) X),
              mkStore p (sinks s ++
                         [write_potential (map Fin X)
                            (map (np_interp (combine xs ys)) X)
                            (directory p)]))).
Proof.
  intros scipy s p xs ys X Ht Hs Hl Hlen Hn.
  assert (Hne : xs <> []) by (destruct xs; [simpl in Hlen; lia | discriminate]).
  pose proof (knots_of_control_points xs ys Hs Hl) as Hk.
  pose proof (interpolate_potential_linear s Ht Hs Hl Hne Hn) as Hrun.
  cbv zeta in Hrun. fold p xs ys X in Hrun.
  pose proof (out_of_bounds_spec xs ys X Hs Hl Hne) as Hb.
  split; [|split; [|split; [|split]]].
  - unfold interp1d. rewrite Hl, Nat.eqb_refl. cbn [negb].
    replace (length ys <? 1)%nat with false
      by (symmetry; apply Nat.ltb_ge; lia).
    now rewrite sort_by_x_increasing.
  - intros i Hi. apply np_interp_knot; [assumption|].
    rewrite <- (combine_nth xs ys i 0 0) by assumption.
    apply nth_In. rewrite length_combine. lia.
  - rewrite <- Hb, Hrun.
    destruct (_ || _); cbn [fst]; split; intros H; try reflexivity.
    + now exists ValueError.
    + destruct H; discriminate.
    + discriminate.
  - intros Hout. apply Hb in Hout. now rewrite Hrun, Hout.
  - intros Hin. split.
    + apply Forall_forall. intros g Hg Hbad. apply Hin.
      apply Exists_exists. now exists g.
    + rewrite Hrun. destruct (_ || _) eqn:E; [|reflexivity].
      exfalso. apply Hin. now apply Hb.
Qed.

Lemma increasing_control_points_3pt :
  strictly_increasing (interpolation_points_x para_3pt).
Proof.
  unfold strictly_increasing. simpl.
  repeat (constructor; try lra).
Qed.

Lemma linear_interpolation_support_witness :
  interp1d [0; 3 / 2; 3] [-1; 0; -1]
  = Ok (combine [0; 3 / 2; 3] [-1; 0; -1])
  /\ np_interp (combine [0; 3 / 2; 3] [-1; 0; -1]) (3 / 2) = Fin 0.
Proof.
  destruct (linear_interpolation_support scipy_3pt store_3pt eq_refl
              increasing_control_points_3pt eq_refl)
    as (H1 & H2 & _).
  - simpl. lia.
  - simpl. lia.
  - split; [exact H1|]. exact (H2 1%nat ltac:(simpl; lia)).
Defined.

(** C8.  With a method name other than the three known ones the stage
    raises before it interpolates or writes anything: the [if]/[elif] chain
    binds no interpolant and Python reports the unbound name (after the
    grid has been laid out by [np.linspace], whose own ValueError for a
    negative [nPoints] comes first).  The exception ends
    [_write_hamiltonian] and [solve_hamiltonian] as well, the store
    untouched: no Hamiltonian, no eigensolver call, no sink call. *)
Theorem unknown_method_aborts :
  forall (scipy : SciPy) (s : store),
    let t := interpolation_type (para s) in
    t <> "linear"%string -> t <> "cspline"%string ->
    t <> "polynomial"%string ->
    exists e,
      e = (if (nPoints (para s) <? 0)%Z then ValueError
           else UnboundLocalError)
      /\ interpolate_potential s = (Raise e, s)
      /\ _write_hamiltonian s = (Raise e, s)
      /\ solve_hamiltonian s = (Raise e, s).
Proof.
  intros scipy s t H1 H2 H3.
  apply String.eqb_neq in H1, H2, H3.
  eexists. split; [reflexivity|].
  assert (Hrun : interpolate_potential s
                 = (Raise (if (nPoints (para s) <? 0)%Z then ValueError
                           else UnboundLocalError), s)).
  { unfold interpolate_potential, bind, get_para, lift, raise.
    fold t. rewrite H1, H2, H3.
    destruct (nPoints (para s) <? 0)%Z eqn:E.
    - apply Z.ltb_lt in E. now rewrite linspace_negative.
    - apply Z.ltb_ge in E. now rewrite linspace_Fin. }
  split; [exact Hrun|].
  assert (HW : _write_hamiltonian s
               = (Raise (if (nPoints (para s) <? 0)%Z then ValueError
                         else UnboundLocalError), s)).
  { unfold _write_hamiltonian. now rewrite (bind_Raise _ _ s _ s Hrun). }
  split; [exact HW|].
  unfold solve_hamiltonian. now rewrite (bind_Raise _ _ s _ s HW).
Qed.

Lemma unknown_method_aborts_witness :
  @interpolate_potential scipy_3pt store_unknown
  = (Raise UnboundLocalError, store_unknown)
  /\ @solve_hamiltonian scipy_3pt store_unknown
     = (Raise UnboundLocalError, store_unknown).
Proof.
  destruct (unknown_method_aborts scipy_3pt store_unknown)
    as (e & He & Hi & _ & Hsolve); try discriminate.
  simpl in He. subst e. split; assumption.
Defined.

(** C4.  After the normalizer every column whose interior quadrature sum was
    strictly positive satisfies [Delta * sum(|psi_i|^2) = 1], the sum taken
    over the interior samples [1 .. nPoints-2] only. *)
Theorem norm_eigenvectors_unit_quadrature :
  forall (s : store) (d : num) (r k : nat) (m : matrix),
    Delta (para s) = Some d ->
    rect (S r) k m ->
    (forall c, (c < k)%nat ->
               exists N, quadrature d (column c m) = Fin N /\ 0 < N) ->
    exists m',
      _norm_eigenvectors m s = (Ok m', s)
      /\ rect (S r) k m'
      /\ forall c, (c < k)%nat -> quadrature d (column c m') = Fin 1.
Proof.
  intros s d r k m HD Hrect Hpos.
  destruct (norm_eigenvectors_columns r k d s m HD Hrect)
    as (m' & Hrun & Hrect' & Hcol).
  exists m'. repeat split; try assumption; try apply Hrect'.
  intros c Hc. rewrite (Hcol c Hc).
  destruct (Hpos c Hc) as (N & HN & Hlt).
  exact (quadrature_normalized d (column c m) N HN Hlt).
Qed.

Lemma rect_vectors_3pt : rect 3 2 vectors_3pt.
Proof. split; [reflexivity | repeat constructor]. Qed.

Lemma positive_vectors_3pt :
  forall c, (c < 2)%nat ->
            exists N, quadrature (Fin 1) (column c vectors_3pt) = Fin N
                      /\ 0 < N.
Proof.
  intros c Hc. destruct c as [|[|c]]; [| |lia];
    (eexists; split; [reflexivity|]); rewrite Rabs_square; lra.
Qed.

Lemma norm_eigenvectors_unit_quadrature_witness :
  Delta (para store_3pt_Delta) = Some (Fin 1)
  /\ rect 3 2 vectors_3pt
  /\ exists m',
      _norm_eigenvectors vectors_3pt store_3pt_Delta = (Ok m', store_3pt_Delta)
      /\ rect 3 2 m'
      /\ forall c, (c < 2)%nat -> quadrature (Fin 1) (column c m') = Fin 1.
Proof.
  split; [reflexivity|]. split; [exact rect_vectors_3pt|].
  exact (norm_eigenvectors_unit_quadrature store_3pt_Delta (Fin 1) 2 2
           vectors_3pt eq_refl rect_vectors_3pt positive_vectors_3pt).
Defined.

(** C9.  The normalizer is idempotent: run on its own output, for columns
    with strictly positive interior quadrature sums, it returns the very
    same array. *)
Theorem norm_eigenvectors_idempotent :
  forall (s : store) (d : num) (r k : nat) (m : matrix),
    Delta (para s) = Some d ->
    rect (S r) k m ->
    (forall c, (c < k)%nat ->
               exists N, quadrature d (column c m) = Fin N /\ 0 < N) ->
    exists m',
      _norm_eigenvectors m s = (Ok m', s)
      /\ _norm_eigenvectors m' s = (Ok m', s).
Proof.
  intros s d r k m HD Hrect Hpos.
  destruct (norm_eigenvectors_columns r k d s m HD Hrect)
    as (m' & Hrun & Hrect' & Hcol).
  destruct (norm_eigenvectors_columns r k d s m' HD Hrect')
    as (m'' & Hrun' & Hrect'' & Hcol').
  exists m'. split; [assumption|].
  rewrite Hrun'. do 2 f_equal.
  apply (matrix_ext (S r) k); try assumption.
  intros c Hc. rewrite (Hcol' c Hc).
  apply normalize_column_fixed. rewrite (Hcol c Hc).
  destruct (Hpos c Hc) as (N & HN & Hlt).
  exact (quadrature_normalized d (column c m) N HN Hlt).
Qed.

Lemma norm_eigenvectors_idempotent_witness :
  Delta (para store_3pt_Delta) = Some (Fin 1)
  /\ rect 3 2 vectors_3pt
  /\ exists m',
      _norm_eigenvectors vectors_3pt store_3pt_Delta = (Ok m', store_3pt_Delta)
      /\ _norm_eigenvectors m' store_3pt_Delta = (Ok m', store_3pt_Delta).
Proof.
  split; [reflexivity|]. split; [exact rect_vectors_3pt|].
  exact (norm_eigenvectors_idempotent store_3pt_Delta (Fin 1) 2 2
           vectors_3pt eq_refl rect_vectors_3pt positive_vectors_3pt).
Defined.

(** C10.  A column with a strictly positive interior quadrature sum is
    divided, in all of its components and the two boundary samples
    included, by one positive scalar; a finite column is thereby a positive
    multiple of the input and stays an eigenvector for the same
    eigenvalue. *)
Theorem norm_eigenvectors_positive_multiple :
  forall (s : store) (d : num) (r k : nat) (m : matrix) (c : nat) (N : R),
    Delta (para s) = Some d ->
    rect (S r) k m ->
    (c < k)%nat ->
    quadrature d (column c m) = Fin N -> 0 < N ->
    exists m' sc,
      _norm_eigenvectors m s = (Ok m', s)
      /\ 0 < sc
      /\ length (column c m') = S r
      /\ column c m' = map (fun v => div v (Fin sc)) (column c m)
      /\ forall psi,
          column c m = map Fin psi ->
          column c m' = map Fin (map (Rmult (/ sc)) psi)
          /\ forall dg off lam,
              is_eigenvector dg off lam psi ->
              is_eigenvector dg off lam (map (Rmult (/ sc)) psi).
Proof.
  intros s d r k m c N HD Hrect Hc HN Hpos.
  destruct (norm_eigenvectors_columns r k d s m HD Hrect)
    as (m' & Hrun & Hrect' & Hcol).
  pose proof (sqrt_lt_R0 N Hpos) as Hs.
  exists m', (R_sqrt.sqrt N).
  split; [assumption|]. split; [assumption|].
  split; [rewrite length_column; apply Hrect'|].
  assert (Hdiv : column c m'
                 = map (fun v => div v (Fin (R_sqrt.sqrt N))) (column c m)).
  { rewrite (Hcol c Hc). now apply normalize_column_pos. }
  split; [assumption|].
  intros psi Hpsi. split.
  - rewrite Hdiv, Hpsi, !map_map. apply map_ext. intros x.
    rewrite div_Fin by lra. f_equal. field. lra.
  - intros dg off lam. apply is_eigenvector_scale.
    apply Rinv_neq_0_compat. lra.
Qed.

Lemma norm_eigenvectors_positive_multiple_witness :
  Delta (para store_3pt_Delta) = Some (Fin 1)
  /\ rect 3 2 vectors_3pt
  /\ (1 < 2)%nat
  /\ quadrature (Fin 1) (column 1 vectors_3pt)
     = Fin (1 * (0 + Rabs (-2) * Rabs (-2)))
  /\ 0 < 1 * (0 + Rabs (-2) * Rabs (-2))
  /\ exists m' sc,
      _norm_eigenvectors vectors_3pt store_3pt_Delta = (Ok m', store_3pt_Delta)
      /\ 0 < sc
      /\ length (column 1 m') = 3%nat
      /\ column 1 m' = map (fun v => div v (Fin sc)) (column 1 vectors_3pt)
      /\ forall psi,
          column 1 vectors_3pt = map Fin psi ->
          column 1 m' = map Fin (map (Rmult (/ sc)) psi)
          /\ forall dg off lam,
              is_eigenvector dg off lam psi ->
              is_eigenvector dg off lam (map (Rmult (/ sc)) psi).
Proof.
  assert (Hpos : 0 < 1 * (0 + Rabs (-2) * Rabs (-2)))
    by (rewrite Rabs_square; lra).
  split; [reflexivity|]. split; [exact rect_vectors_3pt|].
  split; [lia|]. split; [reflexivity|]. split; [exact Hpos|].
  exact (norm_eigenvectors_positive_multiple store_3pt_Delta (Fin 1) 2 2
           vectors_3pt 1 _ eq_refl rect_vectors_3pt (le_n 2) eq_refl Hpos).
Defined.

Lemma positive_mass_3pt : 0 < mass (para store_3pt).
Proof. simpl. lra. Qed.

Lemma positive_spacing_3pt : 0 < spacing (para store_3pt).
Proof. unfold spacing. simpl. rewrite Rabs_pos_eq by lra. lra. Qed.

Lemma write_hamiltonian_entries_witness :
  0 < mass (para store_3pt)
  /\ 0 < spacing (para store_3pt)
  /\ exists diag offdiag s2,
      @_write_hamiltonian scipy_3pt store_3pt = (Ok (diag, offdiag), s2)
      /\ length diag = 3%nat
      /\ length offdiag = 2%nat.
Proof.
  split; [exact positive_mass_3pt|]. split; [exact positive_spacing_3pt|].
  destruct (write_hamiltonian_entries scipy_3pt store_3pt _ _
              interpolate_potential_3pt positive_mass_3pt
              positive_spacing_3pt)
    as (diag & offdiag & s2 & Hrun & _ & Hlen & _ & Hoff).
  exists diag, offdiag, s2. split; [exact Hrun|]. split; [exact Hlen|].
  rewrite Hoff. apply repeat_length.
Defined.

(* ================================================================= *)
(** * Further properties of the stages *)

(** ** What a run leaves in the store *)

Section Outcomes.
Context {scipy : SciPy}.

Lemma interpolate_potential_Raise s e s1 :
  interpolate_potential s = (Raise e, s1) -> s1 = s.
Proof.
  unfold interpolate_potential, bind, get_para, lift, raise, emit, ret.
  destruct (linspace _ _ _) as [xaxis|e0]; [|now intros [= _ <-]].
  match goal with
  | |- context [match ?sel with Ok _ => _ | Raise _ => _ end] =>
      destruct sel as [[f|]|e1]
  end; try (now intros [= _ <-]).
  destruct (call_interpolant f xaxis); [discriminate | now intros [= _ <-]].
Qed.

Lemma get_Delta_store s : snd (get_Delta s) = s.
Proof.
  unfold get_Delta, bind, get_para, ret, raise.
  now destruct (Delta (para s)).
Qed.

Lemma norm_loop_store (n : nat) :
  forall start acc s,
    snd (for_range_from start n
           (fun ii eigenvectors =>
              d <- get_Delta ;;
              let eigenvector_norm :=
                mul d (py_sum (map (fun v => sq (abs v))
                                   (interior (column ii eigenvectors)))) in
              ret (set_column ii
                     (map (fun v => div v (Np.sqrt eigenvector_norm))
                          (column ii eigenvectors))
                     eigenvectors)) acc s) = s.
Proof.
  induction n as [|n IH]; intros start acc s; [reflexivity|].
  simpl for_range_from. unfold bind at 1. unfold bind at 1.
  pose proof (get_Delta_store s) as HD.
  destruct (get_Delta s) as [[d|e] s0]; simpl in HD; subst s0.
  - cbn [ret]. apply IH.
  - reflexivity.
Qed.

Lemma norm_eigenvectors_store m s : snd (_norm_eigenvectors m s) = s.
Proof.
  unfold _norm_eigenvectors, bind, lift.
  destruct (size_row0 m) as [n|e]; [|reflexivity].
  apply norm_loop_store.
Qed.

Lemma write_hamiltonian_outcome s :
  let p := para s in
  let X := map Fin (grid (xMin p) (xMax p) (nPoints p)) in
  let delta := div (Fin (Rabs (xMax p - xMin p))) (Fin (IZR (nPoints p))) in
  match _write_hamiltonian s with
  | (Ok _, s1) =>
      (1 <= nPoints p)%Z
      /\ exists V,
          length V = Z.to_nat (nPoints p)
          /\ s1 = mkStore (set_Delta delta p)
                    (sinks s ++ [write_potential X V (directory p)])
  | (Raise e, s1) =>
      s1 = s
      \/ (nPoints p = 0%Z /\ e = ValueError
          /\ s1 = mkStore (set_Delta delta p)
                    (sinks s ++ [write_potential X [] (directory p)]))
  end.
Proof.
  intros p X delta.
  destruct (interpolate_potential s) as [[V|e] s0] eqn:HV.
  - destruct (interpolate_potential_Ok s V s0 HV) as (Hn & Hlen & Hs0).
    destruct (Z_lt_le_dec (nPoints p - 1) 0) as [Hneg|Hpos].
    + assert (H0 : nPoints p = 0%Z) by (unfold p in *; lia).
      assert (HVnil : V = []).
      { fold p in Hlen. rewrite H0 in Hlen. now destruct V. }
      unfold _write_hamiltonian. rewrite (bind_Ok _ _ s V s0 HV).
      rewrite Hs0. unfold bind, get_para, put_para, lift, ones, ret.
      cbn [para sinks]. fold p.
      replace (nPoints p - 1 <? 0)%Z with true
        by (symmetry; apply Z.ltb_lt; lia).
      right. subst V. repeat split; assumption.
    + rewrite (write_hamiltonian_run s V s0 HV) by (fold p; lia).
      split; [lia|]. exists V. split; [exact Hlen|].
      rewrite Hs0. reflexivity.
  - unfold _write_hamiltonian. rewrite (bind_Raise _ _ s e s0 HV).
    left. exact (interpolate_potential_Raise s e s0 HV).
Qed.

End Outcomes.

(** X1.  [interpolate_potential] leaves [para] alone and writes at most
    once: a run that raises has written nothing, and a run that returns has
    made one call of [write_potential], with the grid and with as many
    samples as the grid has points. *)
Theorem interpolate_potential_writes_once :
  forall (scipy : SciPy) (s : store),
    let p := para s in
    match interpolate_potential s with
    | (Raise _, s1) => s1 = s
    | (Ok V, s1) =>
        (0 <= nPoints p)%Z
        /\ length V = Z.to_nat (nPoints p)
        /\ para s1 = p
        /\ sinks s1
           = sinks s ++ [write_potential
                           (map Fin (grid (xMin p) (xMax p) (nPoints p)))
                           V (directory p)]
    end.
Proof.
  intros scipy s p.
  destruct (interpolate_potential s) as [[V|e] s1] eqn:H.
  - destruct (interpolate_potential_Ok s V s1 H) as (Hn & Hlen & ->).
    repeat split; assumption.
  - exact (interpolate_potential_Raise s e s1 H).
Qed.

Lemma solve_hamiltonian_Ok_inv (scipy : SciPy) (s : store) w v s' :
  let p := para s in
  let X := map Fin (grid (xMin p) (xMax p) (nPoints p)) in
  solve_hamiltonian s = (Ok (w, v), s') ->
  (1 <= nPoints p)%Z
  /\ para s' = set_Delta (Fin (spacing p)) p
  /\ exists V,
      length V = Z.to_nat (nPoints p)
      /\ sinks s'
         = sinks s ++ [write_potential X V (directory p);
                       write_eigenvalues w (directory p);
                       write_eigenvectors v X (directory p)].
Proof.
  intros p X Hrun.
  unfold solve_hamiltonian in Hrun.
  apply bind_Ok_inv in Hrun. destruct Hrun as ([dg off] & s1 & HW & Hrun).
  pose proof (write_hamiltonian_outcome s) as Hout. cbv zeta in Hout.
  rewrite HW in Hout. destruct Hout as (Hn & V & Hlen & Hs1).
  fold p in Hn, Hlen, Hs1.
  assert (Hdelta : div (Fin (Rabs (xMax p - xMin p))) (Fin (IZR (nPoints p)))
                   = Fin (spacing p)).
  { apply div_Fin. apply not_0_IZR. lia. }
  rewrite Hdelta in Hs1.
  apply bind_Ok_inv in Hrun. destruct Hrun as (p1 & s2 & Hp1 & Hrun).
  injection Hp1 as <- <-.
  apply bind_Ok_inv in Hrun. destruct Hrun as ([w0 v0] & s2 & Heig & Hrun).
  unfold lift in Heig. injection Heig as Heig <-.
  apply bind_Ok_inv in Hrun. destruct Hrun as (v1 & s2 & Hnorm & Hrun).
  pose proof (norm_eigenvectors_store v0 s1) as Hst.
  rewrite Hnorm in Hst. simpl in Hst. subst s2.
  revert Hrun. unfold bind, emit, lift, ret.
  rewrite Hs1. cbn [para sinks set_Delta xMin xMax nPoints directory].
  rewrite linspace_Fin by lia. fold X.
  intros [= <- <- <-]. cbn [para sinks].
  split; [exact Hn|]. split; [reflexivity|].
  exists V. split; [exact Hlen|].
  rewrite <- !app_assoc. reflexivity.
Qed.

(** X2.  A run of [solve_hamiltonian] that returns has made exactly three
    sink calls, in this order: the potential, the eigenvalues it returns,
    and the eigenvectors it returns together with the grid that went with
    the potential.  It has stored the finite spacing
    [|xMax - xMin| / nPoints] as ['Delta'] and changed nothing else of
    [para]. *)
Theorem solve_hamiltonian_writes_what_it_returns :
  forall (scipy : SciPy) (s : store),
    let p := para s in
    let X := map Fin (grid (xMin p) (xMax p) (nPoints p)) in
    match solve_hamiltonian s with
    | (Ok (w, v), s') =>
        (1 <= nPoints p)%Z
        /\ para s' = set_Delta (Fin (spacing p)) p
        /\ exists V,
            length V = Z.to_nat (nPoints p)
            /\ sinks s'
               = sinks s ++ [write_potential X V (directory p);
                             write_eigenvalues w (directory p);
                             write_eigenvectors v X (directory p)]
    | (Raise _, _) => True
    end.
Proof.
  intros scipy s p X.
  destruct (solve_hamiltonian s) as [[[w v]|e] s'] eqn:Hrun; [|exact I].
  exact (solve_hamiltonian_Ok_inv scipy s w v s' Hrun).
Qed.

(** X3.  A run of [solve_hamiltonian] that raises has written nothing, or
    the potential alone: eigenvalues and eigenvectors are never written by
    a failed run, while the potential (and ['Delta']) of a run whose
    eigensolver or normalizer fails stay behind. *)
Theorem solve_hamiltonian_failure_sinks :
  forall (scipy : SciPy) (s : store),
    let p := para s in
    let X := map Fin (grid (xMin p) (xMax p) (nPoints p)) in
    match solve_hamiltonian s with
    | (Ok _, _) => True
    | (Raise _, s') =>
        s' = s
        \/ exists V,
            sinks s' = sinks s ++ [write_potential X V (directory p)]
            /\ exists d, para s' = set_Delta d p
    end.
Proof.
  intros scipy s p X.
  destruct (solve_hamiltonian s) as [[wv|e] s'] eqn:Hrun; [exact I|].
  unfold solve_hamiltonian in Hrun.
  pose proof (write_hamiltonian_outcome s) as Hout. cbv zeta in Hout.
  fold p X in Hout.
  unfold bind at 1 in Hrun.
  destruct (_write_hamiltonian s) as [[[dg off]|e0] s1].
  - destruct Hout as (Hn & V & Hlen & Hs1). right. exists V.
    unfold bind at 1 in Hrun. unfold get_para at 1 in Hrun.
    unfold bind at 1 in Hrun. unfold lift at 1 in Hrun.
    destruct (eigh_tridiagonal _ _ _ _ _) as [[w0 v0]|e1].
    + unfold bind at 1 in Hrun.
      pose proof (norm_eigenvectors_store v0 s1) as Hst.
      destruct (_norm_eigenvectors v0 s1) as [[v1|e2] s2]; simpl in Hst;
        subst s2.
      * exfalso. revert Hrun. unfold bind, emit, lift, ret.
        rewrite Hs1. cbn [para sinks set_Delta xMin xMax nPoints directory].
        rewrite linspace_Fin by (fold p; lia). discriminate.
      * injection Hrun as _ <-. rewrite Hs1. cbn [para sinks].
        split; [reflexivity | eexists; reflexivity].
    + injection Hrun as _ <-. rewrite Hs1. cbn [para sinks].
      split; [reflexivity | eexists; reflexivity].
  - injection Hrun as _ <-.
    destruct Hout as [->|(H0 & _ & ->)]; [now left|].
    right. exists []. cbn [para sinks].
    split; [reflexivity | eexists; reflexivity].
Qed.

(** ** Errors of the normalizer and of the observables stage *)

Lemma get_Delta_None s :
  Delta (para s) = None -> get_Delta s = (Raise KeyError, s).
Proof.
  intros H. unfold get_Delta, bind, get_para, raise. now rewrite H.
Qed.

(** X5.  On a rectangular array the normalizer raises in two cases only: an
    array without rows (IndexError, from [eigenvectors[0]]) and an array
    with at least one column while ['Delta'] is missing (KeyError).  An
    array without columns is returned as it is, ['Delta'] or not; in every
    other case the result has the shape of the argument.  The store is
    never changed. *)
Theorem norm_eigenvectors_outcome :
  forall (s : store) (r k : nat) (m : matrix),
    rect r k m ->
    (r = 0%nat -> _norm_eigenvectors m s = (Raise IndexError, s))
    /\ ((0 < r)%nat -> (0 < k)%nat -> Delta (para s) = None ->
        _norm_eigenvectors m s = (Raise KeyError, s))
    /\ ((0 < r)%nat -> k = 0%nat -> _norm_eigenvectors m s = (Ok m, s))
    /\ ((0 < r)%nat -> forall d, Delta (para s) = Some d ->
        exists m', _norm_eigenvectors m s = (Ok m', s) /\ rect r k m').
Proof.
  intros s r k m Hrect. split; [|split; [|split]].
  - intros ->. destruct Hrect as [Hlen _]. destruct m; [reflexivity|].
    discriminate.
  - intros Hr Hk HD. destruct Hrect as [Hlen Hrows].
    destruct m as [|row m]; [simpl in Hlen; lia|].
    inversion Hrows as [|? ? Hrow _]; subst.
    unfold _norm_eigenvectors, bind at 1, lift. cbn [size_row0].
    destruct (length row) as [|k']; [lia|].
    unfold for_range. cbn [for_range_from].
    erewrite bind_Raise; [reflexivity|].
    erewrite bind_Raise; [reflexivity|].
    now apply get_Delta_None.
  - intros Hr ->. destruct Hrect as [Hlen Hrows].
    destruct m as [|row m]; [simpl in Hlen; lia|].
    inversion Hrows as [|? ? Hrow _]; subst.
    unfold _norm_eigenvectors, bind at 1, lift. cbn [size_row0].
    rewrite Hrow. reflexivity.
  - intros Hr d HD. destruct r as [|r]; [lia|].
    destruct (norm_eigenvectors_columns r k d s m HD Hrect)
      as (m' & Hrun & Hrect' & _).
    exists m'. split; assumption.
Qed.

Lemma norm_eigenvectors_outcome_witness :
  _norm_eigenvectors node_3pt store_3pt = (Raise KeyError, store_3pt).
Proof.
  destruct (norm_eigenvectors_outcome store_3pt 3 1 node_3pt rect_node_3pt)
    as (_ & H & _).
  apply H; [lia | lia | reflexivity].
Defined.

Lemma expectation_loop_outcome (d : num) (x_i : list num) (m : matrix)
      (s : store) :
  forall cnt start e e2 u,
    match
      for_range_from start cnt
        (fun ii '(expval, expval_squared, uncertainty) =>
           '(e, e2, u) <- lift (observables_of_column d x_i m ii) ;;
           ret (list_set ii e expval, list_set ii e2 expval_squared,
                list_set ii u uncertainty))
        (e, e2, u) s
    with
    | (Raise _, s') => s' = s
    | (Ok (e', _, u'), s') =>
        s' = s /\ length e' = length e /\ length u' = length u
    end.
Proof.
  induction cnt as [|cnt IH]; intros start e e2 u.
  - simpl. repeat split.
  - simpl for_range_from. unfold bind at 1. unfold bind at 1.
    unfold lift at 1.
    destruct (observables_of_column d x_i m start) as [[[a b] c]|err];
      [|reflexivity].
    cbn [ret].
    specialize (IH (S start) (list_set start a e) (list_set start b e2)
                   (list_set start c u)).
    destruct (for_range_from _ _ _ _ _) as [[[[e' e2'] u']|err] s'];
      [|exact IH].
    rewrite !length_list_set in IH. exact IH.
Qed.

(** X6.  [expectation_values] never touches [para] and writes at most once:
    a run that raises has written nothing, and a run that returns has made
    one call of [write_expectation_values], with one expectation value and
    one uncertainty for each column of the array. *)
Theorem expectation_values_writes_once :
  forall (m : matrix) (s : store),
    match expectation_values m s with
    | (Raise _, s') => s' = s
    | (Ok _, s') =>
        para s' = para s
        /\ exists expval uncertainty,
            sinks s'
            = sinks s ++ [write_expectation_values expval uncertainty
                            (directory (para s))]
            /\ size_row0 m = Ok (length expval)
            /\ length uncertainty = length expval
    end.
Proof.
  intros m s. unfold expectation_values.
  unfold bind at 1. unfold lift at 1.
  destruct (size_row0 m) as [n|err]; [|reflexivity].
  unfold bind at 1.
  pose proof (get_Delta_store s) as HD.
  destruct (get_Delta s) as [[d|err] s0]; simpl in HD; subst s0;
    [|reflexivity].
  unfold bind at 1. unfold get_para at 1.
  unfold bind at 1. unfold lift at 1.
  destruct (linspace _ _ _) as [x_i|err]; [|reflexivity].
  unfold bind at 1. unfold for_range.
  pose proof (expectation_loop_outcome d x_i m s n 0%nat
                (zeros n) (zeros n) (zeros n)) as Hloop.
  destruct (for_range_from _ _ _ _ _) as [[[[e e2] u]|err] s'];
    [|exact Hloop].
  destruct Hloop as (-> & Le & Lu).
  unfold emit. cbn [para sinks]. split; [reflexivity|].
  exists e, u. unfold zeros in Le, Lu. rewrite repeat_length in Le, Lu.
  split; [reflexivity|]. split; [now rewrite Le | now rewrite Le, Lu].
Qed.

(** X7.  The observables stage depends on the ['Delta'] that the
    Hamiltonian builder leaves in [para]: on a dictionary without it the
    stage raises KeyError for every array with at least one row, even one
    without columns, and writes nothing. *)
Theorem expectation_values_needs_Delta :
  forall (s : store) (row : list num) (m : matrix),
    Delta (para s) = None ->
    expectation_values (row :: m) s = (Raise KeyError, s).
Proof.
  intros s row m HD. unfold expectation_values.
  unfold bind at 1. unfold lift at 1. cbn [size_row0].
  erewrite bind_Raise; [reflexivity|]. now apply get_Delta_None.
Qed.

Lemma expectation_values_needs_Delta_witness :
  expectation_values node_3pt store_3pt = (Raise KeyError, store_3pt).
Proof.
  exact (expectation_values_needs_Delta store_3pt [Fin 1]
           [[Fin 0]; [Fin (-1)]] eq_refl).
Defined.

Lemma length_set_last {A} (v : A) (l : list A) :
  length (set_last v l) = length l.
Proof.
  destruct l as [|x l]; [reflexivity|]. unfold set_last.
  rewrite length_app, removelast_firstn_len, length_firstn. simpl. lia.
Qed.

Lemma length_linspace (a b : num) (n : Z) (l : list num) :
  linspace a b n = Ok l -> length l = Z.to_nat n.
Proof.
  unfold linspace. destruct (n <? 0)%Z; [discriminate|]. intros [= <-].
  destruct (1 <? n)%Z; [rewrite length_set_last|];
    destruct (0 <? n - 1)%Z; now rewrite !length_map, length_seq.
Qed.

Lemma np_mul_mismatch (a b : list num) :
  length a <> length b -> length a <> 1%nat -> length b <> 1%nat ->
  np_mul a b = Raise ValueError.
Proof.
  intros Hab Ha Hb. unfold np_mul.
  replace (Nat.eqb (length a) (length b)) with false
    by (symmetry; now apply Nat.eqb_neq).
  destruct a as [|x [|x' a]]; [| simpl in Ha; lia |];
    (destruct b as [|y [|y' b]]; [reflexivity | simpl in Hb; lia | reflexivity]).
Qed.

(** X8.  An eigenvector array whose number of rows does not fit [nPoints]
    is rejected by numpy's broadcasting, not by a check of the stage: with
    at least one column, [rows - 2] interior samples against
    [nPoints - 2] coordinates raises ValueError, nothing written, unless
    the two numbers agree or one of them is 1. *)
Theorem expectation_values_shape_mismatch :
  forall (s : store) (d : num) (r k : nat) (m : matrix),
    Delta (para s) = Some d ->
    rect (S r) (S k) m ->
    (2 <= nPoints (para s))%Z ->
    (S r - 2 <> Z.to_nat (nPoints (para s) - 2))%nat ->
    (S r - 2 <> 1)%nat ->
    (Z.to_nat (nPoints (para s) - 2) <> 1)%nat ->
    expectation_values m s = (Raise ValueError, s).
Proof.
  intros s d r k m HD Hrect Hn Hne Ha Hb.
  destruct Hrect as [Hlen Hrows].
  destruct m as [|row m]; [discriminate|].
  inversion Hrows as [|? ? Hrow _]; subst.
  unfold expectation_values.
  unfold bind at 1. unfold lift at 1. cbn [size_row0]. rewrite Hrow.
  rewrite (bind_Ok _ _ s d s (get_Delta_Some s d HD)).
  unfold bind at 1. unfold get_para at 1.
  unfold bind at 1. unfold lift at 1.
  destruct (linspace _ _ _) as [x_i|err] eqn:Hx.
  - pose proof (length_linspace _ _ _ _ Hx) as Hxl.
    unfold for_range. cbn [for_range_from].
    unfold bind at 1. unfold bind at 1. unfold bind at 1. unfold lift at 1.
    unfold observables_of_column.
    rewrite np_mul_mismatch; [reflexivity| | |];
      rewrite ?length_map, ?length_interior, ?length_column, ?Hlen, ?Hxl;
      assumption.
  - exfalso. revert Hx. unfold linspace.
    replace (nPoints (para s) - 2 <? 0)%Z with false
      by (symmetry; apply Z.ltb_ge; lia).
    discriminate.
Qed.

Lemma rect_seven_rows : rect 7 1 seven_rows.
Proof. split; [reflexivity | repeat constructor]. Qed.

Lemma expectation_values_shape_mismatch_witness :
  expectation_values seven_rows store_5pt = (Raise ValueError, store_5pt).
Proof.
  apply (expectation_values_shape_mismatch store_5pt (Fin 1) 6 0 seven_rows
           eq_refl rect_seven_rows); simpl; lia.
Defined.

(** ** The stages in sequence *)

(** The linear interpolation of the three-point run, whatever the mass,
    the index range and the library routines. *)
Lemma interpolate_potential_3pt_with (scipy : SciPy) (m : R) (first last : Z) :
  interpolate_potential (mkStore (para_3pt_with m first last) [])
  = (Ok potential_3pt,
     mkStore (para_3pt_with m first last) sinks_potential_3pt).
Proof.
  unfold interpolate_potential, bind, get_para, lift, emit, ret.
  cbn [para sinks para_3pt_with xMin xMax nPoints interpolation_type
       interpolation_points_x interpolation_points_y directory].
  rewrite linspace_Fin by lia.
  unfold sinks_potential_3pt. rewrite grid_3pt.
  decide_reals. unfold interp1d_call, below_bounds, above_bounds, ltb.
  decide_reals. reflexivity.
Qed.

(** X4.  An index range that the eigensolver refuses is found out only
    there: when the builder has succeeded and [eigh_tridiagonal] raises,
    [solve_hamiltonian] raises the same exception, after the potential has
    been written and ['Delta'] stored. *)
Theorem eigensolver_failure_after_potential :
  forall (scipy : SciPy) (s s1 : store) (dg off : list num) (e : exn),
    let p := para s in
    _write_hamiltonian s = (Ok (dg, off), s1) ->
    eigh_tridiagonal dg off false "i"
      ((first_eigenvalue p - 1)%Z, (last_eigenvalue p - 1)%Z) = Raise e ->
    solve_hamiltonian s = (Raise e, s1)
    /\ para s1 = set_Delta (Fin (spacing p)) p
    /\ exists V,
        sinks s1
        = sinks s ++ [write_potential
                        (map Fin (grid (xMin p) (xMax p) (nPoints p)))
                        V (directory p)].
Proof.
  intros scipy s s1 dg off e p HW He.
  pose proof (write_hamiltonian_outcome s) as Hout. cbv zeta in Hout.
  rewrite HW in Hout. destruct Hout as (Hn & V & _ & Hs1). fold p in Hs1, Hn.
  rewrite div_Fin in Hs1 by (apply not_0_IZR; lia). fold (spacing p) in Hs1.
  split; [|split].
  - unfold solve_hamiltonian. rewrite (bind_Ok _ _ s (dg, off) s1 HW).
    unfold bind at 1. unfold get_para at 1.
    unfold bind at 1. unfold lift at 1.
    rewrite Hs1 at 1 2. cbn [para first_eigenvalue last_eigenvalue set_Delta].
    fold p. now rewrite He.
  - now rewrite Hs1.
  - exists V. now rewrite Hs1.
Qed.

Lemma eigensolver_failure_after_potential_witness :
  @solve_hamiltonian scipy_strict_3pt (mkStore (para_3pt_with (1 / 2) 1 4) [])
  = (Raise ValueError,
     mkStore (set_Delta (Fin (spacing (para_3pt_with (1 / 2) 1 4)))
                (para_3pt_with (1 / 2) 1 4))
             sinks_potential_3pt).
Proof.
  pose proof (write_hamiltonian_run
                (mkStore (para_3pt_with (1 / 2) 1 4) []) _ _
                (interpolate_potential_3pt_with scipy_strict_3pt (1 / 2) 1 4)
                ltac:(simpl; lia)) as HW.
  cbv zeta in HW.
  destruct (eigensolver_failure_after_potential scipy_strict_3pt _ _ _ _
              ValueError HW eq_refl) as (Hrun & _ & _).
  rewrite Hrun. f_equal. cbn [para sinks para_3pt_with xMin xMax nPoints].
  f_equal. f_equal. unfold spacing. cbn [xMin xMax nPoints para_3pt_with].
  apply div_Fin. lra.
Defined.

Lemma observables_of_column_total_values d x_i m c :
  length (interior (column c m)) = length x_i ->
  observables_of_column d x_i m c
  = Ok (match observables_of_column d x_i m c with
        | Ok t => t
        | Raise _ => (NaN, NaN, NaN)
        end).
Proof.
  intros H.
  destruct (observables_of_column_total d x_i m c H) as [t ->]. reflexivity.
Qed.

(** X9.  The stages compose: after a run of [solve_hamiltonian] that
    returned an array of [nPoints >= 2] rows, [expectation_values] on that
    array and on the store the run left behind does not raise; it finds
    ['Delta'] and makes the fourth sink call, with one pair for each
    eigenvector. *)
Theorem observables_after_solve :
  forall (scipy : SciPy) (s s' : store) (w : list num) (v : matrix) (k : nat),
    let p := para s in
    solve_hamiltonian s = (Ok (w, v), s') ->
    rect (Z.to_nat (nPoints p)) k v ->
    (2 <= nPoints p)%Z ->
    exists expval uncertainty,
      expectation_values v s'
      = (Ok tt,
         mkStore (para s')
           (sinks s' ++ [write_expectation_values expval uncertainty
                           (directory p)]))
      /\ length expval = k /\ length uncertainty = k.
Proof.
  intros scipy s s' w v k p Hrun Hrect Hn.
  destruct (solve_hamiltonian_Ok_inv scipy s w v s' Hrun) as (_ & Hp' & _).
  fold p in Hp'.
  assert (Hrows : exists r, Z.to_nat (nPoints p) = S r)
    by (exists (Z.to_nat (nPoints p) - 1)%nat; lia).
  destruct Hrows as [r Hr]. rewrite Hr in Hrect.
  set (dl := spacing p) in *.
  set (X := grid (xMin p + dl) (xMax p - dl) (nPoints p - 2)).
  assert (HD : Delta (para s') = Some (Fin dl)) by (now rewrite Hp').
  assert (Hx : linspace (add (Fin (xMin (para s'))) (Fin dl))
                        (sub (Fin (xMax (para s'))) (Fin dl))
                        (nPoints (para s') - 2) = Ok (map Fin X)).
  { rewrite Hp'. cbn [set_Delta xMin xMax nPoints].
    apply (linspace_Fin (xMin p + dl) (xMax p - dl)). lia. }
  destruct (expectation_values_run s' (Fin dl) r k v (map Fin X)
              (fun ii => match observables_of_column (Fin dl) (map Fin X) v ii
                         with
                         | Ok t => t
                         | Raise _ => (NaN, NaN, NaN)
                         end) HD Hrect Hx)
    as (e & u & Hev & Le & Lu & _).
  - intros ii _. apply observables_of_column_total_values.
    rewrite length_interior, length_column, length_map. unfold X.
    rewrite length_grid. destruct Hrect as [-> _]. lia.
  - exists e, u. rewrite Hev, Hp'. cbn [set_Delta directory].
    repeat split; assumption.
Qed.

Lemma solve_hamiltonian_3pt_shape :
  exists w v s',
    @solve_hamiltonian scipy_3pt store_3pt = (Ok (w, v), s') /\ rect 3 3 v.
Proof.
  set (raw := band_vectors 3 spectrum_3pt).
  assert (Hrect : rect 3 3 raw) by (split; [reflexivity | repeat constructor]).
  destruct (norm_eigenvectors_columns 2 3 (Fin 1)
              (mkStore (set_Delta (Fin 1) para_3pt) sinks_potential_3pt)
              raw eq_refl Hrect)
    as (v & Hrun & Hrect' & _).
  eexists _, v, _. split; [|exact Hrect'].
  apply (solve_hamiltonian_run store_3pt _ _ _ _ raw v write_hamiltonian_3pt);
    [reflexivity | exact Hrun].
Qed.

Lemma observables_after_solve_witness :
  exists w v s' expval uncertainty,
    @solve_hamiltonian scipy_3pt store_3pt = (Ok (w, v), s')
    /\ expectation_values v s'
       = (Ok tt,
          mkStore (para s')
            (sinks s' ++ [write_expectation_values expval uncertainty "."]))
    /\ length expval = 3%nat.
Proof.
  destruct solve_hamiltonian_3pt_shape as (w & v & s' & Hrun & Hrect).
  destruct (observables_after_solve scipy_3pt store_3pt s' w v 3 Hrun Hrect)
    as (e & u & Hev & Le & _).
  - simpl. lia.
  - exists w, v, s', e, u. repeat split; assumption.
Defined.

(** ** Edges of the Hamiltonian builder *)

(** X10.  With [nPoints = 0] whatever interpolation succeeds returns no
    sample, and the builder then fails in [np.ones(-1)] with a ValueError,
    after the empty potential has been written and a ['Delta'] that is not
    finite, [|xMax - xMin| / 0], has been stored. *)
Theorem write_hamiltonian_no_points :
  forall (scipy : SciPy) (s s1 : store) (V : list num),
    let p := para s in
    let d := scale_inf (Rabs (xMax p - xMin p)) PInf in
    interpolate_potential s = (Ok V, s1) ->
    nPoints p = 0%Z ->
    V = []
    /\ ~ is_fin d
    /\ _write_hamiltonian s
       = (Raise ValueError,
          mkStore (set_Delta d p)
                  (sinks s ++ [write_potential [] [] (directory p)])).
Proof.
  intros scipy s s1 V p d HV H0.
  destruct (interpolate_potential_Ok s V s1 HV) as (_ & Hlen & Hs1).
  fold p in Hlen, Hs1. rewrite H0 in Hlen, Hs1.
  assert (HVnil : V = []) by (now destruct V).
  split; [exact HVnil|]. split; [apply scale_inf_PInf_not_fin|].
  unfold _write_hamiltonian. rewrite (bind_Ok _ _ s V s1 HV).
  rewrite Hs1, HVnil. unfold bind, get_para, put_para, lift, ones, ret.
  cbn [para sinks]. fold p. rewrite H0.
  cbn [Z.sub Z.add Z.opp Z.ltb Z.compare Z.pos_sub].
  unfold div. destruct (Req_dec_T (IZR 0) 0) as [_|Hne]; [|now elim Hne].
  reflexivity.
Qed.

Lemma interpolate_potential_0pt :
  @interpolate_potential scipy_3pt (mkStore para_0pt [])
  = (Ok [], mkStore para_0pt [write_potential [] [] "."]).
Proof.
  unfold interpolate_potential, bind, get_para, lift, emit, ret.
  cbn [para sinks para_0pt xMin xMax nPoints interpolation_type
       interpolation_points_x interpolation_points_y directory].
  rewrite linspace_Fin by lia. decide_reals. reflexivity.
Qed.

Lemma write_hamiltonian_no_points_witness :
  @_write_hamiltonian scipy_3pt (mkStore para_0pt [])
  = (Raise ValueError,
     mkStore (set_Delta (scale_inf (Rabs (3 - 0)) PInf) para_0pt)
             [write_potential [] [] "."]).
Proof.
  exact (proj2 (proj2 (write_hamiltonian_no_points scipy_3pt _ _ _
                         interpolate_potential_0pt eq_refl))).
Defined.

(** X11.  A mass of zero or a grid of zero width is not rejected: for a
    finite potential on at least one point the builder returns normally,
    with a diagonal that is one infinity throughout and an off-diagonal
    that is the opposite infinity, and these go on to the eigensolver.
    Which infinity the diagonal holds follows the sign of the float zero
    [mass * delta**2], which the exact reals do not carry; on a grid of
    zero width with a positive mass that zero is [+0.0] and the diagonal
    is [inf]. *)
Theorem write_hamiltonian_infinite :
  forall (scipy : SciPy) (s s1 : store) (VR : list R),
    let p := para s in
    interpolate_potential s = (Ok (map Fin VR), s1) ->
    (1 <= nPoints p)%Z ->
    mass p = 0 \/ xMax p = xMin p ->
    exists i,
      (i = PInf \/ i = NInf)
      /\ (xMax p = xMin p -> 0 < mass p -> i = PInf)
      /\ _write_hamiltonian s
         = (Ok (map (fun _ => i) VR,
                repeat (neg i) (Z.to_nat (nPoints p - 1))),
            mkStore (set_Delta (Fin (spacing p)) p) (sinks s1)).
Proof.
  intros scipy s s1 VR p HV Hn Hz.
  exists PInf. split; [now left|]. split; [reflexivity|].
  rewrite (write_hamiltonian_run s _ s1 HV Hn). fold p.
  assert (Hnz : IZR (nPoints p) <> 0) by (apply not_0_IZR; lia).
  rewrite div_Fin by assumption. fold (spacing p).
  assert (Hzero : mass p * (spacing p * spacing p) = 0).
  { destruct Hz as [Hm|Hx]; [rewrite Hm; ring|].
    unfold spacing. rewrite Hx, Rminus_diag, Rabs_R0. unfold Rdiv. ring. }
  assert (Haa : div (Fin 1) (mul (Fin (mass p)) (sq (Fin (spacing p)))) = PInf).
  { cbn [sq mul]. unfold div. rewrite Hzero.
    destruct (Req_dec_T 0 0) as [_|Hne]; [|now elim Hne].
    unfold scale_inf. destruct (Rlt_dec 0 1); [reflexivity | lra]. }
  rewrite Haa.
  assert (Hd : map (add PInf) (map Fin VR) = map (fun _ => PInf) VR).
  { rewrite map_map. apply map_ext. reflexivity. }
  assert (Ho : forall n, map (mul (div (neg PInf) (Fin 2))) (repeat (Fin 1) n)
                         = repeat NInf n).
  { intros n. rewrite map_repeat. f_equal. cbn [neg div].
    destruct (Rlt_dec 2 0); [lra|]. cbn [mul]. unfold scale_inf.
    destruct (Rlt_dec 0 1); [reflexivity | lra]. }
  now rewrite Hd, Ho.
Qed.

Lemma write_hamiltonian_infinite_witness :
  exists i,
    (i = PInf \/ i = NInf)
    /\ @_write_hamiltonian scipy_3pt (mkStore (para_3pt_with 0 1 3) [])
       = (Ok ([i; i; i], [neg i; neg i]),
          mkStore (set_Delta (Fin (spacing (para_3pt_with 0 1 3)))
                     (para_3pt_with 0 1 3))
                  sinks_potential_3pt).
Proof.
  destruct (write_hamiltonian_infinite scipy_3pt
              (mkStore (para_3pt_with 0 1 3) []) _ [-1; 0; -1]
              (interpolate_potential_3pt_with scipy_3pt 0 1 3)
              ltac:(simpl; lia) (or_introl eq_refl))
    as (i & Hi & _ & Hrun).
  exists i. split; [exact Hi | exact Hrun].
Defined.

(** ** The interpolation methods *)

(** From the first knot on, the interpolant stays between the smallest and
    the largest ordinate. *)
Lemma np_interp_between (knots : list (R * R)) (lo hi x : R) :
  knots_increasing knots -> knots <> [] ->
  Forall (fun k => lo <= snd k <= hi) knots ->
  fst (hd (0, 0) knots) <= x ->
  exists r, np_interp knots x = Fin r /\ lo <= r <= hi.
Proof.
  induction 1 as [|[x0 y0] knots Hs IH Hk]; intros Hne Hy Hx;
    [contradiction|].
  inversion Hy as [|? ? Hy0 Hrest]; subst. cbn [snd] in Hy0.
  cbn [np_interp]. destruct knots as [|[x1 y1] rest].
  - exists y0. split; [reflexivity | assumption].
  - inversion Hk as [|? ? H01 _]; subst. cbn [fst] in H01.
    inversion Hrest as [|? ? Hy1 _]; subst. cbn [snd] in Hy1.
    cbn [hd fst] in Hx.
    destruct (Rlt_dec x x1) as [Hlt|Hge].
    + destruct (Req_dec_T x x0) as [_|Hneq].
      * exists y0. split; [reflexivity | assumption].
      * rewrite div_Fin by lra. cbn [mul add].
        eexists. split; [reflexivity|].
        set (t := (x - x0) / (x1 - x0)).
        assert (Ht : 0 <= t <= 1).
        { unfold t. split.
          - apply Rmult_le_pos; [lra|].
            apply Rlt_le, Rinv_0_lt_compat. lra.
          - apply (Rmult_le_reg_r (x1 - x0)); [lra|].
            unfold Rdiv. rewrite Rmult_assoc, Rinv_l by lra. lra. }
        replace ((y1 - y0) / (x1 - x0) * (x - x0) + y0)
          with (y0 + t * (y1 - y0)) by (unfold t; field; lra).
        split; nra.
    + apply IH; [discriminate | assumption | cbn [hd fst]; lra].
Qed.

Lemma existsb_false_Forall {A} (f : A -> bool) (l : list A) :
  existsb f l = false -> Forall (fun x => f x = false) l.
Proof.
  induction l as [|x l IH]; simpl; [constructor|].
  intros H. apply orb_false_iff in H. destruct H. constructor; auto.
Qed.

(** X12.  Linear interpolation does not overshoot: on control points with
    strictly increasing abscissae every sample that the stage returns is
    finite and lies between the smallest and the largest control
    ordinate. *)
Theorem linear_potential_within_ordinates :
  forall (scipy : SciPy) (s s1 : store) (V : list num) (lo hi : R),
    let p := para s in
    let xs := interpolation_points_x p in
    let ys := interpolation_points_y p in
    interpolation_type p = "linear"%string ->
    strictly_increasing xs -> length xs = length ys -> xs <> [] ->
    Forall (fun y => lo <= y <= hi) ys ->
    interpolate_potential s = (Ok V, s1) ->
    Forall (fun v => exists r, v = Fin r /\ lo <= r <= hi) V.
Proof.
  intros scipy s s1 V lo hi p xs ys Ht Hs Hl Hne Hy HV.
  destruct (interpolate_potential_Ok s V s1 HV) as (Hn & _ & _).
  pose proof (interpolate_potential_linear s Ht Hs Hl Hne Hn) as Hrun.
  cbv zeta in Hrun. fold p xs ys in Hrun. rewrite HV in Hrun.
  set (X := grid (xMin p) (xMax p) (nPoints p)) in *.
  destruct (existsb (below_bounds (combine xs ys)) (map Fin X)) eqn:Eb;
    [discriminate|].
  destruct (existsb (above_bounds (combine xs ys)) (map Fin X));
    [discriminate|].
  cbn [orb] in Hrun. injection Hrun as -> _.
  apply existsb_false_Forall in Eb.
  apply Forall_forall. intros v Hv.
  apply in_map_iff in Hv. destruct Hv as (g & <- & Hg).
  assert (Hknots : combine xs ys <> []).
  { destruct xs; [contradiction|]. destruct ys; discriminate. }
  destruct (np_interp_between (combine xs ys) lo hi g) as (r & Hr & Hb).
  - now apply knots_of_control_points.
  - exact Hknots.
  - apply Forall_forall. intros [a b] Hin. simpl.
    apply in_combine_r in Hin. rewrite Forall_forall in Hy. now apply Hy.
  - rewrite Forall_forall in Eb.
    specialize (Eb (Fin g) (in_map Fin X g Hg)).
    destruct (combine xs ys) as [|[x0 y0] rest]; [contradiction|].
    cbn [below_bounds] in Eb. cbn [hd fst].
    destruct (Rle_dec x0 g) as [|Hgt]; [assumption|].
    exfalso. assert (Hlt : ltb (Fin g) (Fin x0) = true)
      by (apply ltb_Fin; lra).
    congruence.
  - exists r. split; [exact Hr | exact Hb].
Qed.

Lemma linear_potential_within_ordinates_witness :
  Forall (fun v => exists r, v = Fin r /\ -1 <= r <= 0) potential_3pt.
Proof.
  apply (linear_potential_within_ordinates scipy_3pt store_3pt
           (mkStore para_3pt sinks_potential_3pt) potential_3pt (-1) 0
           eq_refl increasing_control_points_3pt eq_refl).
  - discriminate.
  - simpl. repeat constructor; lra.
  - exact interpolate_potential_3pt.
Defined.

Lemma poly1d_Fin (c : list R) (x : R) :
  poly1d (map Fin c) (Fin x) = Fin (horner c x).
Proof.
  unfold poly1d, horner. generalize 0.
  induction c as [|ck c IH]; intros acc; [reflexivity|].
  simpl. apply IH.
Qed.

(** X13.  The polynomial method has no bounds check: with the coefficients
    that [np.polyfit] returns for the degree
    [interpolation_points_number - 1], the stage returns the value of that
    polynomial at every grid point, inside or outside the support of the
    control points, and writes it. *)
Theorem polynomial_potential_is_horner :
  forall (scipy : SciPy) (s : store) (c : list R),
    let p := para s in
    let X := grid (xMin p) (xMax p) (nPoints p) in
    let V := map (fun g => Fin (horner c g)) X in
    interpolation_type p = "polynomial"%string ->
    (0 <= nPoints p)%Z ->
    polyfit (interpolation_points_x p) (interpolation_points_y p)
            (interpolation_points_number p - 1) = Ok (map Fin c) ->
    interpolate_potential s
    = (Ok V,
       mkStore p (sinks s ++ [write_potential (map Fin X) V (directory p)])).
Proof.
  intros scipy s c p X V Ht Hn Hfit.
  unfold interpolate_potential, bind, get_para, lift, emit, ret, raise.
  fold p. rewrite linspace_Fin by assumption. fold X.
  rewrite Ht. cbn [String.eqb Ascii.eqb Bool.eqb].
  rewrite Hfit. cbn [rbind call_interpolant].
  assert (HV : map (poly1d (map Fin c)) (map Fin X) = V).
  { unfold V. rewrite map_map. apply map_ext. intros g. apply poly1d_Fin. }
  now rewrite HV.
Qed.

Lemma polynomial_potential_is_horner_witness :
  @interpolate_potential scipy_parabola (mkStore para_parabola [])
  = (Ok (map (fun g => Fin (horner [1; 0; 0] g)) (grid (-1) 3 5)),
     mkStore para_parabola
       [write_potential (map Fin (grid (-1) 3 5))
          (map (fun g => Fin (horner [1; 0; 0] g)) (grid (-1) 3 5)) "."]).
Proof.
  apply (polynomial_potential_is_horner scipy_parabola
           (mkStore para_parabola []) [1; 0; 0] eq_refl).
  - simpl. lia.
  - reflexivity.
Defined.

(** ** test_solver.py *)

Lemma np_sub_Fin (a b : list R) :
  length a = length b ->
  np_sub (map Fin a) (map Fin b)
  = Ok (map Fin (map (fun ab => fst ab - snd ab) (combine a b))).
Proof.
  intros H. unfold np_sub. rewrite !length_map, H, Nat.eqb_refl. f_equal.
  revert b H. induction a as [|x a IH]; intros [|y b] H; simpl in *;
    try discriminate; [reflexivity|].
  f_equal. apply IH. lia.
Qed.

Lemma all_below_Fin (tol : R) (a b : list R) :
  length a = length b ->
  (all_below (map Fin (map (fun ab => fst ab - snd ab) (combine a b)))
             (Fin tol) = true
   <-> Forall2 (fun r v => r - v < tol) a b).
Proof.
  revert b. induction a as [|x a IH]; intros [|y b] H; simpl in *;
    try discriminate.
  - split; [constructor | reflexivity].
  - rewrite andb_true_iff, IH by lia. split.
    + intros [Hx Hf]. constructor; [|assumption].
      destruct (Rlt_dec (x - y) tol); [assumption | discriminate].
    + intros HF. inversion HF; subst. split; [|assumption].
      destruct (Rlt_dec (x - y) tol); [reflexivity | contradiction].
Qed.

Lemma Forall2_below (tol : R) (a b : list R) :
  0 < tol -> Forall2 Rle a b -> Forall2 (fun r v => r - v < tol) a b.
Proof.
  intros Ht. induction 1; constructor; [lra | assumption].
Qed.

(** X14.  The check of [test_potential] is one-sided.  For a finite
    potential and a reference of the same length the test passes exactly
    when every [ref_pot[i] - test_pot[i]] is below [1e-10]: a computed
    potential that is not below the reference passes, however far above
    it. *)
Theorem test_potential_one_sided :
  forall (scipy : SciPy) (s s1 : store) (VR Rf : list R),
    interpolate_potential s = (Ok (map Fin VR), s1) ->
    length Rf = length VR ->
    (test_potential (map Fin Rf) s = (Passed, s1)
     <-> Forall2 (fun r v => r - v < 1e-10) Rf VR)
    /\ (Forall2 Rle Rf VR -> test_potential (map Fin Rf) s = (Passed, s1)).
Proof.
  intros scipy s s1 VR Rf HV Hlen.
  assert (Hiff : test_potential (map Fin Rf) s = (Passed, s1)
                 <-> Forall2 (fun r v => r - v < 1e-10) Rf VR).
  { unfold test_potential. rewrite HV, np_sub_Fin by assumption.
    rewrite <- (all_below_Fin 1e-10 Rf VR Hlen).
    destruct (all_below _ _); split; intros H; try reflexivity;
      discriminate. }
  split; [exact Hiff|].
  intros Hle. apply Hiff. apply Forall2_below; [lra | assumption].
Qed.

Lemma test_potential_one_sided_witness :
  @test_potential scipy_3pt (map Fin [-100; -100; -100]) store_3pt
  = (Passed, mkStore para_3pt sinks_potential_3pt).
Proof.
  apply (test_potential_one_sided scipy_3pt store_3pt _ [-1; 0; -1]
           [-100; -100; -100] interpolate_potential_3pt eq_refl).
  repeat constructor; lra.
Defined.

(** X15.  The check of [test_eigenvalues] is one-sided as well, with the
    tolerance [1e-2]: for finite eigenvalues and a reference of the same
    length the test passes exactly when every
    [ref_energies[i] - test_energies[i]] is below [1e-2], so that
    eigenvalues above the reference pass, however far above it.  The test
    leaves the sink calls of [solve_hamiltonian] behind. *)
Theorem test_eigenvalues_one_sided :
  forall (scipy : SciPy) (s s' : store) (E Rf : list R) (v : matrix),
    solve_hamiltonian s = (Ok (map Fin E, v), s') ->
    length Rf = length E ->
    (test_eigenvalues (map Fin Rf) s = (Passed, s')
     <-> Forall2 (fun r e => r - e < 1e-2) Rf E)
    /\ (Forall2 Rle Rf E -> test_eigenvalues (map Fin Rf) s = (Passed, s')).
Proof.
  intros scipy s s' E Rf v Hrun Hlen.
  assert (Hiff : test_eigenvalues (map Fin Rf) s = (Passed, s')
                 <-> Forall2 (fun r e => r - e < 1e-2) Rf E).
  { unfold test_eigenvalues. rewrite Hrun, np_sub_Fin by assumption.
    rewrite <- (all_below_Fin 1e-2 Rf E Hlen).
    destruct (all_below _ _); split; intros H; try reflexivity;
      discriminate. }
  split; [exact Hiff|].
  intros Hle. apply Hiff. apply Forall2_below; [lra | assumption].
Qed.

Lemma solve_hamiltonian_3pt_values :
  exists v s',
    @solve_hamiltonian scipy_3pt store_3pt = (Ok (map Fin [0; 1; 3], v), s').
Proof.
  set (raw := band_vectors 3 spectrum_3pt).
  assert (Hrect : rect 3 3 raw) by (split; [reflexivity | repeat constructor]).
  destruct (norm_eigenvectors_columns 2 3 (Fin 1)
              (mkStore (set_Delta (Fin 1) para_3pt) sinks_potential_3pt)
              raw eq_refl Hrect)
    as (v & Hrun & _).
  eexists v, _.
  apply (solve_hamiltonian_run store_3pt _ _ _ _ raw v write_hamiltonian_3pt);
    [reflexivity | exact Hrun].
Qed.

Lemma test_eigenvalues_one_sided_witness :
  exists s',
    @test_eigenvalues scipy_3pt (map Fin [-5; -5; -5]) store_3pt
    = (Passed, s').
Proof.
  destruct solve_hamiltonian_3pt_values as (v & s' & Hrun).
  exists s'.
  apply (test_eigenvalues_one_sided scipy_3pt store_3pt s' [0; 1; 3]
           [-5; -5; -5] v Hrun eq_refl).
  repeat constructor; lra.
Defined.

(** ** What the normalizer does not depend on *)

Lemma rect_scale_matrix (c : R) (r k : nat) (m : matrix) :
  rect r k m -> rect r k (scale_matrix c m).
Proof.
  intros [Hr Hk]. unfold scale_matrix. split; [now rewrite length_map|].
  rewrite Forall_forall in *. intros row Hrow.
  apply in_map_iff in Hrow. destruct Hrow as (row0 & <- & Hin).
  rewrite length_map. now apply Hk.
Qed.

Lemma column_scale_matrix (c : R) (j : nat) (m : matrix) :
  column j (scale_matrix c m) = map (mul (Fin c)) (column j m).
Proof.
  unfold column, scale_matrix. rewrite !map_map. apply map_ext. intros row.
  change NaN with (mul (Fin c) NaN) at 1. apply map_nth.
Qed.

Lemma div_scaled (c sc : R) (v : num) :
  0 < c -> 0 < sc ->
  div (mul (Fin c) v) (Fin (c * sc)) = div v (Fin sc).
Proof.
  intros Hc Hsc. assert (Hp : 0 < c * sc) by now apply Rmult_lt_0_compat.
  destruct v as [a| | |]; cbn [mul].
  - rewrite !div_Fin by lra. f_equal. field. lra.
  - unfold scale_inf. destruct (Rlt_dec 0 c); [|lra]. cbn [div].
    destruct (Rlt_dec (c * sc) 0); [lra|]. destruct (Rlt_dec sc 0); [lra|].
    reflexivity.
  - unfold scale_inf. destruct (Rlt_dec 0 c); [|lra]. cbn [div].
    destruct (Rlt_dec (c * sc) 0); [lra|]. destruct (Rlt_dec sc 0); [lra|].
    reflexivity.
  - reflexivity.
Qed.

Lemma normalize_column_scaled (d : num) (col : list num) (c N : R) :
  quadrature d col = Fin N -> 0 < N -> 0 < c ->
  normalize_column d (map (mul (Fin c)) col) = normalize_column d col.
Proof.
  intros HN Hpos Hc.
  destruct (quadrature_fin_inv d col N HN) as (dl & xs & -> & Hint & HNeq).
  assert (Hq : quadrature (Fin dl) (map (mul (Fin c)) col)
               = Fin (c * c * N)).
  { rewrite (quadrature_Fin dl _ (map (Rmult c) xs)).
    - f_equal. rewrite HNeq.
      replace (Rsum (map (fun x => Rabs x * Rabs x) (map (Rmult c) xs)))
        with (c * c * Rsum (map (fun x => Rabs x * Rabs x) xs)); [ring|].
      clear. induction xs as [|x xs IH]; simpl; [ring|].
      rewrite <- IH, !Rabs_square. ring.
    - rewrite interior_map, Hint, !map_map. reflexivity. }
  assert (Hsqrt : R_sqrt.sqrt (c * c * N) = c * R_sqrt.sqrt N).
  { rewrite sqrt_mult by nra. rewrite sqrt_square by lra. reflexivity. }
  unfold normalize_column. rewrite Hq, HN, !sqrt_Fin by nra.
  rewrite Hsqrt, map_map. apply map_ext. intros v.
  apply div_scaled; [assumption | now apply sqrt_lt_R0].
Qed.

(** X16.  The result of the normalizer does not depend on the scale of its
    argument: for columns with strictly positive interior quadrature sums,
    the array multiplied by a positive factor is normalized to the same
    array. *)
Theorem norm_eigenvectors_scale_invariant :
  forall (s : store) (d : num) (r k : nat) (m : matrix) (c : R),
    Delta (para s) = Some d ->
    rect (S r) k m ->
    0 < c ->
    (forall j, (j < k)%nat ->
               exists N, quadrature d (column j m) = Fin N /\ 0 < N) ->
    exists m',
      _norm_eigenvectors m s = (Ok m', s)
      /\ _norm_eigenvectors (scale_matrix c m) s = (Ok m', s).
Proof.
  intros s d r k m c HD Hrect Hc Hpos.
  destruct (norm_eigenvectors_columns r k d s m HD Hrect)
    as (m1 & Hrun1 & Hrect1 & Hcol1).
  destruct (norm_eigenvectors_columns r k d s (scale_matrix c m) HD
              (rect_scale_matrix c (S r) k m Hrect))
    as (m2 & Hrun2 & Hrect2 & Hcol2).
  exists m1. split; [exact Hrun1|].
  rewrite Hrun2. do 2 f_equal.
  apply (matrix_ext (S r) k); try assumption.
  intros j Hj. rewrite (Hcol2 j Hj), (Hcol1 j Hj), column_scale_matrix.
  destruct (Hpos j Hj) as (N & HN & Hlt).
  exact (normalize_column_scaled d (column j m) c N HN Hlt Hc).
Qed.

Lemma norm_eigenvectors_scale_invariant_witness :
  exists m',
    _norm_eigenvectors vectors_3pt store_3pt_Delta = (Ok m', store_3pt_Delta)
    /\ _norm_eigenvectors (scale_matrix 5 vectors_3pt) store_3pt_Delta
       = (Ok m', store_3pt_Delta).
Proof.
  apply (norm_eigenvectors_scale_invariant store_3pt_Delta (Fin 1) 2 2
           vectors_3pt 5 eq_refl rect_vectors_3pt ltac:(lra)
           positive_vectors_3pt).
Defined.

(** X17.  The in-place loop keeps the columns apart: what the normalizer
    makes of a column depends on that column (and on ['Delta']) alone, so
    two arrays of one shape that agree on a column are normalized to arrays
    that agree on it. *)
Theorem norm_eigenvectors_columnwise :
  forall (s : store) (d : num) (r k : nat) (m1 m2 : matrix) (c : nat),
    Delta (para s) = Some d ->
    rect (S r) k m1 -> rect (S r) k m2 ->
    (c < k)%nat ->
    column c m1 = column c m2 ->
    exists m1' m2',
      _norm_eigenvectors m1 s = (Ok m1', s)
      /\ _norm_eigenvectors m2 s = (Ok m2', s)
      /\ column c m1' = column c m2'.
Proof.
  intros s d r k m1 m2 c HD H1 H2 Hc Heq.
  destruct (norm_eigenvectors_columns r k d s m1 HD H1)
    as (m1' & Hrun1 & _ & Hcol1).
  destruct (norm_eigenvectors_columns r k d s m2 HD H2)
    as (m2' & Hrun2 & _ & Hcol2).
  exists m1', m2'. split; [exact Hrun1|]. split; [exact Hrun2|].
  now rewrite (Hcol1 c Hc), (Hcol2 c Hc), Heq.
Qed.

Lemma norm_eigenvectors_columnwise_witness :
  exists m1' m2',
    _norm_eigenvectors vectors_3pt store_3pt_Delta = (Ok m1', store_3pt_Delta)
    /\ _norm_eigenvectors
         [[Fin 1; Fin 7]; [Fin 1; Fin 7]; [Fin 1; Fin 7]] store_3pt_Delta
       = (Ok m2', store_3pt_Delta)
    /\ column 0 m1' = column 0 m2'.
Proof.
  apply (norm_eigenvectors_columnwise store_3pt_Delta (Fin 1) 2 2
           vectors_3pt [[Fin 1; Fin 7]; [Fin 1; Fin 7]; [Fin 1; Fin 7]] 0
           eq_refl rect_vectors_3pt).
  - split; [reflexivity | repeat constructor].
  - lia.
  - reflexivity.
Defined.

(** ** The observables of normalized states *)

Lemma grid_within (a b : R) (n : Z) :
  a <= b -> Forall (fun x => a <= x <= b) (grid a b n).
Proof.
  intros Hab. apply Forall_forall. intros x Hx. unfold grid in Hx.
  apply in_map_iff in Hx. destruct Hx as (i & <- & Hi).
  apply in_seq in Hi. destruct Hi as [_ Hi]. simpl in Hi.
  destruct (Z_le_gt_dec n 1) as [Hn|Hn].
  - assert (i = 0%nat) by lia. subst i. simpl. lra.
  - assert (Hd : 0 < IZR n - 1).
    { assert (2 <= n)%Z by lia. apply IZR_le in H. lra. }
    set (t := INR i / (IZR n - 1)).
    assert (Ht : 0 <= t <= 1).
    { unfold t. split.
      - apply Rmult_le_pos; [apply pos_INR|].
        apply Rlt_le, Rinv_0_lt_compat, Hd.
      - apply (Rmult_le_reg_r (IZR n - 1)); [exact Hd|].
        unfold Rdiv. rewrite Rmult_assoc, Rinv_l by lra.
        assert (INR i <= INR (Z.to_nat n - 1)) by (apply le_INR; lia).
        replace (Z.to_nat n - 1)%nat with (Z.to_nat (n - 1)) in H by lia.
        rewrite INR_to_nat, minus_IZR in H by lia. lra. }
    replace (a + INR i * ((b - a) / (IZR n - 1))) with (a + t * (b - a))
      by (unfold t; field; lra).
    split; nra.
Qed.

Lemma weighted_mean_bounds (l : list (R * R)) (a b : R) :
  Forall (fun wx => 0 <= fst wx /\ a <= snd wx <= b) l ->
  a * Rsum (map fst l) <= Rsum (map (fun wx => fst wx * snd wx) l)
  <= b * Rsum (map fst l).
Proof.
  induction 1 as [|[w x] l [Hw Hx] _ IH]; simpl in *; [lra|]. nra.
Qed.

Lemma expectationR_within (dl : R) (psi X : list R) (a b : R) :
  length (interior psi) = length X ->
  quadratureR dl psi = 1 ->
  Forall (fun x => a <= x <= b) X ->
  a <= expectationR dl psi X <= b.
Proof.
  intros Hlen Hq HX. unfold expectationR, quadratureR in *.
  set (ws := map (fun x => x * x) (interior psi)) in *.
  assert (Hws : Rsum (map (fun x => Rabs x * Rabs x) (interior psi)) = Rsum ws).
  { unfold ws. apply Rsum_ext_map. intros x _. apply Rabs_square. }
  rewrite Hws in Hq.
  assert (Hnn : Forall (fun x => 0 <= x) ws).
  { unfold ws. apply Forall_forall. intros y Hy.
    apply in_map_iff in Hy. destruct Hy as (x & <- & _). nra. }
  assert (Hsum : 0 <= Rsum ws) by (clear - Hnn; induction Hnn; simpl; lra).
  assert (Hdl : 0 < dl) by nra.
  assert (Hl : Forall (fun wx => 0 <= fst wx /\ a <= snd wx <= b)
                      (combine ws X)).
  { apply Forall_forall. intros [w x] Hin. simpl. split.
    - apply in_combine_l in Hin. rewrite Forall_forall in Hnn. now apply Hnn.
    - apply in_combine_r in Hin. rewrite Forall_forall in HX. now apply HX. }
  pose proof (weighted_mean_bounds (combine ws X) a b Hl) as Hm.
  rewrite map_fst_combine in Hm by (unfold ws; now rewrite length_map).
  set (B := Rsum (map (fun wx => fst wx * snd wx) (combine ws X))) in *.
  destruct Hm as [Hlo Hhi].
  apply (Rmult_le_compat_l dl) in Hlo; [|lra].
  apply (Rmult_le_compat_l dl) in Hhi; [|lra].
  replace (dl * (a * Rsum ws)) with (a * (dl * Rsum ws)) in Hlo by ring.
  replace (dl * (b * Rsum ws)) with (b * (dl * Rsum ws)) in Hhi by ring.
  rewrite Hq in Hlo, Hhi. lra.
Qed.

(** X18.  The expectation value of a normalized state is a weighted mean
    of the interior coordinates: for finite columns of [nPoints >= 3] rows
    that are normalized, with [xMin + Delta <= xMax - Delta], every
    expectation value handed to the sink lies between [xMin + Delta] and
    [xMax - Delta]. *)
Theorem expectation_within_interior :
  forall (s : store) (dl : R) (k : nat) (m : matrix) (psi : nat -> list R),
    let p := para s in
    Delta p = Some (Fin dl) ->
    (3 <= nPoints p)%Z ->
    rect (Z.to_nat (nPoints p)) k m ->
    (forall c, (c < k)%nat -> column c m = map Fin (psi c)) ->
    (forall c, (c < k)%nat -> quadratureR dl (psi c) = 1) ->
    xMin p + dl <= xMax p - dl ->
    exists expval uncertainty,
      expectation_values m s
      = (Ok tt,
         mkStore p (sinks s ++ [write_expectation_values expval uncertainty
                                  (directory p)]))
      /\ length expval = k
      /\ forall c, (c < k)%nat ->
                   exists ex, nth c expval NaN = Fin ex
                              /\ xMin p + dl <= ex <= xMax p - dl.
Proof.
  intros s dl k m psi p HD Hn Hrect Hcol Hq Hab.
  destruct (expectation_values_finite s dl k m psi HD Hn Hrect Hcol)
    as (e & u & Hrun & Le & _ & Hc).
  exists e, u. split; [exact Hrun|]. split; [exact Le|].
  intros c Hlt. destruct (Hc c Hlt) as (He & _ & Hlen).
  eexists. split; [exact He|].
  apply expectationR_within; [exact Hlen | now apply Hq |].
  now apply grid_within.
Qed.

Lemma expectation_within_interior_witness :
  exists expval uncertainty ex,
    expectation_values spike_5pt store_5pt
    = (Ok tt,
       mkStore para_5pt [write_expectation_values expval uncertainty "."])
    /\ nth 0 expval NaN = Fin ex /\ 0 + 1 <= ex <= 5 - 1.
Proof.
  destruct (expectation_within_interior store_5pt 1 1 spike_5pt
              (fun _ => [0; 0; 1; 0; 0]) eq_refl)
    as (e & u & Hrun & _ & Hc).
  - simpl. lia.
  - exact rect_spike_5pt.
  - intros [|c] Hc; [reflexivity | lia].
  - intros c _. unfold quadratureR, interior. simpl.
    rewrite !Rabs_square. lra.
  - simpl. lra.
  - destruct (Hc 0%nat (le_n 1)) as (ex & He & Hb).
    exists e, u, ex. repeat split; try assumption; apply Hb.
Defined.

Lemma grid_shift (a b t : R) (n : Z) :
  grid (a + t) (b + t) n = map (fun x => x + t) (grid a b n).
Proof.
  unfold grid. rewrite map_map. apply map_ext. intros i.
  unfold Rdiv, Rminus. ring.
Qed.

Lemma shifted_moments (l : list (R * R)) (t : R) :
  Rsum (map (fun wx => fst wx * (snd wx + t)) l)
  = Rsum (map (fun wx => fst wx * snd wx) l) + t * Rsum (map fst l)
  /\ Rsum (map (fun wx => fst wx * ((snd wx + t) * (snd wx + t))) l)
     = Rsum (map (fun wx => fst wx * (snd wx * snd wx)) l)
       + 2 * t * Rsum (map (fun wx => fst wx * snd wx) l)
       + t * t * Rsum (map fst l).
Proof.
  induction l as [|[w x] l [IH1 IH2]]; simpl; [split; ring|].
  rewrite IH1, IH2. split; ring.
Qed.

Lemma expectationR_shift (dl : R) (psi X : list R) (t : R) :
  length (interior psi) = length X ->
  quadratureR dl psi = 1 ->
  expectationR dl psi (map (fun x => x + t) X) = expectationR dl psi X + t
  /\ expectation2R dl psi (map (fun x => x + t) X)
     = expectation2R dl psi X + 2 * t * expectationR dl psi X + t * t.
Proof.
  intros Hlen Hq. unfold expectationR, expectation2R, quadratureR in *.
  set (ws := map (fun x => x * x) (interior psi)) in *.
  assert (Hws : Rsum (map (fun x => Rabs x * Rabs x) (interior psi)) = Rsum ws).
  { unfold ws. apply Rsum_ext_map. intros x _. apply Rabs_square. }
  rewrite Hws in Hq.
  rewrite !map_map, !combine_map_r, !map_map. cbn [fst snd].
  destruct (shifted_moments (combine ws X) t) as [H1 H2].
  rewrite H1, H2.
  rewrite map_fst_combine by (unfold ws; now rewrite length_map).
  set (B := Rsum (map (fun wx => fst wx * snd wx) (combine ws X))).
  set (C := Rsum (map (fun wx => fst wx * (snd wx * snd wx)) (combine ws X))).
  split.
  - replace (dl * (B + t * Rsum ws)) with (dl * B + t * (dl * Rsum ws))
      by ring.
    rewrite Hq. ring.
  - replace (dl * (C + 2 * t * B + t * t * Rsum ws))
      with (dl * C + 2 * t * (dl * B) + t * t * (dl * Rsum ws)) by ring.
    rewrite Hq. ring.
Qed.

(** X19.  Moving both grid bounds by [t] moves the expectation value of
    every normalized state by [t] and leaves its uncertainty as it is: for
    finite normalized columns of [nPoints >= 3] rows the sink receives the
    same uncertainties and the expectation values plus [t]. *)
Theorem observables_translation :
  forall (s : store) (dl : R) (k : nat) (m : matrix) (psi : nat -> list R)
         (t : R),
    let p := para s in
    Delta p = Some (Fin dl) ->
    (3 <= nPoints p)%Z ->
    rect (Z.to_nat (nPoints p)) k m ->
    (forall c, (c < k)%nat -> column c m = map Fin (psi c)) ->
    (forall c, (c < k)%nat -> quadratureR dl (psi c) = 1) ->
    exists expval uncertainty,
      expectation_values m s
      = (Ok tt,
         mkStore p (sinks s ++ [write_expectation_values expval uncertainty
                                  (directory p)]))
      /\ expectation_values m (mkStore (shift_bounds t p) (sinks s))
         = (Ok tt,
            mkStore (shift_bounds t p)
              (sinks s ++ [write_expectation_values
                             (map (fun e => add e (Fin t)) expval)
                             uncertainty (directory p)])).
Proof.
  intros s dl k m psi t p HD Hn Hrect Hcol Hq.
  destruct (expectation_values_finite s dl k m psi HD Hn Hrect Hcol)
    as (e & u & Hrun & Le & Lu & Hc).
  destruct (expectation_values_finite (mkStore (shift_bounds t p) (sinks s))
              dl k m psi HD Hn Hrect Hcol)
    as (e' & u' & Hrun' & Le' & Lu' & Hc').
  cbn [para sinks shift_bounds xMin xMax nPoints directory] in Hrun', Hc'.
  fold p in Hrun, Hc.
  set (X := grid (xMin p + dl) (xMax p - dl) (nPoints p - 2)) in *.
  replace (grid (xMin p + t + dl) (xMax p + t - dl) (nPoints p - 2))
    with (map (fun x => x + t) X) in Hc'.
  2:{ unfold X. rewrite <- grid_shift. f_equal; ring. }
  assert (He : e' = map (fun x => add x (Fin t)) e).
  { apply (nth_ext _ _ NaN NaN); [now rewrite length_map, Le, Le'|].
    intros c Hlt. rewrite Le' in Hlt.
    rewrite (nth_map_in _ _ _ NaN) by lia.
    destruct (Hc c Hlt) as (H1 & _ & Hlen).
    destruct (Hc' c Hlt) as (H1' & _ & _).
    rewrite H1, H1'.
    destruct (expectationR_shift dl (psi c) X t Hlen (Hq c Hlt)) as [-> _].
    reflexivity. }
  assert (Hu : u' = u).
  { apply (nth_ext _ _ NaN NaN); [now rewrite Lu, Lu'|].
    intros c Hlt. rewrite Lu' in Hlt.
    destruct (Hc c Hlt) as (_ & H2 & Hlen).
    destruct (Hc' c Hlt) as (_ & H2' & _).
    rewrite H2, H2'.
    destruct (expectationR_shift dl (psi c) X t Hlen (Hq c Hlt)) as [-> ->].
    do 2 f_equal. ring. }
  exists e, u. split; [exact Hrun|]. now rewrite Hrun', He, Hu.
Qed.

Lemma observables_translation_witness :
  exists expval uncertainty,
    expectation_values spike_5pt store_5pt
    = (Ok tt,
       mkStore para_5pt [write_expectation_values expval uncertainty "."])
    /\ expectation_values spike_5pt (mkStore (shift_bounds 10 para_5pt) [])
       = (Ok tt,
          mkStore (shift_bounds 10 para_5pt)
            [write_expectation_values (map (fun e => add e (Fin 10)) expval)
               uncertainty "."]).
Proof.
  apply (observables_translation store_5pt 1 1 spike_5pt
           (fun _ => [0; 0; 1; 0; 0]) 10 eq_refl).
  - simpl. lia.
  - exact rect_spike_5pt.
  - intros [|c] Hc; [reflexivity | lia].
  - intros c _. unfold quadratureR, interior. simpl.
    rewrite !Rabs_square. lra.
Defined.

Lemma np_mul_singleton_r (a : list num) (y : num) :
  exists l, np_mul a [y] = Ok l.
Proof.
  unfold np_mul. destruct (Nat.eqb (length a) (length [y])); [eauto|].
  destruct a as [|x [|x' a]]; eauto.
Qed.

(** X20.  With [nPoints = 3] the stage has a single interior coordinate,
    which numpy broadcasts: an eigenvector array of any number of rows is
    then accepted, and the stage returns normally with one pair for each
    column. *)
Theorem expectation_values_three_points :
  forall (s : store) (d : num) (r k : nat) (m : matrix),
    Delta (para s) = Some d ->
    rect (S r) k m ->
    nPoints (para s) = 3%Z ->
    exists expval uncertainty,
      expectation_values m s
      = (Ok tt,
         mkStore (para s)
           (sinks s ++ [write_expectation_values expval uncertainty
                          (directory (para s))]))
      /\ length expval = k /\ length uncertainty = k.
Proof.
  intros s d r k m HD Hrect H3.
  destruct (linspace (add (Fin (xMin (para s))) d)
                     (sub (Fin (xMax (para s))) d) (nPoints (para s) - 2))
    as [x_i|err] eqn:Hx.
  2:{ exfalso. revert Hx. rewrite H3. unfold linspace. discriminate. }
  pose proof (length_linspace _ _ _ _ Hx) as Hxl. rewrite H3 in Hxl.
  destruct x_i as [|y [|y' x_i]]; try discriminate.
  destruct (expectation_values_run s d r k m [y]
              (fun ii => match observables_of_column d [y] m ii with
                         | Ok t => t
                         | Raise _ => (NaN, NaN, NaN)
                         end) HD Hrect Hx)
    as (e & u & Hrun & Le & Lu & _).
  - intros ii _. unfold observables_of_column. cbn [map].
    destruct (np_mul_singleton_r (map sq (interior (column ii m))) y)
      as [l1 ->].
    destruct (np_mul_singleton_r (map sq (interior (column ii m))) (sq y))
      as [l2 ->].
    reflexivity.
  - exists e, u. repeat split; assumption.
Qed.

Lemma expectation_values_three_points_witness :
  exists expval uncertainty,
    expectation_values seven_rows store_3pt_Delta
    = (Ok tt,
       mkStore (para store_3pt_Delta)
         [write_expectation_values expval uncertainty "."])
    /\ length expval = 1%nat.
Proof.
  destruct (expectation_values_three_points store_3pt_Delta (Fin 1) 6 1
              seven_rows eq_refl rect_seven_rows eq_refl)
    as (e & u & Hrun & Le & _).
  exists e, u. split; assumption.
Defined.
